(** * Japanese-Sentence-Practice: the streaming feedback parser and the
      history service

    A shallow embedding of two services of the application:

    - [Stream]: [evaluateSentenceStream] of services/geminiService, the
      parser that splits the model's streamed answer at the one-time
      delimiter into three header fields and the explanation text;
    - [History]: services/historyService, the CRUD functions over the
      [localStorage] entry that holds the practice history.

    [JS] holds the ECMAScript string operations both rely on. *)

From Stdlib Require Import String Ascii.
From Stdlib Require Import List ZArith NArith Bool Lia Arith.
From Stdlib Require Import Permutation Sorted.
From Stdlib Require Import Numbers.DecimalString.
From Stdlib Require QArith.
Import ListNotations.

Set Implicit Arguments.

(* ================================================================= *)
(** ** ECMAScript strings *)

Module JS.

(** A JS string is a sequence of UTF-16 code units. *)
Definition code_unit := N.
Definition jsstring := list code_unit.

(** ASCII literals of the source. *)
Definition str (s : string) : jsstring :=
  map (fun a => N.of_nat (nat_of_ascii a)) (list_ascii_of_string s).

Definition LF : code_unit := 10%N.

(** [if (text)] on a string: the empty string is the only falsy one. *)
Definition truthy (s : jsstring) : bool :=
  match s with [] => false | _ :: _ => true end.

(** LineTerminator: LF, CR, LS, PS. *)
Definition isLineTerminator (c : code_unit) : bool :=
  ((c =? 10) || (c =? 13) || (c =? 8232) || (c =? 8233))%N.

(** WhiteSpace: TAB, VT, FF, SP, NBSP, ZWNBSP and the space separators. *)
Definition isWhiteSpaceChar (c : code_unit) : bool :=
  ((c =? 9) || (c =? 11) || (c =? 12) || (c =? 32) || (c =? 160)
   || (c =? 5760) || ((8192 <=? c) && (c <=? 8202)) || (c =? 8239)
   || (c =? 8287) || (c =? 12288) || (c =? 65279))%N.

(** The class [\s] of a regular expression, which is also what
    [String.prototype.trim] strips: WhiteSpace and LineTerminator. *)
Definition isSpace (c : code_unit) : bool :=
  isWhiteSpaceChar c || isLineTerminator c.

(** The class [\d]. *)
Definition isDigit (c : code_unit) : bool := ((48 <=? c) && (c <=? 57))%N.

(** [.] without the [s] flag: anything but a line terminator. *)
Definition isDot (c : code_unit) : bool := negb (isLineTerminator c).

Fixpoint takeWhile (p : code_unit -> bool) (s : jsstring) : jsstring :=
  match s with
  | [] => []
  | c :: s' => if p c then c :: takeWhile p s' else []
  end.

Fixpoint dropWhile (p : code_unit -> bool) (s : jsstring) : jsstring :=
  match s with
  | [] => []
  | c :: s' => if p c then dropWhile p s' else s
  end.

(** [s.startsWith(p)]; [stripPrefix] also gives what follows the prefix. *)
Fixpoint stripPrefix (p s : jsstring) : option jsstring :=
  match p, s with
  | [], _ => Some s
  | _ :: _, [] => None
  | a :: p', c :: s' => if (a =? c)%N then stripPrefix p' s' else None
  end.

Definition startsWith (p s : jsstring) : bool :=
  match stripPrefix p s with Some _ => true | None => false end.

(** [s.indexOf(sep)]: the least index at which [sep] occurs, [None] for
    the source's [-1]. [indexOfFrom] carries the index of the head. *)
Fixpoint indexOfFrom (sep s : jsstring) (i : nat) : option nat :=
  if startsWith sep s then Some i
  else match s with
       | [] => None
       | _ :: s' => indexOfFrom sep s' (S i)
       end.

Definition indexOf (sep s : jsstring) : option nat := indexOfFrom sep s 0.

(** [sep] occurs in [s] at index [i]; and it does so for the first time. *)
Definition occursAt (sep s : jsstring) (i : nat) : Prop :=
  startsWith sep (skipn i s) = true.

Definition firstOccurrence (sep s : jsstring) (i : nat) : Prop :=
  occursAt sep s i /\ forall j, j < i -> startsWith sep (skipn j s) = false.

(** [s.substring(a, b)] for [a <= b] and [s.substring(a)]. *)
Definition substring (s : jsstring) (a b : nat) : jsstring :=
  firstn (b - a) (skipn a s).

Definition substringFrom (s : jsstring) (a : nat) : jsstring := skipn a s.

(** [s.trim()]. *)
Definition trimStart (s : jsstring) : jsstring := dropWhile isSpace s.
Definition trimEnd (s : jsstring) : jsstring := rev (dropWhile isSpace (rev s)).
Definition trim (s : jsstring) : jsstring := trimEnd (trimStart s).

(** [s.split(c)] for a one-unit separator: never the empty array. *)
Fixpoint split (sep : code_unit) (s : jsstring) : list jsstring :=
  match s with
  | [] => [[]]
  | c :: s' =>
      if (c =? sep)%N then [] :: split sep s'
      else match split sep s' with
           | l :: ls => (c :: l) :: ls
           | [] => [[c]]
           end
  end.

(** [lines.join(c)]. *)
Fixpoint join (sep : code_unit) (ls : list jsstring) : jsstring :=
  match ls with
  | [] => []
  | [l] => l
  | l :: ls' => l ++ sep :: join sep ls'
  end.

(** [xs.findIndex(p)], [None] for [-1]. *)
Fixpoint findIndexFrom {A} (p : A -> bool) (xs : list A) (i : nat) : option nat :=
  match xs with
  | [] => None
  | x :: xs' => if p x then Some i else findIndexFrom p xs' (S i)
  end.

Definition findIndex {A} (p : A -> bool) (xs : list A) : option nat :=
  findIndexFrom p xs 0.

(** *** Numbers produced by [parseInt]

    A Number is a double. The integers that [parseInt] yields are kept as
    exact integers: the double nearest to the digits read (ties to even),
    or [Infinity] beyond the largest double. *)
Inductive number : Type :=
| NaN
| Infinity
| Finite (z : Z).

Definition roundToDouble (n : Z) : number :=
  (if n <? 2 ^ 53 then Finite n
   else
     let e := Z.log2 n - 52 in
     let q := Z.shiftr n e in
     let r := n - Z.shiftl q e in
     let half := Z.shiftl 1 (e - 1) in
     let q' := if (half <? r) || ((r =? half) && Z.odd q) then q + 1 else q in
     let v := Z.shiftl q' e in
     if 2 ^ 1024 <=? v then Infinity else Finite v)%Z.

Definition digitValue (c : code_unit) : Z := Z.of_N c - 48.

Definition decimalValue (ds : jsstring) : Z :=
  fold_left (fun acc c => 10 * acc + digitValue c)%Z ds 0%Z.

(** [parseInt(s, 10)] on a string that starts with its digits (the source
    applies it to the capture of [(\d+)] only). *)
Definition parseInt10 (s : jsstring) : number :=
  match takeWhile isDigit s with
  | [] => NaN
  | ds => roundToDouble (decimalValue ds)
  end.

(** *** The regular expressions of the parser

    All three carry the [m] flag and start with [^]: a match may begin at
    index 0 or right after a line terminator, and [match] returns the
    leftmost one. [searchLines at_pos true s] tries [at_pos] at each such
    position of [s], from the left. *)
Fixpoint searchLines {A} (at_pos : jsstring -> option A) (bol : bool)
    (s : jsstring) : option A :=
  match (if bol then at_pos s else None) with
  | Some r => Some r
  | None =>
      match s with
      | [] => None
      | c :: s' => searchLines at_pos (isLineTerminator c) s'
      end
  end.

(** [lit\s*(\d+)] at one position. The greedy [\s*] takes the whole run of
    white space; giving some of it back cannot help, since [\d+] would then
    have to start on a white-space unit. The result is the capture. *)
Definition litSpacesDigits (lit s : jsstring) : option jsstring :=
  match stripPrefix lit s with
  | None => None
  | Some rest =>
      match takeWhile isDigit (dropWhile isSpace rest) with
      | [] => None
      | ds => Some ds
      end
  end.

(** [lit], then [\s*], then the group of a greedy dot-star, at one
    position: after the greedy [\s*] the dot-star runs up to the next line
    terminator; it never fails, so there is no backtracking. The result is
    the capture. *)
Definition litSpacesRest (lit s : jsstring) : option jsstring :=
  match stripPrefix lit s with
  | None => None
  | Some rest => Some (takeWhile isDot (dropWhile isSpace rest))
  end.

(** [s.match] with the multi-line regular expression made of [^lit\s*]
    and the group [(\d+)], respectively the dot-star group: the capture
    group 1 of the match, [None] when [match] returns [null]. *)
Definition matchDigitsField (lit s : jsstring) : option jsstring :=
  searchLines (litSpacesDigits lit) true s.

Definition matchRestField (lit s : jsstring) : option jsstring :=
  searchLines (litSpacesRest lit) true s.

End JS.

(* ================================================================= *)
(** ** The streaming parser: [evaluateSentenceStream] *)

Module Stream.
Import JS.

(** The object handed to [onStructuredData]. *)
Record fields : Type := Fields {
  score : number;
  evaluation : jsstring;
  correctedSentence : jsstring
}.

(** The calls made on the three callbacks, in the order they are made. *)
Inductive event : Type :=
| OnStructuredData (data : fields)
| OnExplanationChunk (chunk : jsstring)
| OnStreamEnd.

(** *** Effects: a log of callback calls, and exceptions

    A computation extends the log of calls and either returns or throws.
    The callbacks are the caller's state setters; they record the call. *)
Inductive outcome (A : Type) : Type :=
| Returned (a : A)
| Thrown.
Arguments Thrown {A}.

Definition Eff (A : Type) : Type := list event -> list event * outcome A.

Definition ret {A} (a : A) : Eff A := fun log => (log, Returned a).

Definition throw {A} : Eff A := fun log => (log, Thrown).

Definition bind {A B} (m : Eff A) (k : A -> Eff B) : Eff B :=
  fun log =>
    match m log with
    | (log', Returned a) => k a log'
    | (log', Thrown) => (log', Thrown)
    end.

Notation "x <- m ;; k" := (bind m (fun x => k))
  (at level 61, m at next level, right associativity).
Notation "m ;; k" := (bind m (fun _ => k))
  (at level 61, right associativity).

Definition call (e : event) : Eff unit := fun log => (log ++ [e], Returned tt).

Definition onStructuredData (data : fields) : Eff unit := call (OnStructuredData data).
Definition onExplanationChunk (chunk : jsstring) : Eff unit := call (OnExplanationChunk chunk).
Definition onStreamEnd : Eff unit := call OnStreamEnd.

(** [try { body } catch (error) { handler } finally { final }]. *)
Definition try_catch_finally (body handler final : Eff unit) : Eff unit :=
  fun log =>
    let (log1, r1) := body log in
    let (log2, r2) := match r1 with
                      | Returned _ => (log1, r1)
                      | Thrown => handler log1
                      end in
    match final log2 with
    | (log3, Returned _) => (log3, r2)
    | (log3, Thrown) => (log3, Thrown)
    end.

(** *** The stream of the answer

    A chunk's [text] is a string or [undefined]. The stream delivers its
    chunks and then ends, or throws after them; a rejected
    [generateContentStream] is the stream that throws before any chunk. *)
Definition chunk := option jsstring.

Inductive ending : Type := EndOfStream | StreamError.

Record stream : Type := Stream {
  chunks : list chunk;
  finish : ending
}.

(** [for await (const chunk of stream) { body }] over the loop variables. *)
Fixpoint for_await {S} (body : S -> chunk -> Eff S) (cs : list chunk)
    (fin : ending) (st : S) : Eff S :=
  match cs with
  | [] => match fin with
          | EndOfStream => ret st
          | StreamError => throw
          end
  | c :: cs' => st' <- body st c ;; for_await body cs' fin st'
  end.

(** *** Constants of the source *)

Definition separator : jsstring := LF :: str "--- " ++ [LF].

(** The default of [evaluation], five units of the Basic Multilingual Plane. *)
Definition defaultEvaluation : jsstring := [35780; 20215; 26410; 25552; 20379]%N.

Definition defaultCorrectedSentence : jsstring :=
  str "(AI did not provide a correction.)".

Definition errorMessage : jsstring :=
  LF :: LF :: str "**Error:** Failed to get feedback from the AI. Please try again.".

(** *** Field extraction

    The three [match] calls and their defaults; the same code appears in
    the loop and in the fallback. *)
Definition parseFields (header : jsstring) : fields :=
  let scoreMatch := matchDigitsField (str "score:") header in
  let evaluationMatch := matchRestField (str "evaluation:") header in
  let correctedSentenceMatch := matchRestField (str "correctedSentence:") header in
  {| score := match scoreMatch with
              | Some m1 => parseInt10 m1
              | None => Finite 0
              end;
     evaluation := match evaluationMatch with
                   | Some m1 => trim m1
                   | None => defaultEvaluation
                   end;
     correctedSentence := match correctedSentenceMatch with
                          | Some m1 => trim m1
                          | None => defaultCorrectedSentence
                          end |}.

(** *** The loop *)

Record loop_state : Type := LoopState {
  buffer : jsstring;
  headersParsed : bool
}.

Definition initial : loop_state := {| buffer := []; headersParsed := false |}.

Definition loop_body (st : loop_state) (c : chunk) : Eff loop_state :=
  match c with
  | None => ret st
  | Some text =>
      if truthy text then
        if headersParsed st then
          onExplanationChunk text ;; ret st
        else
          let buffer' := buffer st ++ text in
          match indexOf separator buffer' with
          | Some separatorIndex =>
              let header := substring buffer' 0 separatorIndex in
              onStructuredData (parseFields header) ;;
              let firstChunk :=
                substringFrom buffer' (separatorIndex + length separator) in
              (if truthy firstChunk then onExplanationChunk firstChunk
               else ret tt) ;;
              ret {| buffer := buffer'; headersParsed := true |}
          | None => ret {| buffer := buffer'; headersParsed := false |}
          end
      else ret st
  end.

(** *** The fallback after the loop *)

Definition fallbackExplanation (headers : jsstring) : jsstring :=
  let lines := split LF headers in
  match findIndex (startsWith (str "correctedSentence:")) lines with
  | Some correctedLineIndex =>
      if correctedLineIndex + 1 <? length lines then
        trim (join LF (skipn (correctedLineIndex + 1) lines))
      else []
  | None => []
  end.

Definition fallback (st : loop_state) : Eff unit :=
  if negb (headersParsed st) && (0 <? length (buffer st)) then
    let headerPart := buffer st in
    let separatorIndex := indexOf separator headerPart in
    let headers := match separatorIndex with
                   | Some i => substring headerPart 0 i
                   | None => headerPart
                   end in
    onStructuredData (parseFields headers) ;;
    let explanation :=
      match separatorIndex with
      | Some i => substringFrom headerPart (i + length separator)
      | None => fallbackExplanation headers
      end in
    if truthy explanation then onExplanationChunk explanation else ret tt
  else ret tt.

(** *** The function *)

(** The body of the [try] block: the loop, then the fallback. *)
Definition tryBody (s : stream) : Eff unit :=
  st <- for_await loop_body (chunks s) (finish s) initial ;; fallback st.

Definition evaluateSentenceStream (s : stream) : Eff unit :=
  try_catch_finally
    (tryBody s)
    (onExplanationChunk errorMessage)
    onStreamEnd.

(** A run starts with an empty log. *)
Definition run (s : stream) : list event * outcome unit :=
  evaluateSentenceStream s [].

Definition calls_of (s : stream) : list event := fst (run s).

(** *** Observations on a log *)

Definition structuredCalls (log : list event) : list fields :=
  flat_map (fun e => match e with OnStructuredData d => [d] | _ => [] end) log.

Definition explanationChunks (log : list event) : list jsstring :=
  flat_map (fun e => match e with OnExplanationChunk c => [c] | _ => [] end) log.

(** What the caller's [onExplanationChunk] accumulates. *)
Definition explanationText (log : list event) : jsstring :=
  concat (explanationChunks log).

Definition streamEnds (log : list event) : nat :=
  length (filter (fun e => match e with OnStreamEnd => true | _ => false end) log).

(** The text of a chunk sequence: the concatenation of the chunk texts. *)
Definition textOf (cs : list chunk) : jsstring :=
  concat (map (fun c => match c with Some t => t | None => [] end) cs).

(** The texts the loop looks at: those of the chunks with a truthy [text]. *)
Definition nonEmptyTexts (cs : list chunk) : list jsstring :=
  flat_map (fun c => match c with
                     | Some t => if truthy t then [t] else []
                     | None => []
                     end) cs.

(** How the iteration leaves the loop. *)
Definition ended (fin : ending) (st : loop_state) : outcome loop_state :=
  match fin with
  | EndOfStream => Returned st
  | StreamError => Thrown
  end.

(** The calls of the fallback on an undelimited text. *)
Definition fallbackCalls (text : jsstring) : list event :=
  if truthy text then
    OnStructuredData (parseFields text)
    :: (if truthy (fallbackExplanation text)
        then [OnExplanationChunk (fallbackExplanation text)] else [])
  else [].

(** The calls after the loop and the fallback: the handler's, when the
    stream threw, and the one of the [finally] block. *)
Definition closingCalls (fin : ending) : list event :=
  match fin with
  | EndOfStream => [OnStreamEnd]
  | StreamError => [OnExplanationChunk errorMessage; OnStreamEnd]
  end.


(** *** The fields as the specification words them

    The line-based reading: a field is the trimmed remainder of the first
    line that begins with its label, a line being what lies between two
    line terminators. [parseFields] above is the code; this definition
    follows the words of the specification, for comparison. *)
Fixpoint splitLines (s : jsstring) : list jsstring :=
  match s with
  | [] => [[]]
  | c :: s' =>
      if isLineTerminator c then [] :: splitLines s'
      else match splitLines s' with
           | l :: ls => (c :: l) :: ls
           | [] => [[c]]
           end
  end.

Definition specLineField (label header default : jsstring) : jsstring :=
  match find (startsWith label) (splitLines header) with
  | Some line => trim (skipn (length label) line)
  | None => default
  end.

End Stream.

(* ================================================================= *)
(** ** The history service *)

Module History.
Import JS.

(** *** Values

    The values that the service handles: what [JSON.parse] made of the
    stored text or of an imported file, and the items that the
    application hands in. A property of an object that holds [undefined]
    reads like a property that is not there, and is represented so.

    A number is a double. [JSON.parse] yields the finite doubles, negative
    zero among them, and an infinity for a literal beyond their range,
    such as [1e999]; it yields no [NaN], and the application computes
    none (a score is [parseInt] of digits, the other numbers are counters
    and [Date.now()] instants), so [NaN] is left out. A finite double
    other than negative zero is given by its value, a rational number;
    that not every rational number is a double plays no part. *)
Inductive double : Type :=
| Value (q : QArith_base.Q)
| NegativeZero
| PositiveInfinity
| NegativeInfinity.

(** The double of an integer, for the integers that are doubles. *)
Definition integer (z : Z) : double := Value (QArith_base.inject_Z z).

(** The value of a finite double. *)
Definition valueOf (x : double) : QArith_base.Q :=
  match x with
  | Value q => q
  | _ => QArith_base.inject_Z 0
  end.

(** [x === y] on numbers: the two zeros are equal. *)
Definition numEqb (x y : double) : bool :=
  match x, y with
  | PositiveInfinity, PositiveInfinity => true
  | NegativeInfinity, NegativeInfinity => true
  | (Value _ | NegativeZero), (Value _ | NegativeZero) =>
      QArith_base.Qeq_bool (valueOf x) (valueOf y)
  | _, _ => false
  end.

(** [x < y] on numbers. *)
Definition numLtb (x y : double) : bool :=
  match x, y with
  | NegativeInfinity, NegativeInfinity => false
  | NegativeInfinity, _ => true
  | _, NegativeInfinity => false
  | PositiveInfinity, _ => false
  | _, PositiveInfinity => true
  | _, _ => negb (QArith_base.Qle_bool (valueOf y) (valueOf x))
  end.

#[warnings="-register-all"] Inductive json : Type :=
| JNull
| JBool (b : bool)
| JNumber (n : double)
| JString (s : jsstring)
| JArray (items : list json)
| JObject (members : list (jsstring * json)).

(** What [JSON.parse] reads back from the text that [JSON.stringify]
    writes for a value: an infinity is written as [null] and negative
    zero as [0]; all else comes back as it was. *)
Fixpoint jsonImage (v : json) : json :=
  match v with
  | JNumber NegativeZero => JNumber (integer 0)
  | JNumber PositiveInfinity => JNull
  | JNumber NegativeInfinity => JNull
  | JArray items => JArray (map jsonImage items)
  | JObject members =>
      JObject (map (fun member : jsstring * json =>
                      let (name, value) := member in (name, jsonImage value))
                   members)
  | _ => v
  end.

(** The result of reading a property: a value, or [undefined]. *)
Definition jsvalue := option json.

(** Code that may throw inside a [try] block: [None] is the exception. *)
Notation "'let?' x ':=' m 'in' k" :=
  (match m with Some x => k | None => None end)
  (at level 10, x pattern, m at level 100, k at level 200).

Fixpoint lookup (name : jsstring) (members : list (jsstring * json)) : jsvalue :=
  match members with
  | [] => None
  | (k, v) :: rest =>
      if list_eq_dec N.eq_dec k name then Some v else lookup name rest
  end.

(** [item.name], for the names the service reads ([id], [timestamp],
    [gameMode], [userSentence], [chineseSentence]): a [TypeError] on
    [null], [undefined] on the primitives and on arrays, which have no
    such property. *)
Definition getProp (item : json) (name : jsstring) : option jsvalue :=
  match item with
  | JNull => None
  | JObject members => Some (lookup name members)
  | _ => Some None
  end.

(** [a === b]. Arrays and objects are compared by reference, and the two
    sides never share one: one of them was just parsed from the store. *)
Definition strictEq (a b : jsvalue) : bool :=
  match a, b with
  | None, None => true
  | Some JNull, Some JNull => true
  | Some (JBool x), Some (JBool y) => Bool.eqb x y
  | Some (JNumber x), Some (JNumber y) => numEqb x y
  | Some (JString x), Some (JString y) =>
      if list_eq_dec N.eq_dec x y then true else false
  | _, _ => false
  end.

(** The elements that a string spreads into: its code points. *)
Definition isHighSurrogate (c : code_unit) : bool := ((55296 <=? c) && (c <=? 56319))%N.
Definition isLowSurrogate (c : code_unit) : bool := ((56320 <=? c) && (c <=? 57343))%N.

Fixpoint codePoints (s : jsstring) : list jsstring :=
  match s with
  | [] => []
  | c :: rest =>
      match rest with
      | d :: rest' =>
          if isHighSurrogate c && isLowSurrogate d
          then [c; d] :: codePoints rest'
          else [c] :: codePoints rest
      | [] => [[c]]
      end
  end.

(** [...v] in an array literal: arrays and strings are the iterable JSON
    values, the others throw. *)
Definition spread (v : json) : option (list json) :=
  match v with
  | JArray items => Some items
  | JString s => Some (map JString (codePoints s))
  | _ => None
  end.

(** The receiver of [v.map(f)] and [v.filter(f)]: a JSON value other than
    an array has no such method, and the call throws. *)
Definition asArray (v : json) : option (list json) :=
  match v with
  | JArray items => Some items
  | _ => None
  end.

(** [xs.map(f)] and [xs.filter(p)] with a callback that may throw. *)
Fixpoint mapM {A B} (f : A -> option B) (xs : list A) : option (list B) :=
  match xs with
  | [] => Some []
  | x :: rest =>
      let? y := f x in
      let? ys := mapM f rest in
      Some (y :: ys)
  end.

Fixpoint filterM {A} (p : A -> option bool) (xs : list A) : option (list A) :=
  match xs with
  | [] => Some []
  | x :: rest =>
      let? keep := p x in
      let? ys := filterM p rest in
      Some (if keep then x :: ys else ys)
  end.

(** *** The store

    A stored string, by what [JSON.parse] makes of it: the empty string, a
    non-empty string that [JSON.parse] rejects, or a text that it parses
    to the value [v]. The storage may hold any string, so [v] is any
    value; the text that [JSON.stringify] writes for a value parses to
    the image of that value. *)
Inductive text : Type :=
| EmptyText
| Malformed
| JSONText (v : json).

Definition JSON_parse (t : text) : option json :=
  match t with
  | JSONText v => Some v
  | _ => None
  end.

Definition JSON_stringify (v : json) : text := JSONText (jsonImage v).

(** [if (historyJson)] on a string. *)
Definition truthyText (t : text) : bool :=
  match t with
  | EmptyText => false
  | _ => true
  end.

(** [localStorage], as far as the entry [HISTORY_KEY] goes: it may refuse
    every access, or hold the entry or not. *)
Inductive localStorage : Type :=
| Unavailable
| Available (entry : option text).

(** What the service takes from its surroundings.
    - [GameMode_SentenceCheck]: the member that [mergeAndSaveHistory]
      reads from the enum [GameMode], whose declaration lists
      [Translation] and [MultipleChoice] only;
    - [numberToString]: the conversion of a number in a template literal;
    - [fits]: whether the storage quota lets [setItem] write the text of a
      value. *)
Record environment : Type := Environment {
  GameMode_SentenceCheck : jsvalue;
  numberToString : double -> jsstring;
  fits : json -> bool
}.

(** [localStorage.getItem(HISTORY_KEY)]: [Some None] is [null]. *)
Definition getItem (ls : localStorage) : option (option text) :=
  match ls with
  | Unavailable => None
  | Available entry => Some entry
  end.

(** [localStorage.setItem(HISTORY_KEY, JSON.stringify(v))]. *)
Definition setItem (E : environment) (ls : localStorage) (v : json)
  : option localStorage :=
  match ls with
  | Unavailable => None
  | Available _ =>
      if fits E v then Some (Available (Some (JSON_stringify v))) else None
  end.

(** *** The service *)

Definition getHistory (ls : localStorage) : json :=
  match
    (let? historyJson := getItem ls in
     match historyJson with
     | Some t => if truthyText t then
                   let? parsed := JSON_parse t in Some (Some parsed)
                 else Some None
     | None => Some None
     end)
  with
  | Some (Some parsed) => parsed
  | Some None => JArray []
  | None => JArray []
  end.

Definition addHistoryItem (E : environment) (newItem : json)
    (ls : localStorage) : localStorage :=
  match
    (let currentHistory := getHistory ls in
     let? rest := spread currentHistory in
     let newHistory := firstn 100 (newItem :: rest) in
     setItem E ls (JArray newHistory))
  with
  | Some ls' => ls'
  | None => ls
  end.

Definition updateHistoryItem (E : environment) (updatedItem : json)
    (ls : localStorage) : localStorage :=
  match
    (let currentHistory := getHistory ls in
     let? items := asArray currentHistory in
     let? newHistory :=
       mapM (fun item =>
               let? itemId := getProp item (str "id") in
               let? updatedId := getProp updatedItem (str "id") in
               Some (if strictEq itemId updatedId then updatedItem else item))
            items in
     setItem E ls (JArray newHistory))
  with
  | Some ls' => ls'
  | None => ls
  end.

Definition deleteHistoryItem (E : environment) (id : jsstring)
    (ls : localStorage) : localStorage :=
  match
    (let currentHistory := getHistory ls in
     let? items := asArray currentHistory in
     let? newHistory :=
       filterM (fun item =>
                  let? itemId := getProp item (str "id") in
                  Some (negb (strictEq itemId (Some (JString id)))))
               items in
     setItem E ls (JArray newHistory))
  with
  | Some ls' => ls'
  | None => ls
  end.

Definition deleteMultipleHistoryItems (E : environment) (ids : list jsstring)
    (ls : localStorage) : localStorage :=
  match
    (let idsToDelete := ids in
     let currentHistory := getHistory ls in
     let? items := asArray currentHistory in
     let? newHistory :=
       filterM (fun item =>
                  let? itemId := getProp item (str "id") in
                  Some (negb (existsb
                                (fun id => strictEq itemId (Some (JString id)))
                                idsToDelete)))
               items in
     setItem E ls (JArray newHistory))
  with
  | Some ls' => ls'
  | None => ls
  end.

(** The body of the loop of [mergeAndSaveHistory] up to the key: [None]
    when reading the item throws, [Some None] when the item is skipped as
    invalid, and the deduplication key otherwise. *)
Definition itemKey (E : environment) (item : json) : option (option jsstring) :=
  let? gameMode := getProp item (str "gameMode") in
  let? mainSentence :=
    (if strictEq gameMode (GameMode_SentenceCheck E)
     then getProp item (str "userSentence")
     else getProp item (str "chineseSentence")) in
  let? id := getProp item (str "id") in
  let? timestamp := getProp item (str "timestamp") in
  match id, timestamp, mainSentence with
  | Some (JString _), Some (JNumber t), Some (JString sentence) =>
      Some (Some (numberToString E t ++ str "-" ++ sentence))
  | _, _, _ => Some None
  end.

(** [historyMap.has(key)] on a [Map] kept in insertion order. *)
Definition mapHas (key : jsstring) (historyMap : list (jsstring * json)) : bool :=
  existsb (fun entry => if list_eq_dec N.eq_dec (fst entry) key then true else false)
          historyMap.

Fixpoint mergeLoop (E : environment) (combinedHistory : list json)
    (historyMap : list (jsstring * json)) : option (list (jsstring * json)) :=
  match combinedHistory with
  | [] => Some historyMap
  | item :: rest =>
      let? validated := itemKey E item in
      match validated with
      | None => mergeLoop E rest historyMap
      | Some key =>
          if mapHas key historyMap then mergeLoop E rest historyMap
          else mergeLoop E rest (historyMap ++ [(key, item)])
      end
  end.

(** [item.timestamp] of an item that passed the validation. *)
Definition timestampOf (item : json) : double :=
  match getProp item (str "timestamp") with
  | Some (Some (JNumber t)) => t
  | _ => integer 0
  end.

(** [items.sort((a, b) => b.timestamp - a.timestamp)]: the difference of
    two doubles is positive, negative or zero as the first is greater
    than, less than or equal to the second, and that of two equal
    infinities is [NaN], which [sort] takes for zero. The sort is stable,
    so its result is the one of this insertion sort. *)
Fixpoint insertNewestFirst (x : json) (sorted : list json) : list json :=
  match sorted with
  | [] => [x]
  | y :: ys =>
      if numLtb (timestampOf x) (timestampOf y) then y :: insertNewestFirst x ys
      else x :: sorted
  end.

Definition sortNewestFirst (items : list json) : list json :=
  fold_right insertNewestFirst [] items.

(** The [try] block of [mergeAndSaveHistory] on an array. *)
Definition mergeTry (E : environment) (importedHistory : list json)
    (ls : localStorage) : option (localStorage * json) :=
  let currentHistory := getHistory ls in
  let? current := spread currentHistory in
  let combinedHistory := current ++ importedHistory in
  let? historyMap := mergeLoop E combinedHistory [] in
  let mergedHistory := sortNewestFirst (map snd historyMap) in
  let finalHistory := firstn 200 mergedHistory in
  let? ls' := setItem E ls (JArray finalHistory) in
  Some (ls', JArray finalHistory).

(** The new store and the value returned. *)
Definition mergeAndSaveHistory (E : environment) (importedHistory : json)
    (ls : localStorage) : localStorage * json :=
  match importedHistory with
  | JArray imported =>
      match mergeTry E imported ls with
      | Some result => result
      | None => (ls, getHistory ls)
      end
  | _ => (ls, getHistory ls)
  end.

(** *** Sequences of calls *)

Inductive operation : Type :=
| GetHistory
| AddHistoryItem (newItem : json)
| UpdateHistoryItem (updatedItem : json)
| DeleteHistoryItem (id : jsstring)
| DeleteMultipleHistoryItems (ids : list jsstring)
| MergeAndSaveHistory (importedHistory : json).

Definition perform (E : environment) (ls : localStorage) (op : operation)
  : localStorage :=
  match op with
  | GetHistory => ls
  | AddHistoryItem newItem => addHistoryItem E newItem ls
  | UpdateHistoryItem updatedItem => updateHistoryItem E updatedItem ls
  | DeleteHistoryItem id => deleteHistoryItem E id ls
  | DeleteMultipleHistoryItems ids => deleteMultipleHistoryItems E ids ls
  | MergeAndSaveHistory importedHistory =>
      fst (mergeAndSaveHistory E importedHistory ls)
  end.

Definition performAll (E : environment) (ops : list operation)
    (ls : localStorage) : localStorage :=
  fold_left (perform E) ops ls.

(** The empty history store: the storage works and holds no entry. *)
Definition emptyStore : localStorage := Available None.

(** The items of the stored history. *)
Definition storedItems (ls : localStorage) : list json :=
  match getHistory ls with
  | JArray items => items
  | _ => []
  end.

(** *** Notions of the specification *)

(** The first of [items] that the merge loop gives the key [key]. *)
Definition hasKey (E : environment) (key : jsstring) (item : json) : bool :=
  match itemKey E item with
  | Some (Some k) => if list_eq_dec N.eq_dec k key then true else false
  | _ => false
  end.

Definition firstKeyed (E : environment) (key : jsstring) (items : list json)
  : option json :=
  find (hasKey E key) items.

(** [a] may stand before [b] in a history sorted by time stamp, newest
    first. *)
Definition notOlder (a b : json) : Prop :=
  numLtb (timestampOf a) (timestampOf b) = false.

(** The time stamp and the main sentence of an item that passes the
    validation of the merge: the two parts of its key. *)
Definition keyParts (E : environment) (item : json)
  : option (double * jsstring) :=
  let? gameMode := getProp item (str "gameMode") in
  let? mainSentence :=
    (if strictEq gameMode (GameMode_SentenceCheck E)
     then getProp item (str "userSentence")
     else getProp item (str "chineseSentence")) in
  let? id := getProp item (str "id") in
  let? timestamp := getProp item (str "timestamp") in
  match id, timestamp, mainSentence with
  | Some (JString _), Some (JNumber t), Some (JString sentence) =>
      Some (t, sentence)
  | _, _, _ => None
  end.

(** The store is empty or holds what the service wrote for an array of at
    most [n] items. *)
Definition holdsHistory (n : nat) (ls : localStorage) : Prop :=
  ls = Available None \/
  exists items,
    ls = Available (Some (JSON_stringify (JArray items))) /\ length items <= n.

End History.

(* ================================================================= *)
(** ** Sample streams *)

Module StreamExamples.
Import JS Stream.

Definition header : jsstring :=
  str "score: 85" ++ LF :: str "evaluation: good" ++ LF
    :: str "correctedSentence: neko desu".

(** The delimiter is split over three chunks, and occurs a second time in
    the explanation; one chunk has no text and one an empty text. *)
Definition twoDelimiters : list chunk :=
  [ Some (header ++ LF :: str "--");
    None;
    Some (str "- ");
    Some (LF :: str "first" ++ LF :: str "--- ");
    Some [];
    Some (LF :: str "second") ].

(** The same text in one chunk. *)
Definition oneChunk : list chunk := [ Some (textOf twoDelimiters) ].

(** No delimiter: two lines follow the line of the corrected sentence. *)
Definition undelimited : list chunk :=
  [ Some (header ++ LF :: str " line a "); Some (LF :: str "line b" ++ [LF]) ].

(** A header whose evaluation line is left empty by the model. *)
Definition emptyEvaluationHeader : jsstring :=
  str "score: 90" ++ LF :: str "evaluation:" ++ LF
    :: str "correctedSentence: neko".

Definition emptyEvaluation : list chunk :=
  [ Some (emptyEvaluationHeader ++ separator ++ str "ok") ].

End StreamExamples.

(* ================================================================= *)
(** ** Sample histories *)

Module HistoryExamples.
Import JS History.

(** Integers print in decimal. *)
Definition decimal (n : Z) : jsstring :=
  str (NilEmpty.string_of_int (Z.to_int n)).

(** The conversion of a number to a string, for the numbers of the
    samples: the integers and the numbers that are not finite. A number
    with a fraction, which no sample holds, is shown as a quotient. *)
Definition numberText (x : double) : jsstring :=
  match x with
  | Value q =>
      match QArith_base.Qden q with
      | 1%positive => decimal (QArith_base.Qnum q)
      | d => decimal (QArith_base.Qnum q) ++ str "/" ++ decimal (Zpos d)
      end
  | NegativeZero => str "0"
  | PositiveInfinity => str "Infinity"
  | NegativeInfinity => str "-Infinity"
  end.

(** A browser whose storage takes every write; [GameMode.SentenceCheck]
    is [undefined], as the declared enum has no such member. *)
Definition browser : environment :=
  {| GameMode_SentenceCheck := None;
     numberToString := numberText;
     fits := fun _ => true |}.

(** The same browser with its storage quota used up. *)
Definition fullStorage : environment :=
  {| GameMode_SentenceCheck := None;
     numberToString := numberText;
     fits := fun _ => false |}.

(** A translation item, with the properties that the service reads. *)
Definition translationItem (id : jsstring) (timestamp : Z)
    (chineseSentence : jsstring) : json :=
  JObject [ (str "id", JString id);
            (str "timestamp", JNumber (integer timestamp));
            (str "gameMode", JString (str "TRANSLATION"));
            (str "chineseSentence", JString chineseSentence);
            (str "userSentence", JString (str "neko desu")) ].

Definition numbered (n : nat) : json :=
  translationItem (str "n" ++ decimal (Z.of_nat n)) (Z.of_nat n) (str "bun").

(** An old stored item, and an imported item with the same time stamp and
    sentence but another id. *)
Definition old : json := translationItem (str "old") 0 (str "inu").
Definition copy : json := translationItem (str "copy") 0 (str "inu").

Definition oldStore : localStorage :=
  Available (Some (JSON_stringify (JArray [old]))).

(** An item whose time stamp is beyond the doubles, such as the literal
    [1e999] in an imported file: [JSON.parse] makes an infinity of it. *)
Definition eternal : json :=
  JObject [ (str "id", JString (str "eternal"));
            (str "timestamp", JNumber PositiveInfinity);
            (str "gameMode", JString (str "TRANSLATION"));
            (str "chineseSentence", JString (str "tori"));
            (str "userSentence", JString (str "neko desu")) ].

(** The same item as it is read back from the store. *)
Definition eternalStored : json :=
  JObject [ (str "id", JString (str "eternal"));
            (str "timestamp", JNull);
            (str "gameMode", JString (str "TRANSLATION"));
            (str "chineseSentence", JString (str "tori"));
            (str "userSentence", JString (str "neko desu")) ].

(** Two hundred newer items. *)
Definition newer : list json := map numbered (seq 1 200).

(** A small import: the copy of the old item and two newer items. *)
Definition smallImport : list json := [copy; numbered 1; numbered 2].

(** [item.id === id]. *)
Definition hasId (id : jsstring) (item : json) : bool :=
  match getProp item (str "id") with
  | Some itemId => strictEq itemId (Some (JString id))
  | None => false
  end.

End HistoryExamples.

(* ================================================================= *)
(** ** The answer format of the prompt *)

Module StreamFormat.
Import JS Stream.

(** The header that the prompt of [evaluateSentenceStream] asks for: three
    labelled lines, each label followed by one space. *)
Definition formattedHeader (digits evaluationText corrected : jsstring) : jsstring :=
  str "score: " ++ digits ++ LF :: str "evaluation: " ++ evaluationText
    ++ LF :: str "correctedSentence: " ++ corrected.

(** A text without line terminator, and a text with a unit that is not
    white space. *)
Definition oneLine (s : jsstring) : bool := forallb isDot s.

Definition hasText (s : jsstring) : bool :=
  existsb (fun c => negb (isSpace c)) s.

(** Chunks without any text: [undefined] and empty texts. *)
Definition silent : list chunk := [None; Some []; None].

(** A formatted answer cut in the middle of the header and of the
    delimiter. *)
Definition formattedChunks : list chunk :=
  [ Some (str "score: 85" ++ LF :: str "evalu");
    Some (str "ation: good" ++ LF :: str "correctedSentence: neko desu" ++ LF :: str "--");
    Some (str "- " ++ LF :: str "well ");
    Some (str "done") ].

End StreamFormat.

(* ================================================================= *)
(** ** Further notions on histories *)

Module HistoryNotions.
Import JS History.

(** The key that the merge loop gives to a valid item. *)
Definition keyOf (E : environment) (item : json) : jsstring :=
  match itemKey E item with
  | Some (Some key) => key
  | _ => []
  end.

(** [item.id === id] for a string [id]. *)
Definition hasId (id : jsstring) (item : json) : bool :=
  match getProp item (str "id") with
  | Some itemId => strictEq itemId (Some (JString id))
  | None => false
  end.

(** Sequences of calls without a merge. *)
Definition isMerge (op : operation) : bool :=
  match op with
  | MergeAndSaveHistory _ => true
  | _ => false
  end.

Definition mergeFree (ops : list operation) : bool :=
  forallb (fun op => negb (isMerge op)) ops.

(** A storage that takes every write. *)
Definition unlimited (E : environment) : Prop := forall v, fits E v = true.

(** An array without [null] element. *)
Definition noNull (items : list json) : Prop :=
  Forall (fun item => item <> JNull) items.

(** A value that [JSON.stringify] writes as it is, so that [JSON.parse]
    gives it back: it holds no infinite number and no negative zero.
    Every value that the service has written and reads again is such a
    value. *)
Definition writtenAsIs (v : json) : Prop := jsonImage v = v.

End HistoryNotions.

(* ================================================================= *)
(** ** More sample histories *)

Module HistorySamples.
Import JS History HistoryExamples.

(** The [id] of [numbered n]. *)
Definition idOf (n : nat) : jsstring := str "n" ++ decimal (Z.of_nat n).

(** A store with two items. *)
Definition twoItems : list json := [numbered 2; numbered 1].

Definition twoStore : localStorage :=
  Available (Some (JSON_stringify (JArray twoItems))).

(** A new version of [numbered 1], and an item with an id of its own. *)
Definition revised : json := translationItem (idOf 1) 1 (str "kome").

Definition third : json := numbered 3.

End HistorySamples.

(* ================================================================= *)
(** ** The task services of geminiService *)

Module Gemini.
Import JS.

(** *** [parseJsonResponse]

    The pattern of the [replace] call has two alternatives and the [g]
    flag: the opening fence with its language tag and the white space
    after it, at index 0 only (no [m] flag), and three backticks followed
    by nothing but white space up to the end of the string. *)
Definition fenceOpen : jsstring := str "```json".
Definition fenceClose : jsstring := str "```".

(** The second alternative at one position. Its greedy [\s*] has to reach
    the end of the string. *)
Definition closingFenceAt (s : jsstring) : bool :=
  match stripPrefix fenceClose s with
  | Some rest => forallb isSpace rest
  | None => false
  end.

(** The search for the second alternative, position by position; a match
    runs to the end of the string, so nothing is left after it. *)
Fixpoint removeClosingFence (s : jsstring) : jsstring :=
  if closingFenceAt s then []
  else match s with
       | [] => []
       | c :: s' => c :: removeClosingFence s'
       end.

(** [jsonString.replace(pattern, '')]: at index 0 the first alternative is
    tried first; the search goes on after its match, where only the
    second alternative can match. *)
Definition removeFences (jsonString : jsstring) : jsstring :=
  match stripPrefix fenceOpen jsonString with
  | Some rest => removeClosingFence (dropWhile isSpace rest)
  | None => removeClosingFence jsonString
  end.

Definition invalidJsonMessage : jsstring :=
  str "Received an invalid JSON response from the AI.".

(** [JSON_parse] is [JSON.parse], [None] when it throws; the result is the
    parsed value or the message of the [Error] thrown instead. *)
Definition parseJsonResponse {T} (JSON_parse : jsstring -> option T)
    (jsonString : jsstring) : T + jsstring :=
  let cleanedString := trim (removeFences jsonString) in
  match JSON_parse cleanedString with
  | Some parsed => inl parsed
  | None => inr invalidJsonMessage
  end.

(** *** The grammar library and its cache *)

Inductive Difficulty : Type := N5 | N4 | N3 | N2 | N1.

Definition sameLevel (a b : Difficulty) : bool :=
  match a, b with
  | N5, N5 | N4, N4 | N3, N3 | N2, N2 | N1, N1 => true
  | _, _ => false
  end.

Record GrammarPoint : Type := {
  level : Difficulty;
  grammar_point : jsstring;
  meaning_cn : jsstring;
  usage : jsstring;
  example_ja : jsstring;
  example_cn : jsstring;
  note : jsstring
}.

(** What the request for the library file comes to: [fetch] rejects, the
    response is not [ok], reading its body as JSON rejects, or the body
    is an array of grammar points. *)
Inductive fetched : Type :=
| FetchRejected
| ResponseNotOk
| BodyRejected
| Body (data : list GrammarPoint).

(** [loadGrammarData], on the module variable [allGrammarPoints]: the new
    value of the variable, and whether the call returns or throws. *)
Definition loadGrammarData (net : fetched) (allGrammarPoints : list GrammarPoint)
  : list GrammarPoint * Stream.outcome unit :=
  if 0 <? length allGrammarPoints then (allGrammarPoints, Stream.Returned tt)
  else match net with
       | Body data => (data, Stream.Returned tt)
       | _ => ([], Stream.Thrown)
       end.

Definition getGrammarPoints (net : fetched) (allGrammarPoints : list GrammarPoint)
  : list GrammarPoint * Stream.outcome (list GrammarPoint) :=
  match loadGrammarData net allGrammarPoints with
  | (loaded, Stream.Returned _) => (loaded, Stream.Returned loaded)
  | (loaded, Stream.Thrown) => (loaded, Stream.Thrown)
  end.

(** Successive calls of [getGrammarPoints], one network outcome for each:
    what the calls return. *)
Fixpoint serve (nets : list fetched) (allGrammarPoints : list GrammarPoint)
  : list (Stream.outcome (list GrammarPoint)) :=
  match nets with
  | [] => []
  | net :: rest =>
      let (loaded, result) := getGrammarPoints net allGrammarPoints in
      result :: serve rest loaded
  end.

(** What a call gives while no point is cached. *)
Definition uncached (net : fetched) : Stream.outcome (list GrammarPoint) :=
  match net with
  | Body data => Stream.Returned data
  | _ => Stream.Thrown
  end.

Definition emptyHanded (net : fetched) : Prop :=
  forall data, net = Body data -> data = [].

(** *** [generateSentenceTask] *)

(** The answer of the model: the request rejects, or there is a response,
    whose [text] is a string or [undefined]. *)
Inductive apiAnswer : Type :=
| ApiRejected
| ApiResponse (text : option jsstring).

(** [draw] is the value of [Math.floor(Math.random() * n)] for the number
    [n] of relevant points: the index read in [relevantGrammar], reading
    beyond the array being [undefined]. The prompt sent to the model is
    not part of the result and is left out. *)
Definition generateSentenceTask {T} (JSON_parse : jsstring -> option T)
    (difficulty : Difficulty) (net : fetched) (draw : nat) (api : apiAnswer)
    (allGrammarPoints : list GrammarPoint)
  : list GrammarPoint * Stream.outcome (T * option GrammarPoint) :=
  match loadGrammarData net allGrammarPoints with
  | (loaded, Stream.Thrown) => (loaded, Stream.Thrown)
  | (loaded, Stream.Returned _) =>
      let relevantGrammar :=
        filter (fun p => sameLevel (level p) difficulty) loaded in
      let grammarPoint :=
        if 0 <? length relevantGrammar then nth_error relevantGrammar draw
        else None in
      match api with
      | ApiRejected => (loaded, Stream.Thrown)
      | ApiResponse None => (loaded, Stream.Thrown)
      | ApiResponse (Some text) =>
          let jsonText := trim text in
          match parseJsonResponse JSON_parse jsonText with
          | inl task => (loaded, Stream.Returned (task, grammarPoint))
          | inr _ => (loaded, Stream.Thrown)
          end
      end
  end.

(** *** Samples *)

Definition point (l : Difficulty) (name : jsstring) : GrammarPoint :=
  {| level := l; grammar_point := name; meaning_cn := []; usage := [];
     example_ja := []; example_cn := []; note := [] |}.

Definition library : list GrammarPoint :=
  [ point N5 (str "desu"); point N3 (str "uchi ni"); point N3 (str "you ni") ].

(** A toy [JSON.parse] for the samples: it accepts the text of one
    object with the key [chineseSentence] and returns the sentence. *)
Definition parseSentence (s : jsstring) : option jsstring :=
  match stripPrefix (123%N :: 34%N :: str "chineseSentence" ++ [34; 58; 34]%N) s with
  | Some rest =>
      match rev rest with
      | 125%N :: 34%N :: body => Some (rev body)
      | _ => None
      end
  | None => None
  end.

End Gemini.

(* ================================================================= *)
(** ** The audio decoding helpers of geminiService *)

Module Audio.
Import JS.

(** The elements of a [Uint8Array]: a number is stored modulo 256. *)
Definition toUint8 (c : N) : N := (c mod 256)%N.

(** A [Uint8Array]: a view of [length] bytes of an [ArrayBuffer], from
    [byteOffset] on. [buffer] holds all the bytes of the [ArrayBuffer]. *)
Record Uint8Array : Type := {
  buffer : list N;
  byteOffset : nat;
  byteLength : nat
}.

(** The elements of the view. *)
Definition elements (data : Uint8Array) : list N :=
  firstn (byteLength data) (skipn (byteOffset data) (buffer data)).

(** [decode]: [atob] is the browser's function, [None] when it throws.
    [new Uint8Array(len)] makes an [ArrayBuffer] of its own, of [len]
    bytes, and each unit of the binary string is stored in a byte. *)
Definition decode (atob : jsstring -> option jsstring) (base64 : jsstring)
  : option Uint8Array :=
  match atob base64 with
  | Some binaryString =>
      let len := length binaryString in
      Some {| buffer := map toUint8 binaryString;
              byteOffset := 0;
              byteLength := len |}
  | None => None
  end.

(** An element of an [Int16Array] over two bytes of the buffer, low byte
    first (the byte order of the platforms that browsers run on). *)
Definition toInt16 (lo hi : N) : Z :=
  let u := (Z.of_N (toUint8 lo) + 256 * Z.of_N (toUint8 hi))%Z in
  if (u <? 32768)%Z then u else (u - 65536)%Z.

(** [new Int16Array(buffer)] on the bytes of an [ArrayBuffer]: a view of
    the whole of it, and a [RangeError] when the number of its bytes is
    odd. *)
Fixpoint int16View (bytes : list N) : option (list Z) :=
  match bytes with
  | [] => Some []
  | [_] => None
  | lo :: hi :: rest =>
      match int16View rest with
      | Some values => Some (toInt16 lo hi :: values)
      | None => None
      end
  end.

(** [v / 32768.0], stored in a [Float32Array]: the quotient of a 16-bit
    integer by a power of two is a float as it is, so the sample is the
    rational number itself. *)
Definition sample (v : Z) : QArith_base.Q := QArith_base.Qmake v 32768.

(** What the audio context makes of [createBuffer(numberOfChannels,
    length, sampleRate)]: it throws on the arguments it does not
    support. *)
Record AudioContext : Type := {
  createBufferAccepts : nat -> nat -> Z -> bool
}.

(** [decodeAudioData]: the channels of the audio buffer. The 16-bit view
    is made of [data.buffer], all the bytes that [data] is a view of,
    whatever part of them [data] shows. [frameCount] is a quotient that
    may have a fraction; [createBuffer] takes its integer part as the
    length, and the one write beyond that length, on a typed array, does
    nothing. *)
Definition decodeAudioData (ctx : AudioContext) (data : Uint8Array)
    (sampleRate : Z) (numChannels : nat) : option (list (list QArith_base.Q)) :=
  match int16View (buffer data) with
  | None => None
  | Some dataInt16 =>
      let frameCount := length dataInt16 / numChannels in
      if createBufferAccepts ctx numChannels frameCount sampleRate then
        Some (map (fun channel =>
                     map (fun i =>
                            sample (nth (i * numChannels + channel) dataInt16 0%Z))
                         (seq 0 frameCount))
                  (seq 0 numChannels))
      else None
  end.

(** The frames of an audio buffer, one after the other, each with its
    samples in the order of the channels. *)
Definition interleave (frameCount : nat)
    (audioBuffer : list (list QArith_base.Q)) : list QArith_base.Q :=
  flat_map (fun i =>
              map (fun channelData => nth i channelData (sample 0)) audioBuffer)
           (seq 0 frameCount).

(** A context that supports from one to 32 channels and a positive
    length. *)
Definition usualContext : AudioContext :=
  {| createBufferAccepts := fun channels frames _ =>
       (0 <? channels) && (channels <=? 32) && (0 <? frames) |}.

(** The whole of a buffer. *)
Definition whole (bytes : list N) : Uint8Array :=
  {| buffer := bytes; byteOffset := 0; byteLength := length bytes |}.

(** Two stereo frames and one more sample. *)
Definition stereoBytes : list N := [0; 128; 255; 127; 1; 0; 255; 255; 7; 0]%N.

(** Three bytes of a buffer of four. *)
Definition threeOfFour : Uint8Array :=
  {| buffer := [1; 2; 3; 4]%N; byteOffset := 0; byteLength := 3 |}.

End Audio.

(* ================================================================= *)
(** ** The handlers of App and of the practice screens *)

Module App.
Import JS History.

(** The part of the state of [App] that the history handlers touch: the
    storage that the service writes, and the state variable [history]
    that the history screen shows. *)
Record state : Type := State {
  store : localStorage;
  history : json
}.

(** The effect on first render: [setHistory(getHistory())]. *)
Definition initial (ls : localStorage) : state :=
  {| store := ls; history := getHistory ls |}.

(** The handlers call the service, which catches its own exceptions, and
    then update [history] from its previous value; [None] when that
    update throws. *)
Definition handleImportHistory (E : environment) (importedData : json)
    (st : state) : option state :=
  let (ls', mergedHistory) := mergeAndSaveHistory E importedData (store st) in
  Some {| store := ls'; history := mergedHistory |}.

Definition handleDeleteHistoryItem (E : environment) (id : jsstring)
    (st : state) : option state :=
  let ls' := deleteHistoryItem E id (store st) in
  let? prev := asArray (history st) in
  let? kept :=
    filterM (fun item =>
               let? itemId := getProp item (str "id") in
               Some (negb (strictEq itemId (Some (JString id)))))
            prev in
  Some {| store := ls'; history := JArray kept |}.

Definition handleDeleteMultipleHistoryItems (E : environment)
    (ids : list jsstring) (st : state) : option state :=
  let ls' := deleteMultipleHistoryItems E ids (store st) in
  let idsToDelete := ids in
  let? prev := asArray (history st) in
  let? kept :=
    filterM (fun item =>
               let? itemId := getProp item (str "id") in
               Some (negb (existsb
                             (fun id => strictEq itemId (Some (JString id)))
                             idsToDelete)))
            prev in
  Some {| store := ls'; history := JArray kept |}.

Definition handleUpdateHistoryItem (E : environment) (updatedItem : json)
    (st : state) : option state :=
  let ls' := updateHistoryItem E updatedItem (store st) in
  let? prev := asArray (history st) in
  let? items :=
    mapM (fun item =>
            let? itemId := getProp item (str "id") in
            let? updatedId := getProp updatedItem (str "id") in
            Some (if strictEq itemId updatedId then updatedItem else item))
         prev in
  Some {| store := ls'; history := JArray items |}.


(** The screen shows what the store holds. *)
Definition inSync (st : state) : Prop := getHistory (store st) = history st.

(** The store holds the history on the screen as [JSON.stringify] writes
    it: what the screen shows but for its infinite numbers, which are
    stored as [null], and for negative zero, stored as [0]. *)
Definition storedAsWritten (st : state) : Prop :=
  getHistory (store st) = jsonImage (history st).

(** [handleSubmit] of the practice screen and of the sentence check
    screen: the calls of [onCheck] that it makes. *)
Definition handleSubmit (sentence : jsstring) : list jsstring :=
  if truthy (trim sentence) then [trim sentence] else [].

End App.

(* ================================================================= *)
(** ** The feedback screen: what becomes of the calls of the stream *)

Module FeedbackDisplay.
Import JS Stream.

(** [Feedback], the first argument of [onComplete]. *)
Record Feedback : Type := {
  score : number;
  evaluation : jsstring;
  correctedSentence : jsstring;
  explanation : jsstring
}.

(** [feedbackRef.current], a [Partial<Feedback>]: each property may be
    [undefined]. *)
Record PartialFeedback : Type := {
  refExplanation : option jsstring;
  refScore : option number;
  refEvaluation : option jsstring;
  refCorrectedSentence : option jsstring
}.

(** The reset of the ref before [streamEvaluation] is called. *)
Definition initialRef : PartialFeedback :=
  {| refExplanation := Some [];
     refScore := None;
     refEvaluation := Some [];
     refCorrectedSentence := None |}.

(** [s || ''] on a string or [undefined]. *)
Definition orEmpty (s : option jsstring) : jsstring :=
  match s with
  | Some t => t
  | None => []
  end.

(** A call of [onComplete]: the feedback and the audio, [None] for
    [null]. *)
Definition completion : Type := (Feedback * option jsstring)%type.

(** The callback passed as [onStreamEnd], on the ref. [generateSpeech]
    gives the audio or [null], or rejects ([None]); the callback then
    throws before it has called [onComplete]. *)
Definition streamEnd (generateSpeech : jsstring -> option (option jsstring))
    (ref : PartialFeedback) : option completion :=
  match
    match refCorrectedSentence ref with
    | Some corrected =>
        if truthy corrected then generateSpeech corrected else Some None
    | None => Some None
    end
  with
  | Some audio =>
      Some ({| score := match refScore ref with
                        | Some n => n
                        | None => Finite 0
                        end;
               evaluation := match refEvaluation ref with
                             | Some e => e
                             | None => defaultEvaluation
                             end;
               correctedSentence := match refCorrectedSentence ref with
                                    | Some c => c
                                    | None => defaultCorrectedSentence
                                    end;
               explanation := match refExplanation ref with
                              | Some e => e
                              | None => []
                              end |},
            audio)
  | None => None
  end.

(** The three callbacks on the calls that [evaluateSentenceStream] makes,
    in their order: the ref, the calls of [onComplete] made so far, and
    [true] when a callback has thrown, which ends the stream function. *)
Fixpoint deliver (generateSpeech : jsstring -> option (option jsstring))
    (log : list event) (ref : PartialFeedback) (completed : list completion)
  : list completion * bool :=
  match log with
  | [] => (completed, false)
  | OnStructuredData structuredData :: rest =>
      deliver generateSpeech rest
        {| refExplanation := refExplanation ref;
           refScore := Some (Stream.score structuredData);
           refEvaluation := Some (Stream.evaluation structuredData);
           refCorrectedSentence :=
             Some (Stream.correctedSentence structuredData) |}
        completed
  | OnExplanationChunk explanationChunk :: rest =>
      deliver generateSpeech rest
        {| refExplanation :=
             Some (orEmpty (refExplanation ref) ++ explanationChunk);
           refScore := refScore ref;
           refEvaluation := refEvaluation ref;
           refCorrectedSentence := refCorrectedSentence ref |}
        completed
  | OnStreamEnd :: rest =>
      match streamEnd generateSpeech ref with
      | Some done => deliver generateSpeech rest ref (completed ++ [done])
      | None => (completed, true)
      end
  end.

(** The feedback of the [catch] block. *)
Definition errorFeedback : Feedback :=
  {| score := Finite 0;
     evaluation := str "Error";
     correctedSentence := str "(Error)";
     explanation := [25265; 27465; 65292; 20998; 26512; 26102; 20986; 29616;
                     38169; 35823; 65292; 35831; 37325; 35797; 12290]%N |}.

(** [streamEvaluation]: the calls of [onComplete]. The stream function
    catches what the stream throws, so the [catch] block here is reached
    from a callback only, and of the callbacks only the last can throw. *)
Definition streamEvaluation
    (generateSpeech : jsstring -> option (option jsstring)) (s : stream)
  : list completion :=
  match deliver generateSpeech (calls_of s) initialRef [] with
  | (completed, false) => completed
  | (completed, true) => completed ++ [(errorFeedback, None)]
  end.

End FeedbackDisplay.

(* ================================================================= *)
(** ** The history screen: importing a file *)

Module HistoryScreen.
Import JS History.

(** The two messages of [handleFileImport]: the one after the call of
    [onImportHistory], and the one of its [catch] block. *)
Inductive alert : Type :=
| ImportComplete
| FailedToImport.

(** [reader.onload] of [handleFileImport] on the text of the file, with
    [App]'s [handleImportHistory] as [onImportHistory]: the state of
    [App] and the message shown. *)
Definition handleFileImport (E : environment) (fileText : text)
    (st : App.state) : App.state * alert :=
  match
    (let? data := JSON_parse fileText in
     match data with
     | JArray _ =>
         let? st' := App.handleImportHistory E data st in
         Some (st', ImportComplete)
     | _ => None
     end)
  with
  | Some result => result
  | None => (st, FailedToImport)
  end.

End HistoryScreen.

(* ================================================================= *)
(** ** Facts on strings *)

Import JS.

Section Prefixes.

Lemma stripPrefix_app (p r : jsstring) : stripPrefix p (p ++ r) = Some r.
Proof.
  induction p as [|a p IH]; simpl; [reflexivity|].
  now rewrite N.eqb_refl.
Qed.

Lemma stripPrefix_Some (p s r : jsstring) :
  stripPrefix p s = Some r -> s = p ++ r.
Proof.
  revert s; induction p as [|a p IH]; intros s H.
  - simpl in H. now inversion H.
  - destruct s as [|c s]; simpl in H; [discriminate|].
    destruct (N.eqb_spec a c) as [->|]; [|discriminate].
    simpl. f_equal. now apply IH.
Qed.

Lemma startsWith_true (p s : jsstring) :
  startsWith p s = true <-> exists r, s = p ++ r.
Proof.
  unfold startsWith. split.
  - destruct (stripPrefix p s) as [r|] eqn:E; [|discriminate].
    intros _. exists r. now apply stripPrefix_Some.
  - intros [r ->]. now rewrite stripPrefix_app.
Qed.

Lemma startsWith_length (p s : jsstring) :
  startsWith p s = true -> length p <= length s.
Proof.
  intros H. apply startsWith_true in H as [r ->].
  rewrite length_app. lia.
Qed.

Lemma startsWith_app (p s t : jsstring) :
  startsWith p s = true -> startsWith p (s ++ t) = true.
Proof.
  intros H. apply startsWith_true in H as [r ->].
  apply startsWith_true. exists (r ++ t). now rewrite app_assoc.
Qed.

Lemma startsWith_app_false (p s t : jsstring) :
  startsWith p s = false -> length p <= length s ->
  startsWith p (s ++ t) = false.
Proof.
  unfold startsWith. revert s.
  induction p as [|a p IH]; intros s H L; [discriminate|].
  destruct s as [|c s]; simpl in *; [lia|].
  destruct (a =? c)%N; [|reflexivity].
  apply IH; [assumption|lia].
Qed.

End Prefixes.

Section IndexOf.

Variable sep : jsstring.

Lemma indexOfFrom_unfold (s : jsstring) (k : nat) :
  indexOfFrom sep s k =
  if startsWith sep s then Some k
  else match s with
       | [] => None
       | _ :: s' => indexOfFrom sep s' (S k)
       end.
Proof. destruct s; reflexivity. Qed.

Lemma indexOfFrom_bound (s : jsstring) (k i : nat) :
  indexOfFrom sep s k = Some i -> k <= i /\ (i - k) + length sep <= length s.
Proof.
  revert k; induction s as [|c s IH]; intros k H;
    rewrite indexOfFrom_unfold in H;
    destruct (startsWith sep _) eqn:E.
  - inversion H; subst. apply startsWith_length in E. lia.
  - discriminate.
  - inversion H; subst. apply startsWith_length in E. lia.
  - apply IH in H. simpl. lia.
Qed.

Lemma indexOfFrom_app (s t : jsstring) (k i : nat) :
  indexOfFrom sep s k = Some i -> indexOfFrom sep (s ++ t) k = Some i.
Proof.
  revert k; induction s as [|c s IH]; intros k H;
    rewrite indexOfFrom_unfold in H;
    destruct (startsWith sep _) eqn:E; try discriminate.
  - rewrite indexOfFrom_unfold, (startsWith_app _ _ t E). exact H.
  - rewrite indexOfFrom_unfold, (startsWith_app _ _ t E). exact H.
  - rewrite indexOfFrom_unfold.
    pose proof (indexOfFrom_bound _ _ H) as [_ B].
    rewrite startsWith_app_false; [|assumption|simpl; lia].
    simpl. now apply IH.
Qed.

(** [indexOf] finds the first occurrence, and only that. *)
Lemma indexOfFrom_first (s : jsstring) (k i : nat) :
  indexOfFrom sep s k = Some i <->
  exists j, i = k + j /\ firstOccurrence sep s j.
Proof.
  revert k i; induction s as [|c s IH]; intros k i;
    rewrite indexOfFrom_unfold;
    destruct (startsWith sep _) eqn:E.
  - split.
    + intros H; inversion H; subst. exists 0. split; [lia|].
      split; [exact E|intros j Hj; lia].
    + intros (j & -> & Hocc & Hmin).
      destruct j; [f_equal; lia|].
      specialize (Hmin 0 ltac:(lia)). simpl in Hmin. congruence.
  - split; [discriminate|].
    intros (j & -> & Hocc & Hmin). unfold occursAt in Hocc.
    destruct j; simpl in Hocc; congruence.
  - split.
    + intros H; inversion H; subst. exists 0. split; [lia|].
      split; [exact E|intros j Hj; lia].
    + intros (j & -> & Hocc & Hmin).
      destruct j; [f_equal; lia|].
      specialize (Hmin 0 ltac:(lia)). simpl in Hmin. congruence.
  - rewrite IH. split.
    + intros (j & -> & Hocc & Hmin). exists (S j). split; [lia|].
      split; [exact Hocc|].
      intros [|j'] Hj; [exact E|]. apply Hmin. lia.
    + intros (j & -> & Hocc & Hmin).
      destruct j as [|j]; [unfold occursAt in Hocc; simpl in Hocc; congruence|].
      exists j. split; [lia|]. split; [exact Hocc|].
      intros j' Hj. apply (Hmin (S j')). lia.
Qed.

Lemma indexOf_first (s : jsstring) (i : nat) :
  indexOf sep s = Some i <-> firstOccurrence sep s i.
Proof.
  unfold indexOf. rewrite indexOfFrom_first. split.
  - intros (j & -> & H). exact H.
  - intros H. now exists i.
Qed.

Lemma indexOf_bound (s : jsstring) (i : nat) :
  indexOf sep s = Some i -> i + length sep <= length s.
Proof. intros H. apply indexOfFrom_bound in H. lia. Qed.

Lemma indexOf_app (s t : jsstring) (i : nat) :
  indexOf sep s = Some i -> indexOf sep (s ++ t) = Some i.
Proof. apply indexOfFrom_app. Qed.

(** The text splits around the occurrence found. *)
Lemma indexOf_split (s : jsstring) (i : nat) :
  indexOf sep s = Some i ->
  s = substring s 0 i ++ sep ++ substringFrom s (i + length sep).
Proof.
  intros H. pose proof (indexOf_bound _ H) as B.
  apply indexOf_first in H as [Hocc _].
  apply startsWith_true in Hocc as [r Hr].
  unfold substring, substringFrom. rewrite Nat.sub_0_r. simpl.
  rewrite <- (firstn_skipn i s) at 1. f_equal.
  rewrite Nat.add_comm, <- skipn_skipn, Hr.
  f_equal. rewrite skipn_app, Nat.sub_diag, skipn_all. reflexivity.
Qed.

End IndexOf.

(* ================================================================= *)
(** ** The streaming parser: the loop *)

Import Stream.

(** The structured call at the head of a log, as a log of its own. *)
Ltac structured_call_apart :=
  change (OnStructuredData ?d :: ?l) with ([OnStructuredData d] ++ l).

Section Observations.

Lemma structuredCalls_app (l1 l2 : list event) :
  structuredCalls (l1 ++ l2) = structuredCalls l1 ++ structuredCalls l2.
Proof. apply flat_map_app. Qed.

Lemma explanationChunks_app (l1 l2 : list event) :
  explanationChunks (l1 ++ l2) = explanationChunks l1 ++ explanationChunks l2.
Proof. apply flat_map_app. Qed.

Lemma explanationText_app (l1 l2 : list event) :
  explanationText (l1 ++ l2) = explanationText l1 ++ explanationText l2.
Proof.
  unfold explanationText. now rewrite explanationChunks_app, concat_app.
Qed.

Lemma streamEnds_app (l1 l2 : list event) :
  streamEnds (l1 ++ l2) = streamEnds l1 + streamEnds l2.
Proof. unfold streamEnds. now rewrite filter_app, length_app. Qed.

Lemma structuredCalls_chunks (es : list jsstring) :
  structuredCalls (map OnExplanationChunk es) = [].
Proof. induction es; simpl; auto. Qed.

Lemma explanationChunks_chunks (es : list jsstring) :
  explanationChunks (map OnExplanationChunk es) = es.
Proof. induction es; simpl; congruence. Qed.

Lemma streamEnds_chunks (es : list jsstring) :
  streamEnds (map OnExplanationChunk es) = 0.
Proof. induction es; simpl; auto. Qed.

Lemma concat_nonEmptyTexts (cs : list chunk) :
  concat (nonEmptyTexts cs) = textOf cs.
Proof.
  induction cs as [|[t|] cs IH]; simpl; auto.
  unfold nonEmptyTexts, textOf in *. simpl.
  destruct t; simpl; [exact IH|]. now rewrite IH.
Qed.

Lemma nonEmptyTexts_cons (c : chunk) (cs : list chunk) :
  nonEmptyTexts (c :: cs) =
  match c with
  | Some t => if truthy t then [t] else []
  | None => []
  end ++ nonEmptyTexts cs.
Proof. reflexivity. Qed.

Lemma nonEmptyTexts_truthy (cs : list chunk) :
  Forall (fun t => truthy t = true) (nonEmptyTexts cs).
Proof.
  induction cs as [|[t|] cs IH]; simpl; auto.
  destruct (truthy t) eqn:E; simpl; auto.
Qed.

End Observations.

Section LoopBody.

Variables (st : loop_state) (log : list event).

Lemma loop_body_skip (c : chunk) :
  c = None \/ c = Some [] -> loop_body st c log = (log, Returned st).
Proof. intros [->| ->]; reflexivity. Qed.

Lemma loop_body_parsed (t : jsstring) :
  headersParsed st = true -> truthy t = true ->
  loop_body st (Some t) log = (log ++ [OnExplanationChunk t], Returned st).
Proof. intros Hp Et. unfold loop_body. rewrite Et, Hp. reflexivity. Qed.

Lemma loop_body_more (t : jsstring) :
  headersParsed st = false -> truthy t = true ->
  indexOf separator (buffer st ++ t) = None ->
  loop_body st (Some t) log =
  (log, Returned {| buffer := buffer st ++ t; headersParsed := false |}).
Proof. intros Hp Et Ei. unfold loop_body. rewrite Et, Hp, Ei. reflexivity. Qed.

Lemma loop_body_found (t : jsstring) (i : nat) :
  headersParsed st = false -> truthy t = true ->
  indexOf separator (buffer st ++ t) = Some i ->
  let firstChunk := substringFrom (buffer st ++ t) (i + length separator) in
  loop_body st (Some t) log =
  (log ++ OnStructuredData (parseFields (substring (buffer st ++ t) 0 i))
       :: (if truthy firstChunk then [OnExplanationChunk firstChunk] else []),
   Returned {| buffer := buffer st ++ t; headersParsed := true |}).
Proof.
  intros Hp Et Ei firstChunk. unfold loop_body. rewrite Et, Hp, Ei.
  fold firstChunk. unfold bind, onStructuredData, onExplanationChunk, call, ret.
  destruct (truthy firstChunk); rewrite <- ?app_assoc; reflexivity.
Qed.

End LoopBody.

Section Loop.

Variable fin : ending.

Lemma for_await_cons {S} (body : S -> chunk -> Eff S) (c : chunk)
    (cs : list chunk) (st : S) (log : list event) :
  for_await body (c :: cs) fin st log =
  match body st c log with
  | (log', Returned st') => for_await body cs fin st' log'
  | (log', Thrown) => (log', Thrown)
  end.
Proof. reflexivity. Qed.

(** Once the headers are parsed, every truthy text is handed on as it is. *)
Lemma for_await_parsed (cs : list chunk) (st : loop_state) (log : list event) :
  headersParsed st = true ->
  for_await loop_body cs fin st log =
  (log ++ map OnExplanationChunk (nonEmptyTexts cs), ended fin st).
Proof.
  intros Hp. revert log; induction cs as [|c cs IH]; intros log.
  - simpl. rewrite app_nil_r. destruct fin; reflexivity.
  - rewrite nonEmptyTexts_cons, for_await_cons.
    destruct c as [t|]; [|rewrite loop_body_skip by auto; apply IH].
    destruct (truthy t) eqn:Et.
    + rewrite loop_body_parsed by assumption.
      rewrite IH, map_app, <- app_assoc. reflexivity.
    + destruct t; [|discriminate]. rewrite loop_body_skip by auto. apply IH.
Qed.

(** Until then the buffer is the text read so far, nothing has been
    called, and the first buffer that holds the delimiter is cut at the
    delimiter's first occurrence in the whole text. *)
Lemma for_await_unparsed (cs : list chunk) (st : loop_state) (log : list event) :
  headersParsed st = false ->
  indexOf separator (buffer st) = None ->
  let text := buffer st ++ textOf cs in
  match indexOf separator text with
  | None =>
      for_await loop_body cs fin st log =
      (log, ended fin {| buffer := text; headersParsed := false |})
  | Some i =>
      exists es b,
        for_await loop_body cs fin st log =
        (log ++ OnStructuredData (parseFields (substring text 0 i))
             :: map OnExplanationChunk es,
         ended fin {| buffer := b; headersParsed := true |})
        /\ concat es = substringFrom text (i + length separator)
        /\ Forall (fun t => truthy t = true) es
  end.
Proof.
  revert st log; induction cs as [|c cs IH]; intros st log Hp Hnone text.
  - subst text. unfold textOf; simpl. rewrite app_nil_r, Hnone.
    destruct st as [b h]; simpl in *; subst h. destruct fin; reflexivity.
  - assert (Hskip : (c = None \/ c = Some []) \/ exists t, c = Some t /\ truthy t = true).
    { destruct c as [[|a t]|]; eauto. }
    destruct Hskip as [Hskip|(t & -> & Et)].
    + rewrite for_await_cons, loop_body_skip by assumption.
      replace text with (buffer st ++ textOf cs)
        by (subst text; destruct Hskip as [->| ->]; reflexivity).
      apply IH; assumption.
    + assert (Htext : text = (buffer st ++ t) ++ textOf cs)
        by (subst text; unfold textOf; simpl; apply app_assoc).
      rewrite Htext, for_await_cons. clear Htext text.
      destruct (indexOf separator (buffer st ++ t)) as [i|] eqn:Ei.
      * rewrite (indexOf_app _ _ (textOf cs) Ei).
        pose proof (indexOf_bound _ _ Ei) as Hb.
        rewrite (loop_body_found _ _ _ Hp Et Ei).
        set (first := substringFrom (buffer st ++ t) (i + length separator)).
        exists ((if truthy first then [first] else []) ++ nonEmptyTexts cs).
        exists (buffer st ++ t).
        split; [|split].
        -- rewrite for_await_parsed by reflexivity.
           assert (Hh : substring ((buffer st ++ t) ++ textOf cs) 0 i
                        = substring (buffer st ++ t) 0 i).
           { unfold substring. rewrite Nat.sub_0_r. cbn [skipn].
             rewrite firstn_app.
             replace (i - length (buffer st ++ t)) with 0 by lia.
             cbn [firstn]. now rewrite app_nil_r. }
           rewrite Hh, map_app, <- app_assoc.
           destruct (truthy first); reflexivity.
        -- rewrite concat_app, concat_nonEmptyTexts.
           unfold substringFrom. rewrite skipn_app.
           replace (i + length separator - length (buffer st ++ t)) with 0 by lia.
           cbn [skipn]. f_equal.
           fold (substringFrom (buffer st ++ t) (i + length separator)).
           fold first. destruct (truthy first) eqn:Ef; simpl;
             [now rewrite app_nil_r|now destruct first].
        -- apply Forall_app. split; [|apply nonEmptyTexts_truthy].
           destruct (truthy first) eqn:Ef; auto.
      * rewrite (loop_body_more _ _ _ Hp Et Ei).
        exact (IH {| buffer := buffer st ++ t; headersParsed := false |} log
                  eq_refl Ei).
Qed.

End Loop.

Section Searches.

Lemma indexOfFrom_None (sep s : jsstring) (k : nat) :
  indexOfFrom sep s k = None <-> forall j, ~ occursAt sep s j.
Proof.
  unfold occursAt. revert k; induction s as [|c s IH]; intros k;
    rewrite indexOfFrom_unfold; destruct (startsWith sep _) eqn:E.
  - split; [discriminate|]. intros H. destruct (H 0 E).
  - split; [|reflexivity]. intros _ [|j]; simpl; congruence.
  - split; [discriminate|]. intros H. destruct (H 0 E).
  - rewrite IH. split.
    + intros H [|j]; [simpl; congruence|apply H].
    + intros H j. apply (H (S j)).
Qed.

Lemma indexOf_None (sep s : jsstring) :
  indexOf sep s = None <-> forall j, ~ occursAt sep s j.
Proof. apply indexOfFrom_None. Qed.




End Searches.

(* ================================================================= *)
(** ** The field patterns and the line-based reading

    The dot-star patterns agree with the line-based reading of the
    specification on every header in which each labelled line has text
    after its label; they part on a labelled line that is blank after the
    label, where the white space skipped by the pattern runs over the line
    end. *)

Section LineBased.

Variable label : jsstring.
Hypothesis label_nonempty : label <> [].
Hypothesis label_on_one_line : forallb isDot label = true.

Lemma splitLines_nonempty (s : jsstring) : splitLines s <> [].
Proof.
  destruct s as [|c s]; simpl; [discriminate|].
  destruct (isLineTerminator c); [discriminate|].
  destruct (splitLines s); discriminate.
Qed.

Lemma splitLines_cons (c : code_unit) (s : jsstring) :
  splitLines (c :: s) =
  if isLineTerminator c then [] :: splitLines s
  else (c :: hd [] (splitLines s)) :: tl (splitLines s).
Proof.
  simpl. destruct (isLineTerminator c); [reflexivity|].
  pose proof (splitLines_nonempty s).
  destruct (splitLines s); [congruence|reflexivity].
Qed.

Lemma splitLines_first (s : jsstring) :
  hd [] (splitLines s) = takeWhile isDot s.
Proof.
  induction s as [|c s IH]; [reflexivity|].
  rewrite splitLines_cons. unfold isDot at 1. simpl.
  destruct (isLineTerminator c); simpl; [reflexivity|].
  now rewrite IH.
Qed.

Lemma stripPrefix_first_line (p s rest : jsstring) :
  forallb isDot p = true ->
  stripPrefix p s = Some rest ->
  takeWhile isDot s = p ++ takeWhile isDot rest.
Proof.
  revert s; induction p as [|a p IH]; intros s Hp H.
  - simpl in H. now inversion H.
  - destruct s as [|c s]; simpl in H; [discriminate|].
    simpl in Hp. apply andb_true_iff in Hp as [Ha Hp].
    destruct (N.eqb_spec a c) as [->|]; [|discriminate].
    simpl. rewrite Ha. f_equal. now apply IH.
Qed.

Lemma startsWith_first_line (p s : jsstring) :
  forallb isDot p = true ->
  startsWith p (takeWhile isDot s) = startsWith p s.
Proof.
  unfold startsWith. revert s; induction p as [|a p IH]; intros s Hp.
  - reflexivity.
  - simpl in Hp. apply andb_true_iff in Hp as [Ha Hp].
    destruct s as [|c s]; [reflexivity|]. simpl.
    destruct (isDot c) eqn:Ec; simpl.
    + destruct (a =? c)%N; [now apply IH|reflexivity].
    + destruct (N.eqb_spec a c) as [->|]; [congruence|reflexivity].
Qed.

Lemma takeWhile_dropWhile_text (rest : jsstring) :
  existsb (fun c => negb (isSpace c)) (takeWhile isDot rest) = true ->
  takeWhile isDot (dropWhile isSpace rest)
  = dropWhile isSpace (takeWhile isDot rest).
Proof.
  induction rest as [|c rest IH]; simpl; [discriminate|].
  destruct (isDot c) eqn:Ed; simpl; [|discriminate].
  destruct (isSpace c) eqn:Es; simpl.
  - exact IH.
  - intros _. now rewrite Ed.
Qed.

Lemma dropWhile_idempotent (p : code_unit -> bool) (s : jsstring) :
  dropWhile p (dropWhile p s) = dropWhile p s.
Proof.
  induction s as [|c s IH]; simpl; [reflexivity|].
  destruct (p c) eqn:E; [exact IH|]. simpl. now rewrite E.
Qed.

Lemma trim_dropWhile (s : jsstring) : trim (dropWhile isSpace s) = trim s.
Proof. unfold trim, trimStart. now rewrite dropWhile_idempotent. Qed.

(** The lines looked at from a position: all of them at the start of a
    line, the later ones from inside a line. *)
Lemma searchLines_line_based (s : jsstring) (bol : bool) :
  let lines := if bol then splitLines s else tl (splitLines s) in
  (forall line, In line lines -> startsWith label line = true ->
     existsb (fun c => negb (isSpace c)) (skipn (length label) line) = true) ->
  option_map trim (searchLines (litSpacesRest label) bol s)
  = option_map (fun line => trim (skipn (length label) line))
      (find (startsWith label) lines).
Proof.
  revert bol; induction s as [|c s IH]; intros bol lines Htext.
  - assert (Hno : stripPrefix label [] = None)
      by (destruct label; [congruence|reflexivity]).
    subst lines. destruct bol; simpl.
    + unfold litSpacesRest, startsWith. rewrite Hno. reflexivity.
    + reflexivity.
  - assert (Hinside :
      (forall line, In line (tl (splitLines (c :: s))) ->
         startsWith label line = true ->
         existsb (fun c => negb (isSpace c)) (skipn (length label) line) = true) ->
      option_map trim
        (searchLines (litSpacesRest label) (isLineTerminator c) s)
      = option_map (fun line => trim (skipn (length label) line))
          (find (startsWith label) (tl (splitLines (c :: s))))).
    { intros H. rewrite splitLines_cons in *.
      specialize (IH (isLineTerminator c)).
      destruct (isLineTerminator c); apply IH; exact H. }
    subst lines. destruct bol.
    + cbn [searchLines].
      pose proof (splitLines_first (c :: s)) as Hfirst.
      pose proof (splitLines_nonempty (c :: s)) as Hne.
      destruct (splitLines (c :: s)) as [|line1 others] eqn:Esplit;
        [congruence|].
      cbn [hd] in Hfirst. cbn [tl] in Hinside. cbn [find].
      rewrite Hfirst, startsWith_first_line by exact label_on_one_line.
      unfold litSpacesRest, startsWith.
      destruct (stripPrefix label (c :: s)) as [rest|] eqn:Estrip.
      * cbn [option_map]. f_equal.
        pose proof (@stripPrefix_first_line label _ _ label_on_one_line Estrip)
          as Hline.
        rewrite Hline, skipn_app, Nat.sub_diag, skipn_all.
        cbn [skipn app].
        assert (Hsome : existsb (fun c => negb (isSpace c))
                          (takeWhile isDot rest) = true).
        { specialize (Htext line1 (or_introl eq_refl)).
          rewrite Hfirst, startsWith_first_line in Htext
            by exact label_on_one_line.
          unfold startsWith in Htext. rewrite Estrip in Htext.
          specialize (Htext eq_refl).
          rewrite Hline, skipn_app, Nat.sub_diag, skipn_all in Htext.
          exact Htext. }
        rewrite (takeWhile_dropWhile_text _ Hsome). apply trim_dropWhile.
      * apply Hinside. intros line Hin. apply Htext. now right.
    + cbn [searchLines]. apply Hinside. exact Htext.
Qed.

(** On such a header the field of the code is the field of the
    specification. *)
Lemma matchRestField_line_based (header default : jsstring) :
  (forall line, In line (splitLines header) -> startsWith label line = true ->
     existsb (fun c => negb (isSpace c)) (skipn (length label) line) = true) ->
  match matchRestField label header with
  | Some m1 => trim m1
  | None => default
  end = specLineField label header default.
Proof.
  intros Htext. unfold matchRestField, specLineField.
  pose proof (searchLines_line_based header true Htext) as H.
  cbn zeta in H.
  destruct (searchLines (litSpacesRest label) true header);
    destruct (find (startsWith label) (splitLines header));
    simpl in H; congruence.
Qed.

End LineBased.

(* ================================================================= *)
(** ** The streaming parser: whole runs *)

Section Runs.

Lemma fallback_parsed (st : loop_state) (log : list event) :
  headersParsed st = true -> fallback st log = (log, Returned tt).
Proof. intros Hp. unfold fallback. rewrite Hp. reflexivity. Qed.

Lemma fallback_unparsed (st : loop_state) (log : list event) :
  headersParsed st = false ->
  indexOf separator (buffer st) = None ->
  fallback st log = (log ++ fallbackCalls (buffer st), Returned tt).
Proof.
  intros Hp Hnone. unfold fallback, fallbackCalls. rewrite Hp, Hnone.
  destruct (buffer st) as [|c b] eqn:Eb; cbn [negb andb length Nat.ltb Nat.leb truthy].
  - unfold ret. now rewrite app_nil_r.
  - unfold bind, onStructuredData, onExplanationChunk, call, ret.
    destruct (truthy (fallbackExplanation (c :: b)));
      rewrite <- ?app_assoc; reflexivity.
Qed.

Lemma textOf_truthy (cs : list chunk) :
  (exists t, In (Some t) cs /\ t <> []) -> truthy (textOf cs) = true.
Proof.
  intros (t & Hin & Ht). induction cs as [|c cs IH]; [destruct Hin|].
  unfold textOf; simpl. fold (textOf cs).
  destruct Hin as [->|Hin].
  - destruct t; [congruence|reflexivity].
  - specialize (IH Hin). destruct c as [[|a u]|]; simpl; auto.
Qed.

Variable cs : list chunk.
Variable fin : ending.

(** A text that holds the delimiter: one structured call on the text
    before its first occurrence, then the text after it, in pieces. *)
Lemma run_delimited (i : nat) :
  indexOf separator (textOf cs) = Some i ->
  exists es,
    run (Stream cs fin) =
    (OnStructuredData (parseFields (substring (textOf cs) 0 i))
       :: map OnExplanationChunk es ++ closingCalls fin, Returned tt)
    /\ concat es = substringFrom (textOf cs) (i + length separator)
    /\ Forall (fun t => truthy t = true) es.
Proof.
  intros Hi.
  pose proof (for_await_unparsed fin cs initial [] eq_refl eq_refl) as H.
  cbn zeta in H. change (buffer initial ++ textOf cs) with (textOf cs) in H.
  rewrite Hi in H. destruct H as (es & b & Hrun & Hcat & Hne).
  exists es. split; [|split; assumption].
  unfold run, evaluateSentenceStream, try_catch_finally, tryBody, bind.
  cbn [chunks finish]. rewrite Hrun.
  destruct fin; cbn [ended closingCalls].
  - rewrite fallback_parsed by reflexivity. reflexivity.
  - unfold onExplanationChunk, onStreamEnd, call.
    rewrite <- !app_assoc. reflexivity.
Qed.

(** A text without the delimiter: the fallback alone speaks, and only
    when the stream ended without an error. *)
Lemma run_undelimited :
  indexOf separator (textOf cs) = None ->
  run (Stream cs fin) =
  (match fin with
   | EndOfStream => fallbackCalls (textOf cs)
   | StreamError => []
   end ++ closingCalls fin, Returned tt).
Proof.
  intros Hi.
  pose proof (for_await_unparsed fin cs initial [] eq_refl eq_refl) as H.
  cbn zeta in H. change (buffer initial ++ textOf cs) with (textOf cs) in H.
  rewrite Hi in H.
  unfold run, evaluateSentenceStream, try_catch_finally, tryBody, bind.
  cbn [chunks finish]. rewrite H.
  destruct fin; cbn [ended closingCalls].
  - rewrite fallback_unparsed by (try reflexivity; exact Hi).
    cbn [buffer]. unfold onStreamEnd, call. reflexivity.
  - reflexivity.
Qed.

End Runs.

Section Handlers.

Lemma run_unfold (s : stream) :
  run s =
  match tryBody s [] with
  | (before, Returned _) => (before ++ [OnStreamEnd], Returned tt)
  | (before, Thrown) =>
      (before ++ [OnExplanationChunk errorMessage; OnStreamEnd], Returned tt)
  end.
Proof.
  unfold run, evaluateSentenceStream, try_catch_finally.
  destruct (tryBody s []) as [before [[]|]].
  - reflexivity.
  - unfold onExplanationChunk, onStreamEnd, call.
    now rewrite <- app_assoc.
Qed.

Lemma tryBody_outcome (cs : list chunk) (fin : ending) :
  snd (tryBody (Stream cs fin) []) =
  match fin with EndOfStream => Returned tt | StreamError => Thrown end
  /\ streamEnds (fst (tryBody (Stream cs fin) [])) = 0.
Proof.
  unfold tryBody, bind. cbn [chunks finish].
  pose proof (for_await_unparsed fin cs initial [] eq_refl eq_refl) as H.
  cbn zeta in H. change (buffer initial ++ textOf cs) with (textOf cs) in H.
  destruct (indexOf separator (textOf cs)) as [i|] eqn:Hi.
  - destruct H as (es & b & -> & _ & _).
    assert (Hends : streamEnds
              ([] ++ OnStructuredData (parseFields (substring (textOf cs) 0 i))
                  :: map OnExplanationChunk es) = 0).
    { structured_call_apart.
      rewrite !streamEnds_app, streamEnds_chunks. reflexivity. }
    destruct fin; cbn [ended].
    + rewrite fallback_parsed by reflexivity. cbn [fst snd]. auto.
    + cbn [fst snd]. auto.
  - rewrite H. destruct fin; cbn [ended].
    + rewrite fallback_unparsed by (try reflexivity; exact Hi).
      cbn [fst snd buffer]. split; [reflexivity|].
      unfold fallbackCalls.
      destruct (truthy (textOf cs)); [|reflexivity].
      destruct (truthy (fallbackExplanation (textOf cs))); reflexivity.
    + cbn [fst snd]. auto.
Qed.

End Handlers.

(* ================================================================= *)
(** ** The streaming parser: the properties of the specification *)

(** C1: when the text of the chunks holds the delimiter, a run on a stream
    that ends normally calls [onStructuredData] exactly once, with the
    fields of the text strictly before the first occurrence of the
    delimiter, and the strings passed to [onExplanationChunk], taken
    together, are exactly the text after that first occurrence (so a later
    delimiter is part of the explanation). *)
Theorem delimited_stream_split (cs : list chunk) (i : nat) :
  firstOccurrence separator (textOf cs) i ->
  let log := calls_of (Stream cs EndOfStream) in
  structuredCalls log = [parseFields (substring (textOf cs) 0 i)]
  /\ explanationText log = substringFrom (textOf cs) (i + length separator).
Proof.
  intros Hi log. apply indexOf_first in Hi.
  destruct (run_delimited cs EndOfStream Hi) as (es & Hrun & Hcat & _).
  subst log. unfold calls_of. rewrite Hrun. cbn [fst].
  structured_call_apart.
  split.
  - rewrite !structuredCalls_app, structuredCalls_chunks. reflexivity.
  - rewrite !explanationText_app. unfold explanationText at 2.
    rewrite explanationChunks_chunks, Hcat. cbn. apply app_nil_r.
Qed.

Lemma delimited_stream_split_witness :
  firstOccurrence separator (textOf StreamExamples.twoDelimiters)
    (length StreamExamples.header)
  /\ structuredCalls (calls_of (Stream StreamExamples.twoDelimiters EndOfStream))
     = [ {| score := Finite 85;
            evaluation := str "good";
            correctedSentence := str "neko desu" |} ]
  /\ explanationText (calls_of (Stream StreamExamples.twoDelimiters EndOfStream))
     = str "first" ++ separator ++ str "second".
Proof.
  assert (H : firstOccurrence separator (textOf StreamExamples.twoDelimiters)
                (length StreamExamples.header))
    by (apply indexOf_first; vm_compute; reflexivity).
  split; [exact H|].
  exact (delimited_stream_split StreamExamples.twoDelimiters H).
Defined.

(** C2: two chunk sequences with the same text give the same outcome: the
    same structured calls, the same explanation text and the same
    completion, wherever the chunk boundaries fall and however the stream
    ends. *)
Theorem chunking_is_irrelevant (cs1 cs2 : list chunk) (fin : ending) :
  textOf cs1 = textOf cs2 ->
  structuredCalls (calls_of (Stream cs1 fin))
  = structuredCalls (calls_of (Stream cs2 fin))
  /\ explanationText (calls_of (Stream cs1 fin))
     = explanationText (calls_of (Stream cs2 fin))
  /\ snd (run (Stream cs1 fin)) = snd (run (Stream cs2 fin)).
Proof.
  intros Heq. unfold calls_of.
  destruct (indexOf separator (textOf cs1)) as [i|] eqn:Hi.
  - destruct (run_delimited cs1 fin Hi) as (es1 & -> & Hc1 & _).
    rewrite Heq in Hi.
    destruct (run_delimited cs2 fin Hi) as (es2 & -> & Hc2 & _).
    cbn [fst snd]. rewrite Heq in *.
    structured_call_apart.
    repeat split.
    + rewrite !structuredCalls_app, !structuredCalls_chunks. reflexivity.
    + rewrite !explanationText_app. unfold explanationText at 2 5.
      rewrite !explanationChunks_chunks, Hc1, Hc2. reflexivity.
  - rewrite (run_undelimited cs1 fin Hi).
    rewrite Heq in Hi. rewrite (run_undelimited cs2 fin Hi).
    rewrite Heq. auto.
Qed.

Lemma chunking_is_irrelevant_witness :
  textOf StreamExamples.twoDelimiters = textOf StreamExamples.oneChunk
  /\ structuredCalls (calls_of (Stream StreamExamples.twoDelimiters EndOfStream))
     = structuredCalls (calls_of (Stream StreamExamples.oneChunk EndOfStream))
  /\ explanationText (calls_of (Stream StreamExamples.twoDelimiters EndOfStream))
     = explanationText (calls_of (Stream StreamExamples.oneChunk EndOfStream))
  /\ snd (run (Stream StreamExamples.twoDelimiters EndOfStream))
     = snd (run (Stream StreamExamples.oneChunk EndOfStream)).
Proof.
  assert (H : textOf StreamExamples.twoDelimiters = textOf StreamExamples.oneChunk)
    by (vm_compute; reflexivity).
  split; [exact H|].
  exact (chunking_is_irrelevant StreamExamples.twoDelimiters
           StreamExamples.oneChunk EndOfStream H).
Defined.



(** C5: on a stream that ends normally and yields at least one non-empty
    text, a run returns after calling [onStructuredData] exactly once,
    before every call of [onExplanationChunk], and the explanation chunks
    are pieces of the text after the delimiter, never of the header before
    it. *)
Theorem structured_data_comes_first (cs : list chunk) :
  (exists t, In (Some t) cs /\ t <> []) ->
  exists data es,
    run (Stream cs EndOfStream) =
    (OnStructuredData data :: map OnExplanationChunk es ++ [OnStreamEnd],
     Returned tt)
    /\ forall i, firstOccurrence separator (textOf cs) i ->
         concat es = substringFrom (textOf cs) (i + length separator).
Proof.
  intros Hne. apply textOf_truthy in Hne.
  destruct (indexOf separator (textOf cs)) as [i|] eqn:Hi.
  - destruct (run_delimited cs EndOfStream Hi) as (es & Hrun & Hcat & _).
    exists (parseFields (substring (textOf cs) 0 i)), es.
    split; [exact Hrun|].
    intros j Hj. apply indexOf_first in Hj. congruence.
  - rewrite (run_undelimited cs EndOfStream Hi).
    unfold fallbackCalls. rewrite Hne. cbn [closingCalls].
    exists (parseFields (textOf cs)).
    exists (if truthy (fallbackExplanation (textOf cs))
            then [fallbackExplanation (textOf cs)] else []).
    split.
    + destruct (truthy (fallbackExplanation (textOf cs))); reflexivity.
    + intros j Hj. apply indexOf_first in Hj. congruence.
Qed.

Lemma structured_data_comes_first_witness :
  (exists t, In (Some t) StreamExamples.twoDelimiters /\ t <> [])
  /\ exists data es,
       run (Stream StreamExamples.twoDelimiters EndOfStream) =
       (OnStructuredData data :: map OnExplanationChunk es ++ [OnStreamEnd],
        Returned tt)
       /\ forall i,
            firstOccurrence separator (textOf StreamExamples.twoDelimiters) i ->
            concat es = substringFrom (textOf StreamExamples.twoDelimiters)
                          (i + length separator).
Proof.
  assert (H : exists t, In (Some t) StreamExamples.twoDelimiters /\ t <> []).
  { exists (str "- "). split; [simpl; auto|vm_compute; discriminate]. }
  split; [exact H|].
  exact (structured_data_comes_first StreamExamples.twoDelimiters H).
Defined.

(** C6: no error of the model stream leaves [evaluateSentenceStream].
    Every run returns, and calls [onStreamEnd] exactly once, as its last
    call. When the stream throws, the body of the [try] block is left by
    the exception and the handler adds one call of [onExplanationChunk],
    with the fixed message, to the calls made before. *)
Theorem stream_errors_are_caught (s : stream) :
  snd (run s) = Returned tt
  /\ streamEnds (calls_of s) = 1
  /\ match finish s with
     | StreamError =>
         snd (tryBody s []) = Thrown
         /\ calls_of s =
            fst (tryBody s []) ++ [OnExplanationChunk errorMessage; OnStreamEnd]
     | EndOfStream =>
         snd (tryBody s []) = Returned tt
         /\ calls_of s = fst (tryBody s []) ++ [OnStreamEnd]
     end.
Proof.
  destruct s as [cs fin]. unfold calls_of. cbn [finish].
  rewrite run_unfold.
  destruct (tryBody_outcome cs fin) as [Hsnd Hends].
  destruct (tryBody (Stream cs fin) []) as [before o].
  cbn [fst snd] in *. subst o.
  destruct fin; cbn [fst snd]; rewrite streamEnds_app, Hends; auto.
Qed.

(** C10: when the loop is over with [headersParsed] still false, the
    buffer is the whole text and holds no delimiter, because every text
    added to it was followed by a search of the whole buffer; the search
    that the fallback makes again finds nothing, so the fallback always
    takes the branch that guesses the explanation from the lines. *)
Theorem fallback_search_finds_nothing
    (cs : list chunk) (st : loop_state) (log log' : list event) :
  for_await loop_body cs EndOfStream initial log = (log', Returned st) ->
  headersParsed st = false ->
  indexOf separator (buffer st) = None
  /\ buffer st = textOf cs
  /\ fallback st log' = (log' ++ fallbackCalls (buffer st), Returned tt).
Proof.
  intros Hloop Hp.
  pose proof (for_await_unparsed EndOfStream cs initial log eq_refl eq_refl) as H.
  cbn zeta in H. change (buffer initial ++ textOf cs) with (textOf cs) in H.
  destruct (indexOf separator (textOf cs)) as [i|] eqn:Hi.
  - destruct H as (es & b & Hrun & _). rewrite Hrun in Hloop.
    cbn [ended] in Hloop. inversion Hloop; subst. discriminate.
  - rewrite H in Hloop. cbn [ended] in Hloop. inversion Hloop; subst.
    cbn [buffer]. split; [exact Hi|]. split; [reflexivity|].
    now apply fallback_unparsed.
Qed.

Lemma fallback_search_finds_nothing_witness :
  let st := {| buffer := textOf StreamExamples.undelimited;
               headersParsed := false |} in
  for_await loop_body StreamExamples.undelimited EndOfStream initial []
  = ([], Returned st)
  /\ indexOf separator (buffer st) = None
  /\ buffer st = textOf StreamExamples.undelimited
  /\ fallback st [] = ([] ++ fallbackCalls (buffer st), Returned tt).
Proof.
  intros st.
  assert (H : for_await loop_body StreamExamples.undelimited EndOfStream
                initial [] = ([], Returned st))
    by (vm_compute; reflexivity).
  split; [exact H|].
  exact (fallback_search_finds_nothing StreamExamples.undelimited [] H eq_refl).
Defined.

(** C4, at a header whose evaluation line is empty: the white space that
    the pattern skips after the label includes the line end, so the code
    takes the whole next line as the evaluation, where the line-based
    reading of the specification gives the empty string. *)
Theorem field_capture_crosses_line_end :
  structuredCalls (calls_of (Stream StreamExamples.emptyEvaluation EndOfStream))
  = [ {| score := Finite 90;
         evaluation := str "correctedSentence: neko";
         correctedSentence := str "neko" |} ]
  /\ specLineField (str "evaluation:") StreamExamples.emptyEvaluationHeader
       defaultEvaluation = [].
Proof. split; vm_compute; reflexivity. Qed.

(* ================================================================= *)
(** ** Facts on lists *)

Section Lists.

Context {A : Type}.

Lemma find_app (f : A -> bool) (l1 l2 : list A) :
  find f (l1 ++ l2) =
  match find f l1 with
  | Some x => Some x
  | None => find f l2
  end.
Proof.
  induction l1 as [|a l1 IH]; simpl; [reflexivity|].
  destruct (f a); auto.
Qed.

Lemma firstn_In (n : nat) (l : list A) (x : A) : In x (firstn n l) -> In x l.
Proof.
  intros H. rewrite <- (firstn_skipn n l). apply in_or_app. now left.
Qed.

Lemma NoDup_firstn (n : nat) (l : list A) : NoDup l -> NoDup (firstn n l).
Proof.
  intros H. rewrite <- (firstn_skipn n l) in H.
  now apply NoDup_app_remove_r in H.
Qed.

Variable R : A -> A -> Prop.

Lemma StronglySorted_firstn (n : nat) (l : list A) :
  StronglySorted R l -> StronglySorted R (firstn n l).
Proof.
  revert n; induction l as [|a l IH]; intros [|n] H; simpl; try constructor.
  - apply IH. now inversion H.
  - inversion H; subst. rewrite Forall_forall in *.
    intros x Hx. apply firstn_In in Hx. auto.
Qed.

Lemma StronglySorted_app_inv (l1 l2 : list A) :
  StronglySorted R (l1 ++ l2) ->
  forall a b, In a l1 -> In b l2 -> R a b.
Proof.
  induction l1 as [|x l1 IH]; simpl; intros H a b Ha Hb; [destruct Ha|].
  inversion H as [|? ? Hs Hall]; subst.
  destruct Ha as [->|Ha].
  - rewrite Forall_forall in Hall. apply Hall, in_or_app. now right.
  - now apply IH.
Qed.

End Lists.

(* ================================================================= *)
(** ** The history service: sorting and merging *)

Import History.

Section Numbers.

Lemma Qle_bool_total (p q : QArith_base.Q) :
  QArith_base.Qle_bool p q = false -> QArith_base.Qle_bool q p = true.
Proof.
  intros H. apply QArith_base.Qle_bool_iff.
  destruct (QArith_base.Qlt_le_dec p q) as [Hlt|Hle]; [|exact Hle].
  apply QArith_base.Qlt_le_weak in Hlt.
  apply QArith_base.Qle_bool_iff in Hlt. congruence.
Qed.

Lemma Qle_bool_trans (p q r : QArith_base.Q) :
  QArith_base.Qle_bool p q = true -> QArith_base.Qle_bool q r = true ->
  QArith_base.Qle_bool p r = true.
Proof.
  rewrite !QArith_base.Qle_bool_iff. apply QArith_base.Qle_trans.
Qed.

Lemma numLtb_irrefl (x : double) : numLtb x x = false.
Proof.
  destruct x; simpl; try reflexivity.
  - apply negb_false_iff, QArith_base.Qle_bool_iff, QArith_base.Qle_refl.
Qed.

Lemma numLtb_asym (x y : double) : numLtb x y = true -> numLtb y x = false.
Proof.
  destruct x, y; simpl; intros H; try reflexivity; try discriminate;
    rewrite negb_true_iff in H; rewrite negb_false_iff;
    now apply Qle_bool_total.
Qed.

(** Not being less is transitive. *)
Lemma numLtb_false_trans (x y z : double) :
  numLtb x y = false -> numLtb y z = false -> numLtb x z = false.
Proof.
  destruct x, y, z; simpl; intros H1 H2;
    try reflexivity; try discriminate;
    rewrite negb_false_iff in *; try assumption;
    exact (Qle_bool_trans _ _ _ H2 H1).
Qed.

End Numbers.

Section Sorting.

Lemma insertNewestFirst_perm (x : json) (l : list json) :
  Permutation (insertNewestFirst x l) (x :: l).
Proof.
  induction l as [|y l IH]; simpl; [reflexivity|].
  destruct (numLtb (timestampOf x) (timestampOf y)); [|reflexivity].
  rewrite IH. apply perm_swap.
Qed.

Lemma sortNewestFirst_perm (l : list json) :
  Permutation (sortNewestFirst l) l.
Proof.
  induction l as [|x l IH]; simpl; [reflexivity|].
  rewrite insertNewestFirst_perm. now constructor.
Qed.

Lemma insertNewestFirst_sorted (x : json) (l : list json) :
  StronglySorted notOlder l -> StronglySorted notOlder (insertNewestFirst x l).
Proof.
  induction l as [|y l IH]; intros H; simpl.
  - repeat constructor.
  - inversion H as [|? ? Hs Hall]; subst.
    destruct (numLtb (timestampOf x) (timestampOf y)) eqn:Hlt.
    + constructor; [auto|].
      rewrite Forall_forall in *. intros z Hz.
      apply (Permutation_in _ (insertNewestFirst_perm x l)) in Hz.
      destruct Hz as [<-|Hz]; [|auto].
      unfold notOlder. now apply numLtb_asym.
    + constructor; [exact H|].
      constructor; [exact Hlt|].
      rewrite Forall_forall in *. intros z Hz.
      specialize (Hall z Hz). unfold notOlder in *.
      exact (numLtb_false_trans _ _ _ Hlt Hall).
Qed.

Lemma sortNewestFirst_sorted (l : list json) :
  StronglySorted notOlder (sortNewestFirst l).
Proof.
  induction l as [|x l IH]; simpl; [constructor|].
  now apply insertNewestFirst_sorted.
Qed.

End Sorting.

Section Merging.

Variable E : environment.

Lemma mapHas_true (key : jsstring) (historyMap : list (jsstring * json)) :
  mapHas key historyMap = true <-> In key (map fst historyMap).
Proof.
  unfold mapHas. rewrite existsb_exists, in_map_iff. split.
  - intros ([k x] & Hin & Hk). exists (k, x). split; [|exact Hin].
    simpl in *. now destruct (list_eq_dec N.eq_dec k key).
  - intros ([k x] & Hk & Hin). exists (k, x). split; [exact Hin|].
    simpl in *. now destruct (list_eq_dec N.eq_dec k key).
Qed.

Lemma mapHas_false (key : jsstring) (historyMap : list (jsstring * json)) :
  mapHas key historyMap = false <-> ~ In key (map fst historyMap).
Proof.
  rewrite <- mapHas_true. destruct (mapHas key historyMap); split; congruence.
Qed.

Lemma hasKey_true (key : jsstring) (item : json) :
  hasKey E key item = true <-> itemKey E item = Some (Some key).
Proof.
  unfold hasKey. destruct (itemKey E item) as [[k|]|]; try (split; congruence).
  destruct (list_eq_dec N.eq_dec k key); split; congruence.
Qed.

Lemma firstKeyed_cons (key : jsstring) (item : json) (rest : list json) :
  firstKeyed E key (item :: rest) =
  if hasKey E key item then Some item else firstKeyed E key rest.
Proof. reflexivity. Qed.

Lemma firstKeyed_key (key : jsstring) (items : list json) (x : json) :
  firstKeyed E key items = Some x -> In x items /\ itemKey E x = Some (Some key).
Proof.
  intros H. apply find_some in H as [Hin Hk]. split; [exact Hin|].
  now apply hasKey_true.
Qed.

(** The map after the loop: the entries it had, and for every other key
    the first item of the list that carries it. *)
Lemma mergeLoop_entries (items : list json) (map0 map1 : list (jsstring * json)) :
  mergeLoop E items map0 = Some map1 ->
  forall key x,
    In (key, x) map1 <->
    In (key, x) map0 \/
    (~ In key (map fst map0) /\ firstKeyed E key items = Some x).
Proof.
  revert map0; induction items as [|item rest IH]; intros map0 H key x.
  - simpl in H. inversion H; subst. unfold firstKeyed; simpl.
    split; [auto|]. intros [Hin|[_ Habs]]; [exact Hin|discriminate].
  - simpl in H. rewrite firstKeyed_cons.
    destruct (itemKey E item) as [[k0|]|] eqn:Ek; [| |discriminate].
    + assert (Hk : hasKey E key item = true <-> k0 = key).
      { rewrite hasKey_true, Ek. split; congruence. }
      destruct (mapHas k0 map0) eqn:Ehas.
      * rewrite (IH _ H). apply mapHas_true in Ehas.
        destruct (hasKey E key item) eqn:Ehk.
        -- assert (k0 = key) by now apply Hk. subst k0.
           split; intros [Hin|[Hn _]]; auto; contradiction.
        -- reflexivity.
      * rewrite (IH _ H). apply mapHas_false in Ehas.
        rewrite map_app, !in_app_iff. simpl.
        destruct (hasKey E key item) eqn:Ehk.
        -- assert (k0 = key) by now apply Hk. subst k0.
           split.
           ++ intros [[Hin|[Heq|[]]]|[Hn _]]; auto.
              ** inversion Heq; subst. auto.
              ** exfalso. apply Hn. auto.
           ++ intros [Hin|[_ Heq]]; auto. inversion Heq; subst. auto.
        -- assert (k0 <> key)
             by (intros ->; destruct Hk as [_ Hk]; discriminate (Hk eq_refl)).
           split.
           ++ intros [[Hin|[Heq|[]]]|[Hn Hf]].
              ** auto.
              ** inversion Heq; subst. congruence.
              ** right. split; [tauto|exact Hf].
           ++ intros [Hin|[Hn Hf]]; [auto|].
              right. split; [|exact Hf]. intros [Hin|[Heq|[]]]; auto.
    + assert (Hk : hasKey E key item = false)
        by (unfold hasKey; now rewrite Ek).
      rewrite Hk. apply IH. exact H.
Qed.

Lemma mergeLoop_NoDup (items : list json) (map0 map1 : list (jsstring * json)) :
  mergeLoop E items map0 = Some map1 ->
  NoDup (map fst map0) -> NoDup (map fst map1).
Proof.
  revert map0; induction items as [|item rest IH]; intros map0 H Hnd.
  - simpl in H. now inversion H; subst.
  - simpl in H.
    destruct (itemKey E item) as [[k0|]|] eqn:Ek; [| |discriminate].
    + destruct (mapHas k0 map0) eqn:Ehas; [eauto|].
      apply (IH _ H). apply mapHas_false in Ehas.
      rewrite map_app. simpl.
      apply NoDup_app; [exact Hnd|repeat constructor; auto|].
      intros k Hk [<-|[]]. contradiction.
    + eauto.
Qed.

End Merging.

(* ================================================================= *)
(** ** The history service: the store *)

Section Writing.

Lemma json_nested_ind (P : json -> Prop) :
  P JNull ->
  (forall b, P (JBool b)) ->
  (forall n, P (JNumber n)) ->
  (forall s, P (JString s)) ->
  (forall items, Forall P items -> P (JArray items)) ->
  (forall members, Forall (fun member => P (snd member)) members ->
                   P (JObject members)) ->
  forall v, P v.
Proof.
  intros HN HB HNum HS HA HO. fix IH 1.
  intros [|b|n|s|items|members].
  - exact HN.
  - apply HB.
  - apply HNum.
  - apply HS.
  - apply HA. induction items as [|x items IHitems]; constructor;
      [apply IH|exact IHitems].
  - apply HO. induction members as [|[name value] members IHmembers];
      constructor; [apply IH|exact IHmembers].
Qed.

(** Writing twice is writing once. *)
Lemma jsonImage_idempotent (v : json) : jsonImage (jsonImage v) = jsonImage v.
Proof.
  induction v as [|b|n|s|items IH|members IH] using json_nested_ind.
  - reflexivity.
  - reflexivity.
  - destruct n; reflexivity.
  - reflexivity.
  - cbn [jsonImage]. f_equal. rewrite map_map.
    induction IH as [|x items Hx _ IHitems]; [reflexivity|].
    cbn [map]. now rewrite Hx, IHitems.
  - cbn [jsonImage]. f_equal. rewrite map_map.
    induction IH as [|[name value] members Hx _ IHmembers]; [reflexivity|].
    cbn [map snd] in *. now rewrite Hx, IHmembers.
Qed.

Lemma lookup_jsonImage (name : jsstring) (members : list (jsstring * json)) :
  lookup name
    (map (fun member : jsstring * json =>
            let (name, value) := member in (name, jsonImage value)) members)
  = option_map jsonImage (lookup name members).
Proof.
  induction members as [|[k v] members IH]; [reflexivity|].
  cbn [map lookup]. destruct (list_eq_dec N.eq_dec k name); [reflexivity|exact IH].
Qed.

(** A string is written as it is, and nothing else is read back as that
    string. *)
Lemma jsonImage_string (v : json) (s : jsstring) :
  jsonImage v = JString s <-> v = JString s.
Proof.
  destruct v as [|b|[q| | |]|t|items|members]; cbn [jsonImage];
    split; intros H; try discriminate; exact H.
Qed.

Lemma strictEq_string_image (v : jsvalue) (s : jsstring) :
  strictEq (option_map jsonImage v) (Some (JString s))
  = strictEq v (Some (JString s)).
Proof.
  destruct v as [[|b|[q| | |]|t|items|members]|]; reflexivity.
Qed.

End Writing.

Section Store.

Variable E : environment.

Lemma setItem_Some (ls ls' : localStorage) (v : json) :
  setItem E ls v = Some ls' ->
  ls' = Available (Some (JSON_stringify v)) /\ fits E v = true.
Proof.
  unfold setItem. destruct ls; [discriminate|].
  destruct (fits E v); [|discriminate]. intros H; inversion H. auto.
Qed.

Lemma setItem_Available (entry : option text) (v : json) :
  setItem E (Available entry) v =
  if fits E v then Some (Available (Some (JSON_stringify v))) else None.
Proof. reflexivity. Qed.

Lemma mapM_length {A B} (f : A -> option B) (xs : list A) (ys : list B) :
  mapM f xs = Some ys -> length ys = length xs.
Proof.
  revert ys; induction xs as [|x xs IH]; intros ys H; simpl in H.
  - now inversion H.
  - destruct (f x); [|discriminate].
    destruct (mapM f xs) as [zs|]; [|discriminate].
    inversion H; subst. simpl. f_equal. now apply IH.
Qed.

Lemma filterM_length {A} (p : A -> option bool) (xs ys : list A) :
  filterM p xs = Some ys -> length ys <= length xs.
Proof.
  revert ys; induction xs as [|x xs IH]; intros ys H; simpl in H.
  - inversion H. simpl. lia.
  - destruct (p x) as [keep|]; [|discriminate].
    destruct (filterM p xs) as [zs|]; [|discriminate].
    specialize (IH zs eq_refl).
    inversion H; subst. destruct keep; simpl; lia.
Qed.

(** What a store that holds a history gives to the service. *)
Lemma holdsHistory_getHistory (n : nat) (ls : localStorage) :
  holdsHistory n ls ->
  getHistory ls = JArray (storedItems ls)
  /\ length (storedItems ls) <= n
  /\ exists entry, ls = Available entry.
Proof.
  intros [->|(items & -> & Hlen)]; unfold storedItems;
    cbn [getHistory getItem JSON_stringify truthyText JSON_parse jsonImage].
  - repeat split; [simpl; lia|eauto].
  - repeat split; [now rewrite length_map|eauto].
Qed.

(** The items of such a store are written as they are. *)
Lemma holdsHistory_written (n : nat) (ls : localStorage) :
  holdsHistory n ls -> map jsonImage (storedItems ls) = storedItems ls.
Proof.
  intros [->|(items & -> & Hlen)]; unfold storedItems;
    cbn [getHistory getItem JSON_stringify truthyText JSON_parse jsonImage].
  - reflexivity.
  - rewrite map_map. apply map_ext. apply jsonImage_idempotent.
Qed.

(** Every function of the service ends by writing an array or by leaving
    the store as it was. *)
Lemma write_or_keep (n : nat) (ls : localStorage) (items : list json) :
  holdsHistory n ls -> length items <= n ->
  holdsHistory n match setItem E ls (JArray items) with
                 | Some ls' => ls'
                 | None => ls
                 end.
Proof.
  intros H Hlen. destruct (setItem E ls (JArray items)) as [ls'|] eqn:Es.
  - apply setItem_Some in Es as [-> _]. right. eauto.
  - exact H.
Qed.

Lemma addHistoryItem_capped (newItem : json) (ls : localStorage) :
  holdsHistory 200 ls -> holdsHistory 200 (addHistoryItem E newItem ls).
Proof.
  intros H. unfold addHistoryItem.
  destruct (holdsHistory_getHistory H) as (-> & _ & _). cbn [spread].
  apply write_or_keep; [exact H|].
  pose proof (firstn_le_length 100 (newItem :: storedItems ls)). lia.
Qed.

Lemma updateHistoryItem_capped (updatedItem : json) (ls : localStorage) :
  holdsHistory 200 ls -> holdsHistory 200 (updateHistoryItem E updatedItem ls).
Proof.
  intros H. unfold updateHistoryItem.
  destruct (holdsHistory_getHistory H) as (-> & Hlen & _). cbn [asArray].
  destruct (mapM _ (storedItems ls)) as [newHistory|] eqn:Em; [|exact H].
  apply write_or_keep; [exact H|].
  apply mapM_length in Em. lia.
Qed.

Lemma deleteHistoryItem_capped (id : jsstring) (ls : localStorage) :
  holdsHistory 200 ls -> holdsHistory 200 (deleteHistoryItem E id ls).
Proof.
  intros H. unfold deleteHistoryItem.
  destruct (holdsHistory_getHistory H) as (-> & Hlen & _). cbn [asArray].
  destruct (filterM _ (storedItems ls)) as [newHistory|] eqn:Em; [|exact H].
  apply write_or_keep; [exact H|].
  apply filterM_length in Em. lia.
Qed.

Lemma deleteMultipleHistoryItems_capped (ids : list jsstring) (ls : localStorage) :
  holdsHistory 200 ls -> holdsHistory 200 (deleteMultipleHistoryItems E ids ls).
Proof.
  intros H. unfold deleteMultipleHistoryItems.
  destruct (holdsHistory_getHistory H) as (-> & Hlen & _). cbn [asArray].
  destruct (filterM _ (storedItems ls)) as [newHistory|] eqn:Em; [|exact H].
  apply write_or_keep; [exact H|].
  apply filterM_length in Em. lia.
Qed.

Lemma mergeAndSaveHistory_capped (importedHistory : json) (ls : localStorage) :
  holdsHistory 200 ls ->
  holdsHistory 200 (fst (mergeAndSaveHistory E importedHistory ls)).
Proof.
  intros H. unfold mergeAndSaveHistory.
  destruct importedHistory as [| | | |imported|]; try exact H.
  destruct (mergeTry E imported ls) as [[ls' result]|] eqn:Et; [|exact H].
  unfold mergeTry in Et.
  destruct (spread (getHistory ls)) as [current|]; [|discriminate].
  destruct (mergeLoop E _ []) as [historyMap|]; [|discriminate].
  destruct (setItem E ls _) as [ls''|] eqn:Es; [|discriminate].
  inversion Et; subst. cbn [fst].
  apply setItem_Some in Es as [-> _]. right.
  eexists. split; [reflexivity|]. apply firstn_le_length.
Qed.

Lemma perform_capped (ls : localStorage) (op : operation) :
  holdsHistory 200 ls -> holdsHistory 200 (perform E ls op).
Proof.
  destruct op; cbn [perform];
    auto using addHistoryItem_capped, updateHistoryItem_capped,
      deleteHistoryItem_capped, deleteMultipleHistoryItems_capped,
      mergeAndSaveHistory_capped.
Qed.

Lemma performAll_capped (ops : list operation) (ls : localStorage) :
  holdsHistory 200 ls -> holdsHistory 200 (performAll E ops ls).
Proof.
  unfold performAll. revert ls; induction ops as [|op ops IH]; intros ls H.
  - exact H.
  - simpl. apply IH. now apply perform_capped.
Qed.

End Store.

(* ================================================================= *)
(** ** The history service: the properties of the specification *)

Import HistoryExamples.

(** C7, amended: from the empty store, after any sequence of calls of the
    service the stored history holds at most 200 items; right after a
    call of [addHistoryItem] whose write the storage accepts it holds at
    most 100 items, the new item first, as [JSON.stringify] writes it,
    and then the first 99 of the previous ones; a call whose write the
    storage refuses leaves the store as it was. *)
Theorem history_is_capped (E : environment) (ops : list operation) :
  let ls := performAll E ops emptyStore in
  length (storedItems ls) <= 200
  /\ forall newItem,
       let newHistory := firstn 100 (newItem :: storedItems ls) in
       (fits E (JArray newHistory) = true ->
          storedItems (addHistoryItem E newItem ls)
          = jsonImage newItem :: firstn 99 (storedItems ls)
          /\ length (storedItems (addHistoryItem E newItem ls)) <= 100)
       /\ (fits E (JArray newHistory) = false ->
             addHistoryItem E newItem ls = ls).
Proof.
  intros ls.
  assert (H : holdsHistory 200 ls)
    by (apply performAll_capped; left; reflexivity).
  destruct (holdsHistory_getHistory H) as (Hget & Hlen & entry & Hls).
  pose proof (holdsHistory_written H) as Hwritten.
  split; [exact Hlen|].
  intros newItem newHistory.
  unfold addHistoryItem. rewrite Hget. cbn [spread]. fold newHistory.
  assert (Hset : setItem E ls (JArray newHistory) =
                 if fits E (JArray newHistory)
                 then Some (Available (Some (JSON_stringify (JArray newHistory))))
                 else None)
    by (rewrite Hls; reflexivity).
  rewrite Hset. split; intros Hfits; rewrite Hfits; [|reflexivity].
  assert (Hstored : storedItems
                      (Available (Some (JSON_stringify (JArray newHistory))))
                    = jsonImage newItem :: firstn 99 (storedItems ls)).
  { change (storedItems
              (Available (Some (JSON_stringify (JArray newHistory)))))
      with (map jsonImage newHistory).
    unfold newHistory. rewrite firstn_cons. cbn [map].
    now rewrite <- firstn_map, Hwritten. }
  rewrite Hstored. split; [reflexivity|].
  pose proof (firstn_le_length 99 (storedItems ls)).
  change (S (length (firstn 99 (storedItems ls))) <= 100). lia.
Qed.

Lemma history_is_capped_witness :
  let ls := performAll browser
              [AddHistoryItem old; MergeAndSaveHistory (JArray smallImport)]
              emptyStore in
  fits browser (JArray (firstn 100 (eternal :: storedItems ls))) = true
  /\ storedItems (addHistoryItem browser eternal ls)
     = jsonImage eternal :: firstn 99 (storedItems ls)
  /\ length (storedItems (addHistoryItem browser eternal ls)) <= 100.
Proof.
  intros ls. split; [reflexivity|].
  apply (history_is_capped browser
           [AddHistoryItem old; MergeAndSaveHistory (JArray smallImport)]).
  reflexivity.
Defined.

(** C7 as stated fails when the storage refuses the write: the exception
    of [setItem] is caught, and the new item is not in the store. *)
Lemma add_on_full_storage_counterexample :
  ~ (forall (E : environment) (ops : list operation) (newItem : json),
       let ls := performAll E ops emptyStore in
       let ls' := perform E ls (AddHistoryItem newItem) in
       length (storedItems ls') <= 100
       /\ storedItems ls' = newItem :: firstn 99 (storedItems ls)).
Proof.
  intros H. specialize (H fullStorage [] old).
  destruct H as [_ H]. vm_compute in H. discriminate H.
Qed.

(** Items with the same time stamp and main sentence have the same key. *)
Lemma keyParts_itemKey (E : environment) (item : json) (t : double)
    (sentence : jsstring) :
  keyParts E item = Some (t, sentence) ->
  itemKey E item = Some (Some (numberToString E t ++ str "-" ++ sentence)).
Proof.
  unfold keyParts, itemKey.
  destruct (getProp item (str "gameMode")) as [gameMode|]; [|discriminate].
  destruct (if strictEq gameMode (GameMode_SentenceCheck E) then _ else _)
    as [mainSentence|]; [|discriminate].
  destruct (getProp item (str "id")) as [id|]; [|discriminate].
  destruct (getProp item (str "timestamp")) as [timestamp|]; [|discriminate].
  destruct id as [[]|]; try discriminate;
    destruct timestamp as [[]|]; try discriminate;
    destruct mainSentence as [[]|]; try discriminate.
  intros H; inversion H; subst. reflexivity.
Qed.

(** C8, amended: when the merge of a stored history with an imported
    array runs to its end (no item is [null], the storage accepts the
    write), the list it stores is the list it returns as [JSON.stringify]
    writes it, an infinite number as [null] and negative zero as [0]; the
    list it returns has at most 200 items, is sorted by time stamp,
    newest first, and holds no key twice.
    Whenever a stored item has a key, an item of the result with that key
    is the first stored item with that key, not an imported one; and that
    stored item is in the result unless the cut to 200 items removed it,
    in which case the result has 200 items, none of them older. *)
Theorem merge_keeps_stored_items (E : environment) (ls ls' : localStorage)
    (current imported : list json) (result : json) :
  getHistory ls = JArray current ->
  mergeTry E imported ls = Some (ls', result) ->
  exists final,
    mergeAndSaveHistory E (JArray imported) ls = (ls', JArray final)
    /\ result = JArray final
    /\ getHistory ls' = jsonImage (JArray final)
    /\ length final <= 200
    /\ StronglySorted notOlder final
    /\ NoDup (map (itemKey E) final)
    /\ (forall x e key,
          In x final -> In e current ->
          itemKey E x = Some (Some key) -> itemKey E e = Some (Some key) ->
          firstKeyed E key current = Some x)
    /\ (forall e key,
          In e current -> itemKey E e = Some (Some key) ->
          exists x,
            firstKeyed E key current = Some x
            /\ (In x final
                \/ (length final = 200 /\ Forall (fun y => notOlder y x) final))).
Proof.
  intros Hget Htry.
  unfold mergeAndSaveHistory. rewrite Htry.
  unfold mergeTry in Htry. rewrite Hget in Htry. cbn [spread] in Htry.
  destruct (mergeLoop E (current ++ imported) []) as [historyMap|] eqn:Eloop;
    [|discriminate].
  set (merged := sortNewestFirst (map snd historyMap)) in *.
  destruct (setItem E ls (JArray (firstn 200 merged))) as [ls''|] eqn:Es;
    [|discriminate].
  inversion Htry; subst ls'' result. clear Htry.
  apply setItem_Some in Es as [-> _].
  exists (firstn 200 merged).
  (* the entries of the map *)
  pose proof (mergeLoop_entries _ _ _ Eloop) as Hentries.
  assert (Hentry : forall key x, In (key, x) historyMap <->
                     firstKeyed E key (current ++ imported) = Some x).
  { intros key x. rewrite Hentries. simpl. tauto. }
  assert (Hmerged : forall x, In x merged <->
                      exists key, firstKeyed E key (current ++ imported) = Some x).
  { intros x. unfold merged. split.
    - intros H. apply (Permutation_in _ (sortNewestFirst_perm _)) in H.
      apply in_map_iff in H as ([key y] & <- & Hin).
      exists key. now apply Hentry.
    - intros (key & Hk). apply Hentry in Hk.
      apply (Permutation_in _ (Permutation_sym (sortNewestFirst_perm _))).
      apply in_map_iff. now exists (key, x). }
  assert (Hstored : forall e key, In e current ->
            itemKey E e = Some (Some key) ->
            exists x, firstKeyed E key current = Some x
                      /\ firstKeyed E key (current ++ imported) = Some x).
  { intros e key Hin Hk. unfold firstKeyed. rewrite find_app.
    destruct (find (hasKey E key) current) as [x|] eqn:Ef; [eauto|].
    apply (find_none _ _ Ef) in Hin. apply hasKey_true in Hk. congruence. }
  assert (Hsorted : StronglySorted notOlder merged)
    by apply sortNewestFirst_sorted.
  repeat split.
  - apply firstn_le_length.
  - now apply StronglySorted_firstn.
  - rewrite <- firstn_map. apply NoDup_firstn.
    apply (Permutation_NoDup
             (Permutation_map _ (Permutation_sym (sortNewestFirst_perm _)))).
    rewrite map_map.
    rewrite (map_ext_in _ (fun entry => Some (Some (fst entry)))).
    + pose proof (mergeLoop_NoDup _ _ _ Eloop (NoDup_nil _)) as Hnd.
      clear - Hnd. induction historyMap as [|a l IH]; simpl; [constructor|].
      inversion Hnd; subst. constructor; [|auto].
      rewrite in_map_iff. intros (b & Hb & Hin). inversion Hb.
      apply H1. rewrite <- H0. now apply in_map.
    + intros [key x] Hin. apply Hentry in Hin.
      apply firstKeyed_key in Hin. simpl. tauto.
  - intros x e key Hx He Hkx Hke.
    apply firstn_In, Hmerged in Hx. destruct Hx as (key' & Hf).
    pose proof (firstKeyed_key _ _ _ Hf) as [_ Hk']. 
    assert (key' = key) by congruence. subst key'.
    destruct (Hstored e key He Hke) as (y & Hy & Hy'). congruence.
  - intros e key He Hke.
    destruct (Hstored e key He Hke) as (x & Hx & Hx').
    exists x. split; [exact Hx|].
    assert (Hin : In x merged) by (apply Hmerged; eauto).
    rewrite <- (firstn_skipn 200 merged) in Hin, Hsorted.
    apply in_app_or in Hin. destruct Hin as [Hin|Hin]; [now left|right].
    split.
    + rewrite length_firstn. apply Nat.min_l.
      destruct (Nat.le_gt_cases 200 (length merged)) as [|Hlt]; [assumption|].
      rewrite skipn_all2 in Hin by lia. destruct Hin.
    + apply Forall_forall. intros y Hy.
      eapply StronglySorted_app_inv; eauto.
Qed.

Lemma merge_keeps_stored_items_witness :
  let outcome := mergeAndSaveHistory browser (JArray smallImport) oldStore in
  getHistory oldStore = JArray [old]
  /\ mergeTry browser smallImport oldStore = Some outcome
  /\ exists final,
       mergeAndSaveHistory browser (JArray smallImport) oldStore
       = (fst outcome, JArray final)
       /\ snd outcome = JArray final
       /\ getHistory (fst outcome) = jsonImage (JArray final)
       /\ length final <= 200
       /\ StronglySorted notOlder final
       /\ NoDup (map (itemKey browser) final)
       /\ (forall x e key,
             In x final -> In e [old] ->
             itemKey browser x = Some (Some key) ->
             itemKey browser e = Some (Some key) ->
             firstKeyed browser key [old] = Some x)
       /\ (forall e key,
             In e [old] -> itemKey browser e = Some (Some key) ->
             exists x,
               firstKeyed browser key [old] = Some x
               /\ (In x final
                   \/ (length final = 200
                       /\ Forall (fun y => notOlder y x) final))).
Proof.
  intros outcome.
  assert (H1 : getHistory oldStore = JArray [old]) by reflexivity.
  assert (H2 : mergeTry browser smallImport oldStore
               = Some (fst outcome, snd outcome))
    by (vm_compute; reflexivity).
  split; [exact H1|]. split; [vm_compute; reflexivity|].
  exact (merge_keeps_stored_items browser oldStore smallImport H1 H2).
Defined.

(** C8 as stated fails on the cut to 200 items: the stored item [old] and
    the imported item [copy] share the time stamp and the main sentence,
    and the merge with 200 newer items returns and stores a list without
    [old]. *)
Lemma merge_cut_drops_stored_item_counterexample :
  In old (storedItems oldStore)
  /\ In copy (newer ++ [copy])
  /\ keyParts browser old = Some (integer 0, str "inu")
  /\ keyParts browser copy = Some (integer 0, str "inu")
  /\ exists final,
       mergeAndSaveHistory browser (JArray (newer ++ [copy])) oldStore
       = (Available (Some (JSONText (JArray final))), JArray final)
       /\ ~ In old final.
Proof.
  split; [left; reflexivity|].
  split; [apply in_or_app; right; left; reflexivity|].
  split; [reflexivity|]. split; [reflexivity|].
  exists (rev newer). split; [vm_compute; reflexivity|].
  intros Hin.
  assert (Hid : existsb (hasId (str "old")) (rev newer) = true).
  { apply existsb_exists. exists old. split; [exact Hin|reflexivity]. }
  vm_compute in Hid. discriminate Hid.
Qed.

(** C9: [getHistory] returns for every state of the storage: the value
    parsed from the entry when there is one and [JSON.parse] accepts it,
    and the empty array when there is no entry, when [JSON.parse] rejects
    the entry, and when the storage refuses the access. *)
Theorem getHistory_never_throws (ls : localStorage) :
  (forall t parsed,
     getItem ls = Some (Some t) -> JSON_parse t = Some parsed ->
     getHistory ls = parsed)
  /\ (getItem ls = Some None -> getHistory ls = JArray [])
  /\ (forall t,
        getItem ls = Some (Some t) -> JSON_parse t = None ->
        getHistory ls = JArray [])
  /\ (getItem ls = None -> getHistory ls = JArray []).
Proof.
  unfold getHistory. repeat split.
  - intros t parsed -> Hp. destruct t; try discriminate.
    inversion Hp; subst. reflexivity.
  - intros ->. reflexivity.
  - intros t -> Hp. destruct t; try discriminate; reflexivity.
  - intros ->. reflexivity.
Qed.

Lemma getHistory_never_throws_witness :
  getItem oldStore = Some (Some (JSON_stringify (JArray [old])))
  /\ JSON_parse (JSON_stringify (JArray [old])) = Some (JArray [old])
  /\ getHistory oldStore = JArray [old]
  /\ getItem emptyStore = Some None
  /\ getHistory emptyStore = JArray []
  /\ getItem (Available (Some Malformed)) = Some (Some Malformed)
  /\ JSON_parse Malformed = None
  /\ getHistory (Available (Some Malformed)) = JArray []
  /\ getItem Unavailable = None
  /\ getHistory Unavailable = JArray [].
Proof.
  destruct (getHistory_never_throws oldStore) as (Hparsed & _).
  destruct (getHistory_never_throws emptyStore) as (_ & Hnull & _).
  destruct (getHistory_never_throws (Available (Some Malformed)))
    as (_ & _ & Hrejected & _).
  destruct (getHistory_never_throws Unavailable) as (_ & _ & _ & Hrefused).
  split; [reflexivity|]. split; [reflexivity|].
  split; [apply Hparsed with (t := JSON_stringify (JArray [old])); reflexivity|].
  split; [reflexivity|].
  split; [apply Hnull; reflexivity|].
  split; [reflexivity|]. split; [reflexivity|].
  split; [apply Hrejected with (t := Malformed); reflexivity|].
  split; [reflexivity|].
  apply Hrefused; reflexivity.
Defined.

(* ================================================================= *)
(** ** The streaming parser: failures, silence and increments *)

Section StreamEdges.

Lemma for_await_app {S} (body : S -> chunk -> Eff S) (cs1 cs2 : list chunk)
    (fin : ending) (st : S) (log : list event) :
  for_await body (cs1 ++ cs2) fin st log =
  match for_await body cs1 EndOfStream st log with
  | (log', Returned st') => for_await body cs2 fin st' log'
  | (log', Thrown) => (log', Thrown)
  end.
Proof.
  revert st log; induction cs1 as [|c cs1 IH]; intros st log.
  - reflexivity.
  - simpl. unfold bind. destruct (body st c log) as [log' [st'|]]; auto.
Qed.

(** A stream that throws before the delimiter has arrived: the text read
    so far is dropped, the handler's message and [onStreamEnd] are the
    only calls. *)
Theorem stream_error_before_delimiter (cs : list chunk) :
  (forall j, ~ occursAt separator (textOf cs) j) ->
  run (Stream cs StreamError)
  = ([OnExplanationChunk errorMessage; OnStreamEnd], Returned tt).
Proof.
  intros Hnone. apply indexOf_None in Hnone.
  now rewrite (run_undelimited cs StreamError Hnone).
Qed.

Lemma stream_error_before_delimiter_witness :
  (forall j, ~ occursAt separator (textOf StreamExamples.undelimited) j)
  /\ run (Stream StreamExamples.undelimited StreamError)
     = ([OnExplanationChunk errorMessage; OnStreamEnd], Returned tt).
Proof.
  assert (H : forall j, ~ occursAt separator (textOf StreamExamples.undelimited) j)
    by (apply indexOf_None; vm_compute; reflexivity).
  split; [exact H|].
  exact (stream_error_before_delimiter StreamExamples.undelimited H).
Defined.

(** A stream that throws after the delimiter: the structured call was
    made, and the explanation is the text after the delimiter followed by
    the handler's message. *)
Theorem stream_error_after_delimiter (cs : list chunk) (i : nat) :
  firstOccurrence separator (textOf cs) i ->
  let log := calls_of (Stream cs StreamError) in
  structuredCalls log = [parseFields (substring (textOf cs) 0 i)]
  /\ explanationText log
     = substringFrom (textOf cs) (i + length separator) ++ errorMessage
  /\ streamEnds log = 1.
Proof.
  intros Hi log. apply indexOf_first in Hi.
  destruct (run_delimited cs StreamError Hi) as (es & Hrun & Hcat & _).
  subst log. unfold calls_of. rewrite Hrun. cbn [fst closingCalls].
  structured_call_apart.
  repeat split.
  - rewrite !structuredCalls_app, structuredCalls_chunks. reflexivity.
  - rewrite !explanationText_app. unfold explanationText at 2.
    rewrite explanationChunks_chunks, Hcat.
    change (explanationText [OnStructuredData ?d]) with (@nil code_unit).
    change (explanationText [OnExplanationChunk errorMessage; OnStreamEnd])
      with (errorMessage ++ []).
    now rewrite app_nil_r.
  - rewrite !streamEnds_app, streamEnds_chunks. reflexivity.
Qed.

Lemma stream_error_after_delimiter_witness :
  firstOccurrence separator (textOf StreamExamples.twoDelimiters)
    (length StreamExamples.header)
  /\ explanationText (calls_of (Stream StreamExamples.twoDelimiters StreamError))
     = (str "first" ++ separator ++ str "second") ++ errorMessage.
Proof.
  assert (H : firstOccurrence separator (textOf StreamExamples.twoDelimiters)
                (length StreamExamples.header))
    by (apply indexOf_first; vm_compute; reflexivity).
  split; [exact H|].
  exact (proj1 (proj2 (stream_error_after_delimiter
                         StreamExamples.twoDelimiters H))).
Defined.

(** A stream that ends without any text: [onStreamEnd] is the only call,
    there is no structured data. *)
Theorem silent_stream_only_ends (cs : list chunk) :
  textOf cs = [] ->
  run (Stream cs EndOfStream) = ([OnStreamEnd], Returned tt).
Proof.
  intros Ht.
  assert (Hi : indexOf separator (textOf cs) = None) by now rewrite Ht.
  rewrite (run_undelimited cs EndOfStream Hi), Ht. reflexivity.
Qed.

Lemma silent_stream_only_ends_witness :
  textOf StreamFormat.silent = []
  /\ run (Stream StreamFormat.silent EndOfStream) = ([OnStreamEnd], Returned tt).
Proof.
  split; [reflexivity|].
  apply silent_stream_only_ends. reflexivity.
Defined.

(** After the delimiter the explanation is streamed: whatever follows a
    chunk sequence that holds the delimiter adds one call of
    [onExplanationChunk] per chunk with a non-empty text, with that very
    text, to the calls made so far. *)
Theorem explanation_is_streamed (cs1 cs2 : list chunk) (fin : ending) (i : nat) :
  indexOf separator (textOf cs1) = Some i ->
  exists before,
    calls_of (Stream cs1 EndOfStream) = before ++ [OnStreamEnd]
    /\ calls_of (Stream (cs1 ++ cs2) fin)
       = before ++ map OnExplanationChunk (nonEmptyTexts cs2) ++ closingCalls fin.
Proof.
  intros Hi.
  pose proof (for_await_unparsed EndOfStream cs1 initial [] eq_refl eq_refl) as H.
  cbn zeta in H. change (buffer initial ++ textOf cs1) with (textOf cs1) in H.
  rewrite Hi in H. destruct H as (es & b & Hloop & _ & _). cbn [ended] in Hloop.
  exists ([] ++ OnStructuredData (parseFields (substring (textOf cs1) 0 i))
             :: map OnExplanationChunk es).
  unfold calls_of. rewrite !run_unfold. unfold tryBody, bind.
  cbn [chunks finish]. rewrite for_await_app, Hloop.
  rewrite fallback_parsed by reflexivity.
  rewrite for_await_parsed by reflexivity.
  split; [reflexivity|].
  destruct fin; cbn [ended closingCalls fst].
  - rewrite fallback_parsed by reflexivity. cbn [fst].
    now rewrite <- !app_assoc.
  - now rewrite <- !app_assoc.
Qed.

Lemma explanation_is_streamed_witness :
  indexOf separator (textOf (firstn 4 StreamExamples.twoDelimiters))
  = Some (length StreamExamples.header)
  /\ exists before,
       calls_of (Stream (firstn 4 StreamExamples.twoDelimiters) EndOfStream)
       = before ++ [OnStreamEnd]
       /\ calls_of (Stream (firstn 4 StreamExamples.twoDelimiters
                            ++ skipn 4 StreamExamples.twoDelimiters) StreamError)
          = before
            ++ map OnExplanationChunk
                 (nonEmptyTexts (skipn 4 StreamExamples.twoDelimiters))
            ++ closingCalls StreamError.
Proof.
  assert (H : indexOf separator (textOf (firstn 4 StreamExamples.twoDelimiters))
              = Some (length StreamExamples.header))
    by (vm_compute; reflexivity).
  split; [exact H|].
  exact (explanation_is_streamed (firstn 4 StreamExamples.twoDelimiters)
           (skipn 4 StreamExamples.twoDelimiters) StreamError H).
Defined.

End StreamEdges.

(* ================================================================= *)
(** ** The streaming parser: an answer in the format of the prompt *)

Import StreamFormat.

Section Format.

Lemma takeWhile_app_all (p : code_unit -> bool) (a b : jsstring) :
  forallb p a = true -> takeWhile p (a ++ b) = a ++ takeWhile p b.
Proof.
  induction a as [|c a IH]; simpl; [reflexivity|].
  intros H. apply andb_true_iff in H as [-> H]. now rewrite IH.
Qed.

Lemma takeWhile_all (p : code_unit -> bool) (a : jsstring) :
  forallb p a = true -> takeWhile p a = a.
Proof.
  intros H. rewrite <- (app_nil_r a) at 1.
  rewrite takeWhile_app_all by exact H. apply app_nil_r.
Qed.

Lemma isDigit_not_space (c : code_unit) :
  isDigit c = true -> isSpace c = false /\ isDot c = true.
Proof.
  unfold isDigit, isSpace, isDot, isWhiteSpaceChar, isLineTerminator.
  intros H. apply andb_true_iff in H as [H1 H2].
  apply N.leb_le in H1. apply N.leb_le in H2.
  repeat match goal with
         | |- context [(c =? ?k)%N] =>
             destruct (N.eqb_spec c k); [lia|]
         end.
  destruct (N.leb_spec 8192 c); [lia|]. split; reflexivity.
Qed.

Lemma digits_oneLine (ds : jsstring) :
  forallb isDigit ds = true -> oneLine ds = true.
Proof.
  unfold oneLine. induction ds as [|d ds IH]; simpl; [reflexivity|].
  intros H. apply andb_true_iff in H as [Hd H].
  apply isDigit_not_space in Hd as [_ ->]. now apply IH.
Qed.

Lemma splitLines_oneLine (a : jsstring) :
  oneLine a = true -> splitLines a = [a].
Proof.
  unfold oneLine. induction a as [|c a IH]; [reflexivity|].
  simpl forallb. intros H. apply andb_true_iff in H as [Hc H].
  rewrite splitLines_cons. unfold isDot in Hc.
  destruct (isLineTerminator c); [discriminate|].
  now rewrite (IH H).
Qed.

Lemma splitLines_app_line (a rest : jsstring) :
  oneLine a = true -> splitLines (a ++ LF :: rest) = a :: splitLines rest.
Proof.
  unfold oneLine. induction a as [|c a IH]; [reflexivity|].
  simpl forallb. intros H. apply andb_true_iff in H as [Hc H].
  rewrite <- app_comm_cons, splitLines_cons. unfold isDot in Hc.
  destruct (isLineTerminator c); [discriminate|].
  now rewrite (IH H).
Qed.

Lemma oneLine_app (a b : jsstring) :
  oneLine a = true -> oneLine b = true -> oneLine (a ++ b) = true.
Proof.
  unfold oneLine. intros Ha Hb. rewrite forallb_app, Ha, Hb. reflexivity.
Qed.

Lemma trim_leading_space (s : jsstring) : trim (32%N :: s) = trim s.
Proof. reflexivity. Qed.

Variables digits evaluationText corrected : jsstring.
Hypothesis some_digit : digits <> [].
Hypothesis all_digits : forallb isDigit digits = true.
Hypothesis evaluation_line : oneLine evaluationText = true.
Hypothesis corrected_line : oneLine corrected = true.
Hypothesis evaluation_text : hasText evaluationText = true.
Hypothesis corrected_text : hasText corrected = true.

Lemma formattedHeader_lines :
  formattedHeader digits evaluationText corrected
  = (str "score: " ++ digits)
      ++ LF :: (str "evaluation: " ++ evaluationText)
      ++ LF :: (str "correctedSentence: " ++ corrected).
Proof.
  unfold formattedHeader. rewrite <- !app_assoc.
  repeat (rewrite <- ?app_comm_cons; f_equal).
Qed.

Lemma formattedHeader_split :
  splitLines (formattedHeader digits evaluationText corrected)
  = [ str "score: " ++ digits;
      str "evaluation: " ++ evaluationText;
      str "correctedSentence: " ++ corrected ].
Proof.
  rewrite formattedHeader_lines.
  rewrite splitLines_app_line
    by (apply oneLine_app; [reflexivity|now apply digits_oneLine]).
  rewrite splitLines_app_line by (apply oneLine_app; [reflexivity|assumption]).
  rewrite splitLines_oneLine by (apply oneLine_app; [reflexivity|assumption]).
  reflexivity.
Qed.

Lemma formattedHeader_score :
  matchDigitsField (str "score:")
    (formattedHeader digits evaluationText corrected) = Some digits.
Proof.
  destruct digits as [|d ds] eqn:Ed; [congruence|].
  cbn [forallb] in all_digits.
  apply andb_true_iff in all_digits as [Hd Hds].
  destruct (isDigit_not_space _ Hd) as [Hsp _].
  unfold matchDigitsField, formattedHeader.
  change (str "score: " ++ (d :: ds) ++ ?r)
    with (str "score:" ++ 32%N :: ((d :: ds) ++ r)).
  set (rest := LF :: _).
  assert (Hat : litSpacesDigits (str "score:")
                  (str "score:" ++ 32%N :: (d :: ds) ++ rest) = Some (d :: ds)).
  { unfold litSpacesDigits. rewrite stripPrefix_app.
    change (dropWhile isSpace (32%N :: (d :: ds) ++ rest))
      with (dropWhile isSpace ((d :: ds) ++ rest)).
    rewrite <- app_comm_cons. cbn [dropWhile]. rewrite Hsp.
    rewrite app_comm_cons, takeWhile_app_all
      by (cbn [forallb]; now rewrite Hd, Hds).
    subst rest. cbn [takeWhile]. change (isDigit LF) with false.
    cbn iota. now rewrite app_nil_r. }
  change (str "score:" ++ 32%N :: (d :: ds) ++ rest)
    with (115%N :: (skipn 1 (str "score:") ++ 32%N :: (d :: ds) ++ rest)) in *.
  cbn [searchLines]. now rewrite Hat.
Qed.

(** The three fields of a formatted header. *)
Lemma formattedHeader_fields :
  parseFields (formattedHeader digits evaluationText corrected)
  = {| score := roundToDouble (decimalValue digits);
       evaluation := trim evaluationText;
       correctedSentence := trim corrected |}.
Proof.
  unfold parseFields. rewrite formattedHeader_score.
  rewrite (@matchRestField_line_based (str "evaluation:")
             ltac:(discriminate) eq_refl _ defaultEvaluation).
  2:{ rewrite formattedHeader_split.
      intros line [<-|[<-|[<-|[]]]]; try (intros H; discriminate H).
      intros _. exact evaluation_text. }
  rewrite (@matchRestField_line_based (str "correctedSentence:")
             ltac:(discriminate) eq_refl _ defaultCorrectedSentence).
  2:{ rewrite formattedHeader_split.
      intros line [<-|[<-|[<-|[]]]]; try (intros H; discriminate H).
      intros _. exact corrected_text. }
  unfold specLineField. rewrite formattedHeader_split.
  f_equal.
  unfold parseInt10. rewrite takeWhile_all by exact all_digits.
  destruct digits; [congruence|reflexivity].
Qed.

End Format.

Section FormattedAnswer.

Lemma separator_not_inside_line (a rest : jsstring) (k : nat) :
  oneLine a = true ->
  indexOfFrom separator (a ++ rest) k
  = indexOfFrom separator rest (k + length a).
Proof.
  unfold oneLine. revert k; induction a as [|c a IH]; intros k H.
  - simpl. f_equal. lia.
  - simpl forallb in H. apply andb_true_iff in H as [Hc H].
    rewrite <- app_comm_cons, indexOfFrom_unfold.
    assert (Hno : startsWith separator (c :: a ++ rest) = false).
    { unfold startsWith. change separator with (LF :: (str "--- " ++ [LF])).
      cbn [stripPrefix]. unfold isDot, isLineTerminator in Hc.
      destruct (N.eqb_spec LF c) as [<-|]; [discriminate Hc|reflexivity]. }
    rewrite Hno, (IH _ H). f_equal. simpl. lia.
Qed.

Lemma separator_not_at_line_end (c : code_unit) (rest : jsstring) (k : nat) :
  (c =? 45)%N = false ->
  indexOfFrom separator (LF :: c :: rest) k
  = indexOfFrom separator (c :: rest) (S k).
Proof.
  intros Hc. rewrite indexOfFrom_unfold.
  assert (Hno : startsWith separator (LF :: c :: rest) = false).
  { unfold startsWith. change separator with (LF :: 45%N :: (str "-- " ++ [LF])).
    cbn [stripPrefix]. change (LF =? LF)%N with true. cbn iota.
    rewrite N.eqb_sym, Hc. reflexivity. }
  now rewrite Hno.
Qed.

(** Three lines, the later two not starting with a hyphen, hold no
    delimiter: the first one is the one that follows them. *)
Lemma three_lines_delimiter (l1 l2 l3 r2 r3 rest : jsstring) (c2 c3 : code_unit) :
  oneLine l1 = true -> oneLine l2 = true -> oneLine l3 = true ->
  l2 = c2 :: r2 -> (c2 =? 45)%N = false ->
  l3 = c3 :: r3 -> (c3 =? 45)%N = false ->
  indexOf separator ((l1 ++ LF :: l2 ++ LF :: l3) ++ separator ++ rest)
  = Some (length (l1 ++ LF :: l2 ++ LF :: l3)).
Proof.
  intros H1 H2 H3 E2 Hc2 E3 Hc3. unfold indexOf.
  rewrite <- (app_assoc l1), separator_not_inside_line by exact H1.
  rewrite <- !app_comm_cons, <- (app_assoc l2).
  rewrite E2 at 1. rewrite <- app_comm_cons.
  rewrite separator_not_at_line_end by exact Hc2.
  rewrite app_comm_cons, <- E2, separator_not_inside_line by exact H2.
  rewrite <- !app_comm_cons.
  rewrite E3 at 1. rewrite <- app_comm_cons.
  rewrite separator_not_at_line_end by exact Hc3.
  rewrite app_comm_cons, <- E3, separator_not_inside_line by exact H3.
  rewrite indexOfFrom_unfold.
  assert (Hat : startsWith separator (separator ++ rest) = true)
    by (apply startsWith_true; eauto).
  rewrite Hat. f_equal. rewrite !length_app. simpl. rewrite length_app.
  simpl. lia.
Qed.

Variables digits evaluationText corrected explanation : jsstring.
Hypothesis all_digits : forallb isDigit digits = true.
Hypothesis evaluation_line : oneLine evaluationText = true.
Hypothesis corrected_line : oneLine corrected = true.

Lemma formattedHeader_delimiter :
  indexOf separator
    (formattedHeader digits evaluationText corrected ++ separator ++ explanation)
  = Some (length (formattedHeader digits evaluationText corrected)).
Proof.
  rewrite formattedHeader_lines.
  apply three_lines_delimiter with
    (c2 := 101%N) (r2 := skipn 1 (str "evaluation: ") ++ evaluationText)
    (c3 := 99%N) (r3 := skipn 1 (str "correctedSentence: ") ++ corrected);
    try reflexivity.
  - apply oneLine_app; [reflexivity|now apply digits_oneLine].
  - apply oneLine_app; [reflexivity|assumption].
  - apply oneLine_app; [reflexivity|assumption].
Qed.

End FormattedAnswer.

(** An answer in the format that the prompt prescribes, however it is cut
    into chunks, gives the number of the score line, the trimmed texts of
    the other two lines and, as the explanation, all that follows the
    delimiter. *)
Theorem formatted_answer_is_read
    (cs : list chunk) (digits evaluationText corrected explanation : jsstring) :
  textOf cs
  = formattedHeader digits evaluationText corrected ++ separator ++ explanation ->
  digits <> [] ->
  forallb isDigit digits = true ->
  oneLine evaluationText = true -> hasText evaluationText = true ->
  oneLine corrected = true -> hasText corrected = true ->
  run (Stream cs EndOfStream) = (calls_of (Stream cs EndOfStream), Returned tt)
  /\ structuredCalls (calls_of (Stream cs EndOfStream))
     = [ {| score := roundToDouble (decimalValue digits);
            evaluation := trim evaluationText;
            correctedSentence := trim corrected |} ]
  /\ explanationText (calls_of (Stream cs EndOfStream)) = explanation.
Proof.
  intros Htext Hd Hds He1 He2 Hc1 Hc2.
  pose proof (@formattedHeader_delimiter digits evaluationText corrected
                explanation Hds He1 Hc1) as Hi.
  rewrite <- Htext in Hi.
  destruct (run_delimited cs EndOfStream Hi) as (es & Hrun & Hcat & _).
  unfold calls_of. rewrite Hrun. cbn [fst closingCalls].
  split; [reflexivity|].
  structured_call_apart.
  assert (Hheader : substring (textOf cs) 0
                      (length (formattedHeader digits evaluationText corrected))
                    = formattedHeader digits evaluationText corrected).
  { rewrite Htext. unfold substring. rewrite Nat.sub_0_r. cbn [skipn].
    rewrite firstn_app, Nat.sub_diag, firstn_all. cbn [firstn].
    apply app_nil_r. }
  split.
  - rewrite !structuredCalls_app, structuredCalls_chunks, Hheader.
    rewrite formattedHeader_fields by assumption. reflexivity.
  - assert (Hrest : substringFrom (textOf cs)
                      (length (formattedHeader digits evaluationText corrected)
                       + length separator) = explanation).
    { rewrite Htext. unfold substringFrom.
      rewrite app_assoc, <- length_app, skipn_app, Nat.sub_diag, skipn_all.
      reflexivity. }
    rewrite !explanationText_app. unfold explanationText at 2.
    rewrite explanationChunks_chunks, Hcat, Hrest.
    change (explanationText [OnStructuredData ?d]) with (@nil code_unit).
    change (explanationText [OnStreamEnd]) with (@nil code_unit).
    apply app_nil_r.
Qed.

Lemma formatted_answer_is_read_witness :
  textOf formattedChunks
  = formattedHeader (str "85") (str "good") (str "neko desu")
      ++ separator ++ str "well done"
  /\ structuredCalls (calls_of (Stream formattedChunks EndOfStream))
     = [ {| score := Finite 85;
            evaluation := str "good";
            correctedSentence := str "neko desu" |} ]
  /\ explanationText (calls_of (Stream formattedChunks EndOfStream))
     = str "well done".
Proof.
  assert (H : textOf formattedChunks
              = formattedHeader (str "85") (str "good") (str "neko desu")
                  ++ separator ++ str "well done") by reflexivity.
  split; [exact H|].
  exact (proj2 (@formatted_answer_is_read formattedChunks (str "85")
                  (str "good") (str "neko desu") (str "well done") H
                  ltac:(discriminate) eq_refl eq_refl eq_refl eq_refl eq_refl)).
Defined.

(* ================================================================= *)
(** ** The history service: what a merge returns and keeps *)

Import HistoryNotions.

Section MergeOutcome.

Variable E : environment.

(** The stages of a merge that runs to its end. *)
Lemma mergeTry_stages (ls ls' : localStorage) (imported : list json)
    (result : json) :
  mergeTry E imported ls = Some (ls', result) ->
  exists current historyMap,
    spread (getHistory ls) = Some current
    /\ mergeLoop E (current ++ imported) [] = Some historyMap
    /\ result = JArray (firstn 200 (sortNewestFirst (map snd historyMap)))
    /\ ls' = Available (Some (JSON_stringify result))
    /\ fits E result = true
    /\ exists entry, ls = Available entry.
Proof.
  unfold mergeTry. intros H.
  destruct (spread (getHistory ls)) as [current|]; [|discriminate].
  destruct (mergeLoop E (current ++ imported) []) as [historyMap|] eqn:Eloop;
    [|discriminate].
  destruct (setItem E ls _) as [ls''|] eqn:Es; [|discriminate].
  inversion H; subst. exists current, historyMap.
  pose proof (setItem_Some _ _ _ Es) as [-> Hfits].
  repeat split; auto.
  destruct ls; [discriminate Es|eauto].
Qed.

(** Whatever happens in a merge, the store afterwards holds the history
    that the merge returns, as [JSON.stringify] writes it: the merged
    list, with its infinite numbers turned into [null] and negative zero
    into [0], when it was written, and otherwise the stored history, left
    untouched and returned as it was read. So what is returned and what
    is stored are written alike, and they are the same whenever writing
    changes nothing in what is returned. *)
Theorem merge_returns_what_is_stored (importedHistory : json) (ls : localStorage) :
  let returned := snd (mergeAndSaveHistory E importedHistory ls) in
  let stored := getHistory (fst (mergeAndSaveHistory E importedHistory ls)) in
  (stored = returned \/ stored = jsonImage returned)
  /\ jsonImage stored = jsonImage returned
  /\ (jsonImage returned = returned -> stored = returned).
Proof.
  assert (H : getHistory (fst (mergeAndSaveHistory E importedHistory ls))
              = snd (mergeAndSaveHistory E importedHistory ls)
              \/ getHistory (fst (mergeAndSaveHistory E importedHistory ls))
                 = jsonImage (snd (mergeAndSaveHistory E importedHistory ls))).
  { unfold mergeAndSaveHistory.
    destruct importedHistory as [| | | |imported|]; try (left; reflexivity).
    destruct (mergeTry E imported ls) as [[ls' result]|] eqn:Et;
      [|left; reflexivity].
    apply mergeTry_stages in Et as (_ & _ & _ & _ & _ & -> & _).
    right. reflexivity. }
  cbv zeta. split; [exact H|]. split.
  - destruct H as [->| ->]; [reflexivity|apply jsonImage_idempotent].
  - intros Hsame. destruct H as [H|H]; [exact H|]. now rewrite H.
Qed.

Lemma mergeLoop_null (items : list json) (historyMap : list (jsstring * json)) :
  In JNull items -> mergeLoop E items historyMap = None.
Proof.
  revert historyMap; induction items as [|item rest IH];
    intros historyMap Hin; [destruct Hin|].
  simpl. destruct Hin as [->|Hin]; [reflexivity|].
  destruct (itemKey E item) as [[key|]|]; auto.
  destruct (mapHas key historyMap); auto.
Qed.

(** One [null] element in the imported array makes the loop throw: the
    merge is given up as a whole, the store is left as it was and the
    stored history is returned. *)
Theorem merge_aborts_on_null (imported : list json) (ls : localStorage) :
  In JNull imported ->
  mergeAndSaveHistory E (JArray imported) ls = (ls, getHistory ls).
Proof.
  intros Hin. unfold mergeAndSaveHistory, mergeTry.
  destruct (spread (getHistory ls)) as [current|]; [|reflexivity].
  rewrite mergeLoop_null by (apply in_or_app; now right).
  reflexivity.
Qed.

(** The items of a completed merge are items of the stored history or of
    the import, and each of them passed the validation: it has a string
    [id], a number [timestamp] and a string as its main sentence. *)
Theorem merge_result_is_valid (ls ls' : localStorage)
    (current imported final : list json) :
  getHistory ls = JArray current ->
  mergeTry E imported ls = Some (ls', JArray final) ->
  forall x, In x final ->
    In x (current ++ imported)
    /\ exists t sentence, keyParts E x = Some (t, sentence).
Proof.
  intros Hget Htry x Hx.
  apply mergeTry_stages in Htry
    as (current' & historyMap & Hspread & Hloop & Hres & _).
  rewrite Hget in Hspread. inversion Hspread; subst current'.
  assert (Hfinal : final = firstn 200 (sortNewestFirst (map snd historyMap)))
    by congruence.
  rewrite Hfinal in Hx. clear Hres Hfinal.
  apply firstn_In in Hx.
  apply (Permutation_in _ (sortNewestFirst_perm _)) in Hx.
  apply in_map_iff in Hx as ([key y] & Hy & Hin). simpl in Hy; subst y.
  apply (mergeLoop_entries _ _ _ Hloop) in Hin.
  destruct Hin as [[]|[_ Hf]].
  apply firstKeyed_key in Hf as [Hin Hkey]. split; [exact Hin|].
  clear - Hkey. unfold itemKey in Hkey. unfold keyParts.
  destruct (getProp x (str "gameMode")) as [gameMode|]; [|discriminate].
  destruct (if strictEq gameMode (GameMode_SentenceCheck E) then _ else _)
    as [mainSentence|]; [|discriminate].
  destruct (getProp x (str "id")) as [id|]; [|discriminate].
  destruct (getProp x (str "timestamp")) as [timestamp|]; [|discriminate].
  destruct id as [[]|]; try discriminate;
    destruct timestamp as [[]|]; try discriminate;
    destruct mainSentence as [[]|]; try discriminate.
  eauto.
Qed.

End MergeOutcome.

Lemma merge_returns_what_is_stored_witness :
  jsonImage (JArray [numbered 1; old]) = JArray [numbered 1; old]
  /\ getHistory (fst (mergeAndSaveHistory browser (JArray [numbered 1]) oldStore))
     = JArray [numbered 1; old].
Proof.
  split; [reflexivity|].
  exact (proj2 (proj2 (@merge_returns_what_is_stored browser
                         (JArray [numbered 1]) oldStore)) eq_refl).
Defined.

(** An imported item with an infinite time stamp is valid for the merge,
    which returns it first; the store then holds it with [null] for its
    time stamp, so that what is returned is not what is stored. *)
Example infinite_timestamp_is_stored_as_null :
  let outcome := mergeAndSaveHistory browser (JArray [old; eternal]) oldStore in
  snd outcome = JArray [eternal; old]
  /\ getHistory (fst outcome) = JArray [eternalStored; old]
  /\ jsonImage eternal = eternalStored
  /\ snd outcome <> getHistory (fst outcome).
Proof.
  intros outcome.
  split; [vm_compute; reflexivity|].
  split; [vm_compute; reflexivity|].
  split; [reflexivity|].
  vm_compute. discriminate.
Qed.

Lemma merge_aborts_on_null_witness :
  In JNull [numbered 1; JNull]
  /\ mergeAndSaveHistory browser (JArray [numbered 1; JNull]) oldStore
     = (oldStore, getHistory oldStore).
Proof.
  assert (H : In JNull [numbered 1; JNull]) by (right; left; reflexivity).
  split; [exact H|].
  exact (merge_aborts_on_null browser [numbered 1; JNull] oldStore H).
Defined.

Lemma merge_result_is_valid_witness :
  let outcome := mergeAndSaveHistory browser
                   (JArray [JNumber (integer 3); copy; numbered 1]) oldStore in
  getHistory oldStore = JArray [old]
  /\ mergeTry browser [JNumber (integer 3); copy; numbered 1] oldStore
     = Some (fst outcome, JArray [numbered 1; old])
  /\ forall x, In x [numbered 1; old] ->
       In x ([old] ++ [JNumber (integer 3); copy; numbered 1])
       /\ exists t sentence, keyParts browser x = Some (t, sentence).
Proof.
  intros outcome.
  assert (H1 : getHistory oldStore = JArray [old]) by reflexivity.
  assert (H2 : mergeTry browser [JNumber (integer 3); copy; numbered 1] oldStore
               = Some (fst outcome, JArray [numbered 1; old]))
    by (vm_compute; reflexivity).
  split; [exact H1|]. split; [exact H2|].
  exact (merge_result_is_valid browser oldStore [JNumber (integer 3); copy; numbered 1]
           H1 H2).
Defined.

(* ================================================================= *)
(** ** The history service: merging twice *)

Section MergeTwice.

Variable E : environment.

Lemma mergeLoop_app (l1 l2 : list json) (map0 : list (jsstring * json)) :
  mergeLoop E (l1 ++ l2) map0 =
  match mergeLoop E l1 map0 with
  | Some map1 => mergeLoop E l2 map1
  | None => None
  end.
Proof.
  revert map0; induction l1 as [|item rest IH]; intros map0; [reflexivity|].
  simpl. destruct (itemKey E item) as [[key|]|]; auto.
  destruct (mapHas key map0); auto.
Qed.

Lemma mergeLoop_length (items : list json) (map0 map1 : list (jsstring * json)) :
  mergeLoop E items map0 = Some map1 ->
  length map1 <= length map0 + length items.
Proof.
  revert map0; induction items as [|item rest IH]; intros map0 H; simpl in H.
  - inversion H; subst. lia.
  - destruct (itemKey E item) as [[key|]|]; [| |discriminate].
    + destruct (mapHas key map0).
      * apply IH in H. simpl. lia.
      * apply IH in H. rewrite length_app in H. simpl in *. lia.
    + apply IH in H. simpl. lia.
Qed.

Lemma mergeLoop_no_throw (items : list json) (map0 map1 : list (jsstring * json)) :
  mergeLoop E items map0 = Some map1 ->
  forall x, In x items -> itemKey E x <> None.
Proof.
  revert map0; induction items as [|item rest IH]; intros map0 H x Hin;
    [destruct Hin|].
  simpl in H. destruct (itemKey E item) as [[key|]|] eqn:Ek; [| |discriminate].
  - destruct Hin as [<-|Hin]; [congruence|].
    destruct (mapHas key map0); eauto.
  - destruct Hin as [<-|Hin]; [congruence|eauto].
Qed.

(** Items whose keys the map already has, and invalid items, leave the map
    as it is. *)
Lemma mergeLoop_absorbed (items : list json) (map0 : list (jsstring * json)) :
  (forall x, In x items ->
     itemKey E x = Some None
     \/ exists key, itemKey E x = Some (Some key) /\ In key (map fst map0)) ->
  mergeLoop E items map0 = Some map0.
Proof.
  induction items as [|item rest IH]; intros H; [reflexivity|].
  simpl. destruct (H item (or_introl eq_refl)) as [->|(key & -> & Hin)].
  - apply IH. intros x Hx. apply H. now right.
  - apply mapHas_true in Hin. rewrite Hin.
    apply IH. intros x Hx. apply H. now right.
Qed.

(** Valid items with keys that are new and pairwise distinct all enter the
    map, in their order. *)
Lemma mergeLoop_fresh (items : list json) (map0 : list (jsstring * json)) :
  (forall x, In x items -> itemKey E x = Some (Some (keyOf E x))) ->
  NoDup (map fst map0 ++ map (keyOf E) items) ->
  mergeLoop E items map0
  = Some (map0 ++ map (fun x => (keyOf E x, x)) items).
Proof.
  revert map0; induction items as [|item rest IH]; intros map0 Hvalid Hnd.
  - simpl. now rewrite app_nil_r.
  - simpl. rewrite (Hvalid item (or_introl eq_refl)).
    assert (Hnew : mapHas (keyOf E item) map0 = false).
    { apply mapHas_false. intros Hin.
      apply NoDup_remove_2 in Hnd. apply Hnd, in_or_app. now left. }
    rewrite Hnew, IH.
    + now rewrite <- app_assoc.
    + intros x Hx. apply Hvalid. now right.
    + rewrite map_app, <- app_assoc. exact Hnd.
Qed.

Lemma sortNewestFirst_sorted_id (l : list json) :
  StronglySorted notOlder l -> sortNewestFirst l = l.
Proof.
  induction l as [|x l IH]; intros H; [reflexivity|].
  inversion H as [|? ? Hs Hall]; subst. simpl. rewrite (IH Hs).
  destruct l as [|y l']; [reflexivity|]. simpl.
  inversion Hall as [|? ? Hxy _]; subst. unfold notOlder in Hxy.
  now rewrite Hxy.
Qed.

(** Merging the same import a second time changes nothing, when the first
    merge had nothing to cut (the stored and the imported items together
    are at most 200) and returned a history that is written as it is (no
    infinite number, no negative zero): it stores and returns the same
    history again. *)
Theorem merge_is_idempotent (ls ls' : localStorage)
    (current imported final : list json) :
  getHistory ls = JArray current ->
  length current + length imported <= 200 ->
  mergeTry E imported ls = Some (ls', JArray final) ->
  jsonImage (JArray final) = JArray final ->
  mergeAndSaveHistory E (JArray imported) ls' = (ls', JArray final).
Proof.
  intros Hget Hlen Htry Hwritten.
  apply mergeTry_stages in Htry
    as (current' & historyMap & Hspread & Hloop & Hres & Hls' & Hfits & _).
  rewrite Hget in Hspread. inversion Hspread; subst current'. clear Hspread.
  set (merged := sortNewestFirst (map snd historyMap)) in *.
  assert (Hperm : Permutation merged (map snd historyMap))
    by apply sortNewestFirst_perm.
  assert (Hfinal : final = merged).
  { assert (final = firstn 200 merged) by congruence. subst final.
    apply firstn_all2.
    rewrite (Permutation_length Hperm), length_map.
    pose proof (mergeLoop_length _ _ Hloop) as Hl.
    rewrite length_app in Hl. simpl in Hl. lia. }
  subst final. clear Hres.
  assert (Hread : getHistory ls' = JArray merged)
    by (rewrite Hls'; exact Hwritten).
  (* the entries of the first map *)
  assert (Hentry : forall key x, In (key, x) historyMap ->
                     itemKey E x = Some (Some key)).
  { intros key x Hin. apply (mergeLoop_entries _ _ _ Hloop) in Hin.
    destruct Hin as [[]|[_ Hf]]. now apply firstKeyed_key in Hf. }
  assert (Hkeys : map (keyOf E) (map snd historyMap) = map fst historyMap).
  { rewrite map_map. apply map_ext_in. intros [key x] Hin.
    unfold keyOf. simpl. now rewrite (Hentry key x Hin). }
  assert (Hpermk : Permutation (map (keyOf E) merged) (map fst historyMap)).
  { rewrite <- Hkeys. now apply Permutation_map. }
  assert (Hvalid : forall x, In x merged ->
                     itemKey E x = Some (Some (keyOf E x))).
  { intros x Hx. apply (Permutation_in _ Hperm) in Hx.
    apply in_map_iff in Hx as ([key y] & Hy & Hin). simpl in Hy; subst y.
    unfold keyOf. now rewrite (Hentry key x Hin). }
  assert (Hnd : NoDup (map (keyOf E) merged)).
  { apply (Permutation_NoDup (Permutation_sym Hpermk)).
    exact (mergeLoop_NoDup _ _ _ Hloop (NoDup_nil _)). }
  (* the second merge *)
  unfold mergeAndSaveHistory, mergeTry.
  rewrite Hread. cbn [spread].
  rewrite mergeLoop_app, (mergeLoop_fresh merged [] Hvalid Hnd).
  cbn [app].
  rewrite mergeLoop_absorbed.
  - assert (Hshort : length merged <= 200).
    { rewrite (Permutation_length Hperm), length_map.
      pose proof (mergeLoop_length _ _ Hloop) as Hl.
      rewrite length_app in Hl. simpl in Hl. lia. }
    assert (Hsorted : sortNewestFirst merged = merged)
      by apply sortNewestFirst_sorted_id, sortNewestFirst_sorted.
    rewrite map_map. cbn [snd]. rewrite map_id, Hsorted.
    rewrite firstn_all2 by exact Hshort.
    rewrite Hls'. cbn [setItem]. rewrite Hfits. reflexivity.
  - intros x Hx.
    assert (Hin : In x (current ++ imported)) by (apply in_or_app; now right).
    pose proof (mergeLoop_no_throw _ _ Hloop x Hin) as Hno.
    destruct (itemKey E x) as [[key|]|] eqn:Ek; [|now left|congruence].
    right. exists key. split; [reflexivity|].
    rewrite map_map. cbn [fst].
    apply (Permutation_in _ (Permutation_sym Hpermk)).
    destruct (firstKeyed E key (current ++ imported)) as [y|] eqn:Ef.
    + apply in_map_iff. exists (key, y). split; [reflexivity|].
      apply (mergeLoop_entries _ _ _ Hloop). right. split; [intros []|exact Ef].
    + apply (find_none _ _ Ef) in Hin. apply hasKey_true in Ek. congruence.
Qed.

End MergeTwice.

Lemma merge_is_idempotent_witness :
  let outcome := mergeAndSaveHistory browser (JArray smallImport) oldStore in
  getHistory oldStore = JArray [old]
  /\ length [old] + length smallImport <= 200
  /\ mergeTry browser smallImport oldStore
     = Some (fst outcome, JArray [numbered 2; numbered 1; old])
  /\ jsonImage (JArray [numbered 2; numbered 1; old])
     = JArray [numbered 2; numbered 1; old]
  /\ mergeAndSaveHistory browser (JArray smallImport) (fst outcome)
     = (fst outcome, JArray [numbered 2; numbered 1; old]).
Proof.
  intros outcome.
  assert (H1 : getHistory oldStore = JArray [old]) by reflexivity.
  assert (H2 : length [old] + length smallImport <= 200) by (simpl; lia).
  assert (H3 : mergeTry browser smallImport oldStore
               = Some (fst outcome, JArray [numbered 2; numbered 1; old]))
    by (vm_compute; reflexivity).
  split; [exact H1|]. split; [exact H2|]. split; [exact H3|].
  split; [reflexivity|].
  exact (merge_is_idempotent browser oldStore smallImport H1 H2 H3 eq_refl).
Defined.

(* ================================================================= *)
(** ** The history service: deleting, updating, adding *)

Section Callbacks.

Lemma filterM_filter {A} (p : A -> option bool) (g : A -> bool) (xs : list A) :
  (forall x, In x xs -> p x = Some (g x)) ->
  filterM p xs = Some (filter g xs).
Proof.
  induction xs as [|x xs IH]; intros H; [reflexivity|].
  simpl. rewrite (H x (or_introl eq_refl)), IH.
  - now destruct (g x).
  - intros y Hy. apply H. now right.
Qed.

Lemma mapM_map {A B} (f : A -> option B) (g : A -> B) (xs : list A) :
  (forall x, In x xs -> f x = Some (g x)) ->
  mapM f xs = Some (map g xs).
Proof.
  induction xs as [|x xs IH]; intros H; [reflexivity|].
  simpl. rewrite (H x (or_introl eq_refl)), IH; [reflexivity|].
  intros y Hy. apply H. now right.
Qed.

Lemma getProp_noNull (item : json) (name : jsstring) :
  item <> JNull -> exists v, getProp item name = Some v.
Proof. destruct item; simpl; eauto. congruence. Qed.

Lemma noNull_filter (g : json -> bool) (items : list json) :
  noNull items -> noNull (filter g items).
Proof.
  unfold noNull. rewrite !Forall_forall. intros H x Hx.
  apply filter_In in Hx as [Hx _]. auto.
Qed.

Lemma filter_nothing {A} (g : A -> bool) (xs : list A) :
  existsb g xs = false -> filter (fun x => negb (g x)) xs = xs.
Proof.
  induction xs as [|x xs IH]; simpl; [reflexivity|].
  intros H. apply orb_false_iff in H as [-> H]. simpl. now rewrite IH.
Qed.

Lemma filter_neither {A} (g h : A -> bool) (xs : list A) :
  filter (fun x => negb (g x || h x)) xs
  = filter (fun x => negb (h x)) (filter (fun x => negb (g x)) xs).
Proof.
  induction xs as [|x xs IH]; [reflexivity|].
  simpl. destruct (g x); simpl; [exact IH|].
  destruct (h x); simpl; now rewrite IH.
Qed.

Lemma filter_removes {A} (g : A -> bool) (xs : list A) :
  existsb g (filter (fun x => negb (g x)) xs) = false.
Proof.
  induction xs as [|x xs IH]; simpl; [reflexivity|].
  destruct (g x) eqn:Eg; simpl; [exact IH|]. now rewrite Eg.
Qed.

End Callbacks.

Section DeleteUpdateAdd.

Variable E : environment.

Lemma hasId_jsonImage (id : jsstring) (item : json) :
  hasId id (jsonImage item) = hasId id item.
Proof.
  unfold hasId.
  destruct item as [|b|[q| | |]|s|items|members]; try reflexivity.
  cbn [jsonImage getProp]. rewrite lookup_jsonImage.
  apply strictEq_string_image.
Qed.

Lemma existsb_hasId_jsonImage (id : jsstring) (items : list json) :
  existsb (hasId id) (map jsonImage items) = existsb (hasId id) items.
Proof.
  induction items as [|x xs IH]; [reflexivity|].
  cbn [map existsb]. now rewrite hasId_jsonImage, IH.
Qed.

Lemma filter_hasId_jsonImage (id : jsstring) (items : list json) :
  filter (fun item => negb (hasId id item)) (map jsonImage items)
  = map jsonImage (filter (fun item => negb (hasId id item)) items).
Proof.
  induction items as [|x xs IH]; [reflexivity|].
  cbn [map filter]. rewrite hasId_jsonImage.
  destruct (hasId id x); cbn [negb map]; now rewrite IH.
Qed.

Lemma writtenAsIs_items (items : list json) :
  writtenAsIs (JArray items) <-> map jsonImage items = items.
Proof.
  unfold writtenAsIs. cbn [jsonImage]. split; intros H; congruence.
Qed.

Lemma writtenAsIs_filter (g : json -> bool) (items : list json) :
  map jsonImage items = items ->
  map jsonImage (filter g items) = filter g items.
Proof.
  induction items as [|x xs IH]; [reflexivity|].
  cbn [map filter]. intros H. inversion H as [[Hx Hxs]].
  rewrite Hx, Hxs. destruct (g x); cbn [map]; rewrite (IH Hxs); congruence.
Qed.

(** The state of the store after a delete that the storage accepts. *)
Lemma deleteHistoryItem_written (id : jsstring) (entry : option text)
    (current : list json) :
  getHistory (Available entry) = JArray current ->
  noNull current ->
  fits E (JArray (filter (fun item => negb (hasId id item)) current)) = true ->
  deleteHistoryItem E id (Available entry)
  = Available (Some (JSON_stringify
      (JArray (filter (fun item => negb (hasId id item)) current)))).
Proof.
  intros Hget Hnn Hfits. unfold deleteHistoryItem.
  rewrite Hget. cbn [asArray].
  rewrite (filterM_filter _ (fun item => negb (hasId id item))).
  - cbn [setItem]. now rewrite Hfits.
  - intros x Hx. unfold noNull in Hnn. rewrite Forall_forall in Hnn.
    destruct (getProp_noNull (str "id") (Hnn x Hx)) as [v Hv].
    unfold hasId. now rewrite Hv.
Qed.

(** A delete that the storage accepts removes the items with the given
    [id], all of them, and keeps the others in their order, each as
    [JSON.stringify] writes it. *)
Theorem delete_removes_exactly (id : jsstring) (ls : localStorage)
    (current : list json) :
  ls <> Unavailable ->
  getHistory ls = JArray current ->
  noNull current ->
  fits E (JArray (filter (fun item => negb (hasId id item)) current)) = true ->
  storedItems (deleteHistoryItem E id ls)
  = map jsonImage (filter (fun item => negb (hasId id item)) current)
  /\ existsb (hasId id) (storedItems (deleteHistoryItem E id ls)) = false.
Proof.
  intros Hls Hget Hnn Hfits. destruct ls as [|entry]; [congruence|].
  rewrite (deleteHistoryItem_written id entry Hget Hnn Hfits).
  unfold storedItems.
  cbn [getHistory getItem truthyText JSON_parse JSON_stringify jsonImage].
  split; [reflexivity|].
  rewrite existsb_hasId_jsonImage. apply filter_removes.
Qed.

(** Adding an item with a fresh [id] to a history of fewer than 100 items
    and deleting that [id] again gives the history back, when the stored
    history is one that is written as it is. *)
Theorem add_then_delete_restores (id : jsstring) (newItem : json)
    (ls : localStorage) (current : list json) :
  unlimited E ->
  ls <> Unavailable ->
  getHistory ls = JArray current ->
  noNull current ->
  writtenAsIs (JArray current) ->
  length current < 100 ->
  hasId id newItem = true ->
  existsb (hasId id) current = false ->
  storedItems (deleteHistoryItem E id (addHistoryItem E newItem ls)) = current.
Proof.
  intros Hfits Hls Hget Hnn Hwritten Hlen Hnew Hfresh.
  apply writtenAsIs_items in Hwritten.
  destruct ls as [|entry]; [congruence|].
  unfold addHistoryItem. rewrite Hget. cbn [spread setItem]. rewrite Hfits.
  assert (Hcut : firstn 100 (newItem :: current) = newItem :: current)
    by (apply firstn_all2; simpl; lia).
  rewrite Hcut.
  assert (Hnn' : noNull (jsonImage newItem :: current)).
  { constructor; [|exact Hnn]. intros Hnull.
    rewrite <- (hasId_jsonImage id newItem), Hnull in Hnew. discriminate Hnew. }
  rewrite (deleteHistoryItem_written id _ (current := jsonImage newItem :: current));
    [|cbn [getHistory getItem truthyText JSON_parse JSON_stringify jsonImage map];
      now rewrite Hwritten
     |exact Hnn'|apply Hfits].
  unfold storedItems.
  cbn [getHistory getItem truthyText JSON_parse JSON_stringify jsonImage filter].
  rewrite hasId_jsonImage, Hnew. cbn [negb].
  rewrite filter_nothing by exact Hfresh. exact Hwritten.
Qed.

(** An update that the storage accepts puts the updated item in the place
    of every item with its [id] and keeps the length of the history; with
    an [id] that no stored item has it changes no item. The store then
    holds each item as [JSON.stringify] writes it. *)
Theorem update_replaces_in_place (id : jsstring) (updatedItem : json)
    (ls : localStorage) (current : list json) :
  unlimited E ->
  ls <> Unavailable ->
  getHistory ls = JArray current ->
  noNull current ->
  getProp updatedItem (str "id") = Some (Some (JString id)) ->
  storedItems (updateHistoryItem E updatedItem ls)
  = map jsonImage
      (map (fun item => if hasId id item then updatedItem else item) current)
  /\ length (storedItems (updateHistoryItem E updatedItem ls)) = length current
  /\ (existsb (hasId id) current = false ->
        storedItems (updateHistoryItem E updatedItem ls)
        = map jsonImage current).
Proof.
  intros Hfits Hls Hget Hnn Hid. destruct ls as [|entry]; [congruence|].
  assert (Hupd : updateHistoryItem E updatedItem (Available entry)
                 = Available (Some (JSON_stringify (JArray
                     (map (fun item => if hasId id item then updatedItem else item)
                          current))))).
  { unfold updateHistoryItem. rewrite Hget. cbn [asArray].
    rewrite (mapM_map _ (fun item => if hasId id item then updatedItem else item)).
    - cbn [setItem]. now rewrite Hfits.
    - intros x Hx. unfold noNull in Hnn. rewrite Forall_forall in Hnn.
      destruct (getProp_noNull (str "id") (Hnn x Hx)) as [v Hv].
      unfold hasId. now rewrite Hv, Hid. }
  rewrite Hupd. unfold storedItems.
  cbn [getHistory getItem truthyText JSON_parse JSON_stringify jsonImage].
  split; [reflexivity|]. split; [now rewrite !length_map|].
  intros Hfresh. f_equal. clear - Hfresh.
  induction current as [|x xs IH]; [reflexivity|].
  simpl in Hfresh. apply orb_false_iff in Hfresh as [Hx Hxs].
  simpl. rewrite Hx. f_equal. now apply IH.
Qed.

(** Deleting several ids in one call stores the same history as deleting
    them one after the other, when the stored history is one that is
    written as it is. *)
Theorem delete_multiple_is_iterated_delete (ids : list jsstring)
    (ls : localStorage) (current : list json) :
  unlimited E ->
  ls <> Unavailable ->
  getHistory ls = JArray current ->
  noNull current ->
  writtenAsIs (JArray current) ->
  storedItems (deleteMultipleHistoryItems E ids ls)
  = storedItems (fold_left (fun s id => deleteHistoryItem E id s) ids ls).
Proof.
  intros Hfits Hls Hget Hnn Hwritten. apply writtenAsIs_items in Hwritten.
  destruct ls as [|entry]; [congruence|].
  assert (Hmany : storedItems (deleteMultipleHistoryItems E ids (Available entry))
                  = filter (fun item =>
                              negb (existsb (fun id => hasId id item) ids))
                           current).
  { unfold deleteMultipleHistoryItems. rewrite Hget. cbn [asArray].
    rewrite (filterM_filter _
               (fun item => negb (existsb (fun id => hasId id item) ids))).
    - cbn [setItem]. rewrite Hfits. unfold storedItems.
      cbn [getHistory getItem truthyText JSON_parse JSON_stringify jsonImage].
      now apply writtenAsIs_filter.
    - intros x Hx. unfold noNull in Hnn. rewrite Forall_forall in Hnn.
      destruct (getProp_noNull (str "id") (Hnn x Hx)) as [v Hv].
      rewrite Hv. do 2 f_equal.
      assert (Hex : forall id, hasId id x = strictEq v (Some (JString id)))
        by (intros id; unfold hasId; now rewrite Hv).
      clear - Hex. induction ids as [|id ids IH]; simpl; [reflexivity|].
      now rewrite Hex, IH. }
  rewrite Hmany. clear Hmany Hls.
  revert entry current Hget Hnn Hwritten.
  induction ids as [|id ids IH]; intros entry current Hget Hnn Hwritten.
  - simpl. unfold storedItems. rewrite Hget.
    clear. induction current as [|x xs IH]; simpl; congruence.
  - cbn [fold_left].
    rewrite (deleteHistoryItem_written id entry Hget Hnn (Hfits _)).
    rewrite <- (IH _ (filter (fun item => negb (hasId id item)) current)).
    + exact (filter_neither (hasId id)
               (fun item => existsb (fun id0 => hasId id0 item) ids) current).
    + cbn [getHistory getItem truthyText JSON_parse JSON_stringify jsonImage].
      f_equal. now apply writtenAsIs_filter.
    + now apply noNull_filter.
    + now apply writtenAsIs_filter.
Qed.

End DeleteUpdateAdd.

Import HistorySamples.

Lemma delete_removes_exactly_witness :
  twoStore <> Unavailable
  /\ getHistory twoStore = JArray twoItems
  /\ noNull twoItems
  /\ storedItems (deleteHistoryItem browser (idOf 1) twoStore) = [numbered 2]
  /\ existsb (hasId (idOf 1))
       (storedItems (deleteHistoryItem browser (idOf 1) twoStore)) = false.
Proof.
  assert (H1 : twoStore <> Unavailable) by discriminate.
  assert (H2 : getHistory twoStore = JArray twoItems) by reflexivity.
  assert (H3 : noNull twoItems) by (repeat constructor; discriminate).
  split; [exact H1|]. split; [exact H2|]. split; [exact H3|].
  exact (@delete_removes_exactly browser (idOf 1) twoStore twoItems
           H1 H2 H3 eq_refl).
Defined.

Lemma add_then_delete_restores_witness :
  unlimited browser
  /\ writtenAsIs (JArray twoItems)
  /\ length twoItems < 100
  /\ hasId (idOf 3) third = true
  /\ existsb (hasId (idOf 3)) twoItems = false
  /\ storedItems (deleteHistoryItem browser (idOf 3)
                    (addHistoryItem browser third twoStore)) = twoItems.
Proof.
  assert (H0 : unlimited browser) by (intros v; reflexivity).
  assert (H1 : twoStore <> Unavailable) by discriminate.
  assert (H2 : getHistory twoStore = JArray twoItems) by reflexivity.
  assert (H3 : noNull twoItems) by (repeat constructor; discriminate).
  assert (H4 : length twoItems < 100) by (simpl; lia).
  split; [exact H0|]. split; [reflexivity|]. split; [exact H4|].
  split; [reflexivity|]. split; [reflexivity|].
  exact (@add_then_delete_restores browser (idOf 3) third twoStore twoItems
           H0 H1 H2 H3 eq_refl H4 eq_refl eq_refl).
Defined.

Lemma update_replaces_in_place_witness :
  unlimited browser
  /\ getProp revised (str "id") = Some (Some (JString (idOf 1)))
  /\ storedItems (updateHistoryItem browser revised twoStore)
     = [numbered 2; revised]
  /\ length (storedItems (updateHistoryItem browser revised twoStore)) = 2.
Proof.
  assert (H0 : unlimited browser) by (intros v; reflexivity).
  assert (H1 : twoStore <> Unavailable) by discriminate.
  assert (H2 : getHistory twoStore = JArray twoItems) by reflexivity.
  assert (H3 : noNull twoItems) by (repeat constructor; discriminate).
  assert (H4 : getProp revised (str "id") = Some (Some (JString (idOf 1))))
    by reflexivity.
  split; [exact H0|]. split; [exact H4|].
  destruct (@update_replaces_in_place browser (idOf 1) revised twoStore
              twoItems H0 H1 H2 H3 H4) as (Hmap & Hlen & _).
  split; [exact Hmap|exact Hlen].
Defined.

Lemma delete_multiple_is_iterated_delete_witness :
  unlimited browser
  /\ writtenAsIs (JArray twoItems)
  /\ storedItems (deleteMultipleHistoryItems browser [idOf 1; idOf 2] twoStore)
     = storedItems (fold_left (fun s id => deleteHistoryItem browser id s)
                      [idOf 1; idOf 2] twoStore).
Proof.
  assert (H0 : unlimited browser) by (intros v; reflexivity).
  assert (H1 : twoStore <> Unavailable) by discriminate.
  assert (H2 : getHistory twoStore = JArray twoItems) by reflexivity.
  assert (H3 : noNull twoItems) by (repeat constructor; discriminate).
  split; [exact H0|]. split; [reflexivity|].
  exact (@delete_multiple_is_iterated_delete browser [idOf 1; idOf 2]
           twoStore twoItems H0 H1 H2 H3 eq_refl).
Defined.

(* ================================================================= *)
(** ** The history service: the cap without merges *)

Section CapWithoutMerge.

Variable E : environment.
Variable n : nat.

Lemma addHistoryItem_holds (newItem : json) (ls : localStorage) :
  100 <= n -> holdsHistory n ls -> holdsHistory n (addHistoryItem E newItem ls).
Proof.
  intros Hn H. unfold addHistoryItem.
  destruct (holdsHistory_getHistory H) as (-> & _ & _). cbn [spread].
  apply write_or_keep; [exact H|].
  pose proof (firstn_le_length 100 (newItem :: storedItems ls)). lia.
Qed.

Lemma updateHistoryItem_holds (updatedItem : json) (ls : localStorage) :
  holdsHistory n ls -> holdsHistory n (updateHistoryItem E updatedItem ls).
Proof.
  intros H. unfold updateHistoryItem.
  destruct (holdsHistory_getHistory H) as (-> & Hlen & _). cbn [asArray].
  destruct (mapM _ (storedItems ls)) as [newHistory|] eqn:Em; [|exact H].
  apply write_or_keep; [exact H|].
  apply mapM_length in Em. lia.
Qed.

Lemma deleteHistoryItem_holds (id : jsstring) (ls : localStorage) :
  holdsHistory n ls -> holdsHistory n (deleteHistoryItem E id ls).
Proof.
  intros H. unfold deleteHistoryItem.
  destruct (holdsHistory_getHistory H) as (-> & Hlen & _). cbn [asArray].
  destruct (filterM _ (storedItems ls)) as [newHistory|] eqn:Em; [|exact H].
  apply write_or_keep; [exact H|].
  apply filterM_length in Em. lia.
Qed.

Lemma deleteMultipleHistoryItems_holds (ids : list jsstring) (ls : localStorage) :
  holdsHistory n ls -> holdsHistory n (deleteMultipleHistoryItems E ids ls).
Proof.
  intros H. unfold deleteMultipleHistoryItems.
  destruct (holdsHistory_getHistory H) as (-> & Hlen & _). cbn [asArray].
  destruct (filterM _ (storedItems ls)) as [newHistory|] eqn:Em; [|exact H].
  apply write_or_keep; [exact H|].
  apply filterM_length in Em. lia.
Qed.

End CapWithoutMerge.

(** Without a merge the cap is 100: from the empty store, after any
    sequence of calls other than [mergeAndSaveHistory], the stored history
    holds at most 100 items. Only a merge can store more, up to 200, and
    the first [addHistoryItem] after it cuts the history back to 100. *)
Theorem history_without_merge_is_capped (E : environment) (ops : list operation) :
  mergeFree ops = true ->
  length (storedItems (performAll E ops emptyStore)) <= 100.
Proof.
  intros Hfree.
  assert (H : holdsHistory 100 (performAll E ops emptyStore)).
  { unfold performAll.
    assert (H0 : holdsHistory 100 emptyStore) by (left; reflexivity).
    revert H0. generalize emptyStore as ls.
    induction ops as [|op ops IH]; intros ls H0; [exact H0|].
    simpl in Hfree. apply andb_true_iff in Hfree as [Hop Hfree].
    simpl. apply (IH Hfree).
    destruct op; cbn [perform]; try discriminate Hop;
      auto using addHistoryItem_holds, updateHistoryItem_holds,
        deleteHistoryItem_holds, deleteMultipleHistoryItems_holds. }
  now destruct (holdsHistory_getHistory H) as (_ & Hlen & _).
Qed.

Lemma history_without_merge_is_capped_witness :
  mergeFree (map AddHistoryItem (map numbered (seq 1 120))
             ++ [DeleteHistoryItem (idOf 7)]) = true
  /\ length (storedItems
               (performAll browser
                  (map AddHistoryItem (map numbered (seq 1 120))
                   ++ [DeleteHistoryItem (idOf 7)]) emptyStore)) <= 100.
Proof.
  assert (H : mergeFree (map AddHistoryItem (map numbered (seq 1 120))
                         ++ [DeleteHistoryItem (idOf 7)]) = true)
    by (vm_compute; reflexivity).
  split; [exact H|].
  exact (@history_without_merge_is_capped browser _ H).
Defined.

(* ================================================================= *)
(** ** The task services: the fences of a JSON answer *)

Import Gemini.

Section Fences.

Lemma dropWhile_app_all (p : code_unit -> bool) (a b : jsstring) :
  forallb p a = true -> dropWhile p (a ++ b) = dropWhile p b.
Proof.
  induction a as [|c a IH]; simpl; [reflexivity|].
  intros H. apply andb_true_iff in H as [-> H]. now apply IH.
Qed.

Lemma dropWhile_app_stop (p : code_unit -> bool) (a b : jsstring) (c : code_unit) :
  p c = false -> dropWhile p (a ++ c :: b) = dropWhile p a ++ c :: b.
Proof.
  intros Hc. induction a as [|x a IH]; simpl.
  - now rewrite Hc.
  - destruct (p x); [exact IH|reflexivity].
Qed.

Lemma removeClosingFence_unfold (s : jsstring) :
  removeClosingFence s =
  if closingFenceAt s then []
  else match s with
       | [] => []
       | c :: s' => c :: removeClosingFence s'
       end.
Proof. destruct s; reflexivity. Qed.

(** Before a closing fence that ends the string, no position matches. *)
Lemma closingFenceAt_before (c : code_unit) (pre ws : jsstring) :
  closingFenceAt ((c :: pre) ++ fenceClose ++ ws) = false.
Proof.
  unfold closingFenceAt.
  destruct (stripPrefix fenceClose _) as [rest|] eqn:Es; [|reflexivity].
  apply stripPrefix_Some in Es.
  assert (Hrest : rest = skipn 3 ((c :: pre) ++ fenceClose ++ ws))
    by (rewrite Es; reflexivity).
  change (fenceClose ++ ws) with ([96; 96]%N ++ 96%N :: ws) in Hrest.
  rewrite app_assoc, skipn_app in Hrest.
  match type of Hrest with
  | context [3 - ?n] =>
      assert (Hz : 3 - n = 0) by (rewrite length_app; cbn [length]; lia);
      rewrite Hz in Hrest
  end.
  rewrite Hrest, forallb_app. cbn [skipn forallb].
  change (isSpace 96%N) with false. cbn [andb]. apply andb_false_r.
Qed.

(** The closing fence at the end of the string is cut off, with the white
    space after it, whatever stands before it. *)
Lemma removeClosingFence_cut (pre ws : jsstring) :
  forallb isSpace ws = true ->
  removeClosingFence (pre ++ fenceClose ++ ws) = pre.
Proof.
  intros Hws. induction pre as [|c pre IH].
  - rewrite removeClosingFence_unfold. unfold closingFenceAt.
    cbn [app]. rewrite stripPrefix_app, Hws. reflexivity.
  - rewrite removeClosingFence_unfold, closingFenceAt_before.
    rewrite <- app_comm_cons. now rewrite IH.
Qed.

Lemma removeClosingFence_no_backtick (s : jsstring) :
  forallb (fun c => negb (c =? 96)%N) s = true -> removeClosingFence s = s.
Proof.
  induction s as [|c s IH]; [reflexivity|].
  simpl forallb. intros H. apply andb_true_iff in H as [Hc H].
  rewrite removeClosingFence_unfold.
  assert (Hno : closingFenceAt (c :: s) = false).
  { unfold closingFenceAt, fenceClose. cbn [str map list_ascii_of_string].
    cbn [stripPrefix]. rewrite N.eqb_sym.
    apply negb_true_iff in Hc.
    change (N.of_nat (nat_of_ascii "`")) with 96%N. now rewrite Hc. }
  rewrite Hno. now rewrite (IH H).
Qed.

Variable T : Type.
Variable JSON_parse : jsstring -> option T.

(** An answer wrapped in a fenced block with the [json] tag is parsed as
    its trimmed body. *)
Theorem fenced_json_is_unwrapped (ws1 body ws2 : jsstring) :
  forallb isSpace ws1 = true ->
  forallb isSpace ws2 = true ->
  trim (removeFences (fenceOpen ++ ws1 ++ body ++ fenceClose ++ ws2))
  = trim body
  /\ parseJsonResponse JSON_parse
       (fenceOpen ++ ws1 ++ body ++ fenceClose ++ ws2)
     = match JSON_parse (trim body) with
       | Some parsed => inl parsed
       | None => inr invalidJsonMessage
       end.
Proof.
  intros H1 H2.
  assert (Hclean : trim (removeFences
                           (fenceOpen ++ ws1 ++ body ++ fenceClose ++ ws2))
                   = trim body).
  { unfold removeFences. rewrite stripPrefix_app.
    rewrite dropWhile_app_all by exact H1.
    change (fenceClose ++ ws2) with (96%N :: ([96; 96]%N ++ ws2)).
    rewrite dropWhile_app_stop by reflexivity.
    change (96%N :: ([96; 96]%N ++ ws2)) with (fenceClose ++ ws2).
    rewrite removeClosingFence_cut by exact H2.
    apply trim_dropWhile. }
  split; [exact Hclean|].
  unfold parseJsonResponse. now rewrite Hclean.
Qed.

(** An answer without any backtick is parsed as it is, trimmed. *)
Theorem plain_json_is_trimmed (jsonString : jsstring) :
  forallb (fun c => negb (c =? 96)%N) jsonString = true ->
  parseJsonResponse JSON_parse jsonString
  = match JSON_parse (trim jsonString) with
    | Some parsed => inl parsed
    | None => inr invalidJsonMessage
    end.
Proof.
  intros H. unfold parseJsonResponse, removeFences.
  assert (Hopen : stripPrefix fenceOpen jsonString = None).
  { destruct jsonString as [|c s]; [reflexivity|].
    simpl in H. apply andb_true_iff in H as [Hc _].
    apply negb_true_iff in Hc.
    unfold fenceOpen. cbn [str map list_ascii_of_string stripPrefix].
    change (N.of_nat (nat_of_ascii "`")) with 96%N.
    now rewrite N.eqb_sym, Hc. }
  rewrite Hopen, removeClosingFence_no_backtick by exact H. reflexivity.
Qed.

End Fences.

Lemma fenced_json_is_unwrapped_witness :
  forallb isSpace [LF] = true
  /\ parseJsonResponse parseSentence
       (fenceOpen ++ [LF]
        ++ (123%N :: 34%N :: str "chineseSentence" ++ [34; 58; 34]%N
              ++ str "neko" ++ [34; 125; 10]%N)
        ++ fenceClose ++ [LF])
     = inl (str "neko").
Proof.
  split; [reflexivity|].
  exact (proj2 (@fenced_json_is_unwrapped _ parseSentence [LF]
                  (123%N :: 34%N :: str "chineseSentence" ++ [34; 58; 34]%N
                     ++ str "neko" ++ [34; 125; 10]%N)
                  [LF] eq_refl eq_refl)).
Defined.

Lemma plain_json_is_trimmed_witness :
  forallb (fun c => negb (c =? 96)%N) (str "  not json ") = true
  /\ parseJsonResponse parseSentence (str "  not json ")
     = inr invalidJsonMessage.
Proof.
  split; [reflexivity|].
  exact (@plain_json_is_trimmed _ parseSentence (str "  not json ") eq_refl).
Defined.

(* ================================================================= *)
(** ** The task services: the grammar library *)

Section GrammarLibrary.

Lemma serve_cached (nets : list fetched) (cached : list GrammarPoint) :
  cached <> [] ->
  serve nets cached = repeat (Stream.Returned cached) (length nets).
Proof.
  intros Hne. induction nets as [|net nets IH]; [reflexivity|].
  simpl. unfold getGrammarPoints, loadGrammarData.
  destruct cached as [|p ps]; [congruence|]. cbn [length Nat.ltb Nat.leb].
  now rewrite IH.
Qed.

(** The library that [getGrammarPoints] serves is the first non-empty one
    that the network delivered: the calls before it throw, or return an
    empty library without caching it, and every call from it on returns
    that library, whatever the network does then. *)
Theorem library_is_first_loaded (before after : list fetched)
    (data : list GrammarPoint) :
  data <> [] ->
  Forall emptyHanded before ->
  serve (before ++ Body data :: after) []
  = map uncached before ++ repeat (Stream.Returned data) (S (length after)).
Proof.
  intros Hdata Hbefore. induction before as [|net before IH].
  - simpl. now rewrite serve_cached.
  - inversion Hbefore as [|? ? Hnet Hrest]; subst.
    simpl. unfold getGrammarPoints, loadGrammarData. cbn [length Nat.ltb Nat.leb].
    destruct net as [| | |d]; cbn [uncached]; try now rewrite (IH Hrest).
    rewrite (Hnet d eq_refl). now rewrite (IH Hrest).
Qed.

Lemma library_is_first_loaded_witness :
  library <> []
  /\ Forall emptyHanded [FetchRejected; Body []; ResponseNotOk]
  /\ serve ([FetchRejected; Body []; ResponseNotOk]
            ++ Body library :: [BodyRejected; Body [point N1 (str "x")]]) []
     = [Stream.Thrown; Stream.Returned []; Stream.Thrown;
        Stream.Returned library; Stream.Returned library;
        Stream.Returned library].
Proof.
  assert (H1 : library <> []) by discriminate.
  assert (H2 : Forall emptyHanded [FetchRejected; Body []; ResponseNotOk]).
  { repeat constructor; intros d Hd; try discriminate Hd. now inversion Hd. }
  split; [exact H1|]. split; [exact H2|].
  exact (@library_is_first_loaded [FetchRejected; Body []; ResponseNotOk]
           [BodyRejected; Body [point N1 (str "x")]] library H1 H2).
Defined.

Lemma sameLevel_eq (a b : Difficulty) : sameLevel a b = true -> a = b.
Proof. destruct a, b; simpl; congruence. Qed.

Variable T : Type.
Variable JSON_parse : jsstring -> option T.

(** A task that [generateSentenceTask] returns: its content is what
    [JSON.parse] made of the unfenced, trimmed text of the response; its
    grammar point, if it has one, is a point of the library now cached
    and has the requested level; and it has one whenever the draw is an
    index of the relevant points. *)
Theorem sentence_task_fits_the_level (difficulty : Difficulty) (net : fetched)
    (draw : nat) (api : apiAnswer) (cache loaded : list GrammarPoint)
    (task : T) (grammarPoint : option GrammarPoint) :
  generateSentenceTask JSON_parse difficulty net draw api cache
  = (loaded, Stream.Returned (task, grammarPoint)) ->
  (exists text,
     api = ApiResponse (Some text)
     /\ JSON_parse (trim (removeFences (trim text))) = Some task)
  /\ (forall p, grammarPoint = Some p -> In p loaded /\ level p = difficulty)
  /\ (draw < length (filter (fun p => sameLevel (level p) difficulty) loaded) ->
      grammarPoint <> None).
Proof.
  unfold generateSentenceTask.
  destruct (loadGrammarData net cache) as [loaded' [[]|]]; [|discriminate].
  destruct api as [|[text|]]; try discriminate.
  unfold parseJsonResponse.
  destruct (JSON_parse (trim (removeFences (trim text)))) as [parsed|] eqn:Ep;
    [|discriminate].
  intros H. inversion H; subst loaded' parsed. clear H.
  set (relevant := filter (fun p => sameLevel (level p) difficulty) loaded) in *.
  split; [eauto|]. split.
  - intros p Hp. subst grammarPoint.
    destruct (0 <? length relevant); [|discriminate].
    apply nth_error_In in Hp. apply filter_In in Hp as [Hin Hl].
    split; [exact Hin|now apply sameLevel_eq].
  - intros Hdraw Hnone. subst grammarPoint.
    destruct (Nat.ltb_spec 0 (length relevant)); [|lia].
    apply nth_error_None in Hnone. lia.
Qed.

End GrammarLibrary.

Lemma sentence_task_fits_the_level_witness :
  generateSentenceTask parseSentence N3 (Body library) 1
    (ApiResponse (Some (LF :: 123%N :: 34%N :: str "chineseSentence"
                          ++ [34; 58; 34]%N ++ str "neko" ++ [34; 125]%N))) []
  = (library, Stream.Returned (str "neko", Some (point N3 (str "you ni"))))
  /\ (forall p, Some (point N3 (str "you ni")) = Some p ->
        In p library /\ level p = N3).
Proof.
  assert (H : generateSentenceTask parseSentence N3 (Body library) 1
                (ApiResponse (Some (LF :: 123%N :: 34%N :: str "chineseSentence"
                                      ++ [34; 58; 34]%N ++ str "neko"
                                      ++ [34; 125]%N))) []
              = (library,
                 Stream.Returned (str "neko", Some (point N3 (str "you ni")))))
    by (vm_compute; reflexivity).
  split; [exact H|].
  exact (proj1 (proj2 (@sentence_task_fits_the_level _ parseSentence N3
                         (Body library) 1 _ [] library (str "neko")
                         (Some (point N3 (str "you ni"))) H))).
Defined.

(* ================================================================= *)
(** ** Decoding audio *)

Import Audio.

Section AudioFacts.

Lemma toInt16_range (lo hi : N) :
  (-32768 <= toInt16 lo hi < 32768)%Z.
Proof.
  unfold toInt16, toUint8. cbv zeta.
  assert (Hlo : (0 <= Z.of_N (lo mod 256) < 256)%Z).
  { pose proof (N.mod_upper_bound lo 256 ltac:(discriminate)).
    destruct (lo mod 256)%N; lia. }
  assert (Hhi : (0 <= Z.of_N (hi mod 256) < 256)%Z).
  { pose proof (N.mod_upper_bound hi 256 ltac:(discriminate)).
    destruct (hi mod 256)%N; lia. }
  destruct (Z.ltb_spec (Z.of_N (lo mod 256) + 256 * Z.of_N (hi mod 256)) 32768);
    lia.
Qed.

Lemma int16View_pairs (n : nat) : forall bytes,
  length bytes <= n ->
  match int16View bytes with
  | Some values =>
      length bytes = 2 * length values
      /\ Forall (fun v => (-32768 <= v < 32768)%Z) values
  | None => Nat.odd (length bytes) = true
  end.
Proof.
  induction n as [|n IH]; intros [|lo [|hi rest]] Hlen; simpl in *;
    try (split; [reflexivity|constructor]); try reflexivity; try lia.
  specialize (IH rest ltac:(lia)).
  destruct (int16View rest) as [values|].
  - destruct IH as [Hl Hf]. split; [simpl; lia|].
    constructor; [apply toInt16_range|exact Hf].
  - exact IH.
Qed.

Lemma nth_in_range (values : list Z) (k : nat) :
  Forall (fun v => (-32768 <= v < 32768)%Z) values ->
  (-32768 <= nth k values 0%Z < 32768)%Z.
Proof.
  intros Hf. destruct (Nat.lt_ge_cases k (length values)) as [Hk|Hk].
  - rewrite Forall_forall in Hf. apply Hf. now apply nth_In.
  - rewrite nth_overflow by exact Hk. lia.
Qed.

Lemma flat_map_agree (A B : Type) (g h : A -> list B) (l : list A) :
  (forall a, In a l -> g a = h a) -> flat_map g l = flat_map h l.
Proof.
  induction l as [|a l IH]; intros Hgh; [reflexivity|].
  simpl. rewrite (Hgh a) by now left.
  rewrite IH; [reflexivity|]. intros b Hb. apply Hgh. now right.
Qed.

Lemma map_flat_map (A B C : Type) (g : B -> C) (h : A -> list B) (l : list A) :
  map g (flat_map h l) = flat_map (fun a => map g (h a)) l.
Proof.
  induction l as [|a l IH]; [reflexivity|].
  simpl. now rewrite map_app, IH.
Qed.

Lemma flat_map_rows (A : Type) (d : A) (n : nat) : forall (f : nat) (l : list A),
  length l = f * n ->
  flat_map (fun i => map (fun c => nth (i * n + c) l d) (seq 0 n)) (seq 0 f) = l.
Proof.
  induction f as [|f IH]; intros l Hl.
  - simpl in *. now destruct l.
  - simpl in Hl.
    assert (Hfirst : length (firstn (f * n) l) = f * n)
      by (rewrite length_firstn; lia).
    assert (Hsplit : l = firstn (f * n) l ++ skipn (f * n) l)
      by (symmetry; apply firstn_skipn).
    rewrite seq_S, flat_map_app. simpl flat_map. rewrite app_nil_r.
    transitivity (firstn (f * n) l ++ skipn (f * n) l); [|now symmetry].
    f_equal.
    + transitivity
        (flat_map (fun i => map (fun c => nth (i * n + c) (firstn (f * n) l) d)
                                (seq 0 n)) (seq 0 f)); [|now apply IH].
      apply flat_map_agree. intros i Hi. apply in_seq in Hi.
      apply map_ext_in. intros c Hc. apply in_seq in Hc.
      rewrite Hsplit at 1. apply app_nth1. rewrite Hfirst. nia.
    + apply nth_ext with (d := d) (d' := d).
      * rewrite length_map, length_seq, length_skipn. lia.
      * intros c Hc. rewrite length_map, length_seq in Hc.
        rewrite (nth_indep _ d (nth (f * n + 0) l d))
          by (rewrite length_map, length_seq; exact Hc).
        rewrite (map_nth (fun c => nth (f * n + c) l d)).
        rewrite seq_nth by exact Hc. simpl.
        rewrite Hsplit at 1.
        rewrite app_nth2 by (rewrite Hfirst; lia).
        rewrite Hfirst. f_equal. lia.
Qed.

Lemma flat_map_frames (A : Type) (d : A) (n f : nat) (l : list A) :
  f * n <= length l ->
  flat_map (fun i => map (fun c => nth (i * n + c) l d) (seq 0 n)) (seq 0 f)
  = firstn (f * n) l.
Proof.
  intros Hl.
  assert (Hfirst : length (firstn (f * n) l) = f * n)
    by (rewrite length_firstn; lia).
  transitivity
    (flat_map (fun i => map (fun c => nth (i * n + c) (firstn (f * n) l) d)
                            (seq 0 n)) (seq 0 f));
    [|now apply flat_map_rows].
  apply flat_map_agree. intros i Hi. apply in_seq in Hi.
  apply map_ext_in. intros c Hc. apply in_seq in Hc.
  rewrite <- (firstn_skipn (f * n) l) at 1.
  apply app_nth1. rewrite Hfirst. nia.
Qed.

Lemma channel_nth (dataInt16 : list Z) (n f channel i : nat) :
  i < f ->
  nth i (map (fun i => sample (nth (i * n + channel) dataInt16 0%Z)) (seq 0 f))
      (sample 0)
  = sample (nth (i * n + channel) dataInt16 0%Z).
Proof.
  intros Hi.
  rewrite (nth_indep _ (sample 0) (sample (nth (0 * n + channel) dataInt16 0%Z)))
    by (rewrite length_map, length_seq; exact Hi).
  rewrite (map_nth (fun i => sample (nth (i * n + channel) dataInt16 0%Z))).
  now rewrite seq_nth by exact Hi.
Qed.

End AudioFacts.

(** Data over a buffer with an odd number of bytes is never decoded,
    whatever the context and the number of channels: the 16-bit view of
    the buffer is refused. What [decode] returns has a buffer of its own,
    so it is not decoded when it has an odd number of bytes. It is the
    buffer that counts: an odd number of bytes shown of a buffer with an
    even number of bytes is decoded. *)
Theorem odd_audio_is_rejected (ctx : AudioContext) (sampleRate : Z)
    (numChannels : nat) :
  (forall data,
     Nat.odd (length (buffer data)) = true ->
     decodeAudioData ctx data sampleRate numChannels = None)
  /\ (forall atob base64 data,
        decode atob base64 = Some data ->
        Nat.odd (byteLength data) = true ->
        decodeAudioData ctx data sampleRate numChannels = None).
Proof.
  assert (Hbuffer : forall data,
            Nat.odd (length (buffer data)) = true ->
            decodeAudioData ctx data sampleRate numChannels = None).
  { intros data Hodd. unfold decodeAudioData.
    pose proof (@int16View_pairs (length (buffer data)) (buffer data) (le_n _))
      as Hv.
    destruct (int16View (buffer data)) as [values|]; [|reflexivity].
    destruct Hv as [Hl _]. rewrite Hl in Hodd.
    rewrite Nat.odd_mul in Hodd. discriminate. }
  split; [exact Hbuffer|].
  intros atob base64 data Hdecode Hodd. apply Hbuffer.
  unfold decode in Hdecode.
  destruct (atob base64) as [binaryString|]; [|discriminate].
  inversion Hdecode; subst data. cbn [buffer byteLength] in *.
  now rewrite length_map.
Qed.

Lemma odd_audio_is_rejected_witness :
  Nat.odd (length (buffer (whole [1; 2; 3]%N))) = true
  /\ decodeAudioData usualContext (whole [1; 2; 3]%N) 24000 1 = None
  /\ Nat.odd (byteLength threeOfFour) = true
  /\ decodeAudioData usualContext threeOfFour 24000 1
     = Some [[sample 513; sample 1027]].
Proof.
  split; [reflexivity|]. split.
  - apply (proj1 (odd_audio_is_rejected usualContext 24000%Z 1)).
    reflexivity.
  - split; reflexivity.
Defined.

(** Every sample of a decoded buffer is at least -1 and less than
    1. *)
Theorem audio_samples_are_in_range (ctx : AudioContext) (data : Uint8Array)
    (sampleRate : Z) (numChannels : nat)
    (audioBuffer : list (list QArith_base.Q))
    (channelData : list QArith_base.Q) (s : QArith_base.Q) :
  decodeAudioData ctx data sampleRate numChannels = Some audioBuffer ->
  In channelData audioBuffer -> In s channelData ->
  QArith_base.Qle (QArith_base.Qmake (-1) 1) s
  /\ QArith_base.Qlt s (QArith_base.Qmake 1 1).
Proof.
  unfold decodeAudioData.
  pose proof (@int16View_pairs (length (buffer data)) (buffer data) (le_n _))
    as Hv.
  destruct (int16View (buffer data)) as [dataInt16|]; [|discriminate].
  destruct Hv as [_ Hrange].
  destruct (createBufferAccepts ctx numChannels _ sampleRate); [|discriminate].
  intros H Hc Hs. inversion H; subst audioBuffer. clear H.
  apply in_map_iff in Hc as [channel [<- _]].
  apply in_map_iff in Hs as [i [<- _]].
  pose proof (@nth_in_range dataInt16 (i * numChannels + channel) Hrange) as Hn.
  unfold sample, QArith_base.Qle, QArith_base.Qlt. simpl. lia.
Qed.

Lemma audio_samples_are_in_range_witness :
  QArith_base.Qle (QArith_base.Qmake (-1) 1) (sample (-32768))
  /\ QArith_base.Qlt (sample (-32768)) (QArith_base.Qmake 1 1).
Proof.
  apply (@audio_samples_are_in_range usualContext (whole stereoBytes) 24000%Z 2
           [[sample (-32768); sample 1]; [sample 32767; sample (-1)]]
           [sample (-32768); sample 1] (sample (-32768))).
  - vm_compute. reflexivity.
  - now left.
  - now left.
Defined.

(** A decoded buffer has the requested number of channels, each of
    as many samples as the 16-bit values of the data's buffer make whole
    frames; read frame after frame, it holds the values of the whole
    frames in their order, each divided by 32768, and a last incomplete
    frame is left out. *)
Theorem audio_channels_deinterleave (ctx : AudioContext) (data : Uint8Array)
    (sampleRate : Z) (numChannels : nat)
    (audioBuffer : list (list QArith_base.Q)) :
  decodeAudioData ctx data sampleRate numChannels = Some audioBuffer ->
  0 < numChannels ->
  exists dataInt16,
    int16View (buffer data) = Some dataInt16
    /\ length (buffer data) = 2 * length dataInt16
    /\ length audioBuffer = numChannels
    /\ Forall (fun channelData =>
                 length channelData = length dataInt16 / numChannels)
              audioBuffer
    /\ interleave (length dataInt16 / numChannels) audioBuffer
       = map sample
           (firstn (length dataInt16 / numChannels * numChannels) dataInt16).
Proof.
  unfold decodeAudioData.
  pose proof (@int16View_pairs (length (buffer data)) (buffer data) (le_n _))
    as Hv.
  destruct (int16View (buffer data)) as [dataInt16|]; [|discriminate].
  destruct Hv as [Hlen _].
  set (frameCount := length dataInt16 / numChannels).
  destruct (createBufferAccepts ctx numChannels frameCount sampleRate);
    [|discriminate].
  intros H Hpos. inversion H; subst audioBuffer. clear H.
  exists dataInt16. split; [reflexivity|]. split; [exact Hlen|].
  split; [now rewrite length_map, length_seq|]. split.
  - apply Forall_forall. intros channelData Hc.
    apply in_map_iff in Hc as [channel [<- _]].
    now rewrite length_map, length_seq.
  - unfold interleave. fold frameCount.
    rewrite <- (@flat_map_frames Z 0%Z numChannels frameCount dataInt16)
      by (unfold frameCount; rewrite Nat.mul_comm;
          apply Nat.Div0.mul_div_le).
    rewrite map_flat_map.
    apply flat_map_agree. intros i Hi. apply in_seq in Hi.
    rewrite !map_map. apply map_ext. intros channel.
    apply channel_nth. lia.
Qed.

Lemma audio_channels_deinterleave_witness :
  exists dataInt16,
    int16View (buffer (whole stereoBytes)) = Some dataInt16
    /\ length (buffer (whole stereoBytes)) = 2 * length dataInt16
    /\ length [[sample (-32768); sample 1]; [sample 32767; sample (-1)]] = 2
    /\ Forall (fun channelData => length channelData = length dataInt16 / 2)
              [[sample (-32768); sample 1]; [sample 32767; sample (-1)]]
    /\ interleave (length dataInt16 / 2)
         [[sample (-32768); sample 1]; [sample 32767; sample (-1)]]
       = map sample (firstn (length dataInt16 / 2 * 2) dataInt16).
Proof.
  apply (@audio_channels_deinterleave usualContext (whole stereoBytes)
           24000%Z 2).
  - vm_compute. reflexivity.
  - lia.
Defined.

(* ================================================================= *)
(** ** The history on the screen and the history in the store *)

Import App.

Section ViewAndStore.

Variable E : environment.

Lemma delete_callback (id : jsstring) (items : list json) :
  noNull items ->
  filterM (fun item =>
             let? itemId := getProp item (str "id") in
             Some (negb (strictEq itemId (Some (JString id)))))
          items
  = Some (filter (fun item => negb (hasId id item)) items).
Proof.
  intros Hnn. apply filterM_filter. intros x Hx.
  unfold noNull in Hnn. rewrite Forall_forall in Hnn.
  destruct (getProp_noNull (str "id") (Hnn x Hx)) as [v Hv].
  unfold hasId. now rewrite Hv.
Qed.

Lemma delete_multiple_callback (ids : list jsstring) (items : list json) :
  noNull items ->
  filterM (fun item =>
             let? itemId := getProp item (str "id") in
             Some (negb (existsb
                           (fun id => strictEq itemId (Some (JString id)))
                           ids)))
          items
  = Some (filter (fun item => negb (existsb (fun id => hasId id item) ids))
                 items).
Proof.
  intros Hnn. apply filterM_filter. intros x Hx.
  unfold noNull in Hnn. rewrite Forall_forall in Hnn.
  destruct (getProp_noNull (str "id") (Hnn x Hx)) as [v Hv].
  rewrite Hv. do 2 f_equal.
  induction ids as [|id ids IH]; simpl; [reflexivity|].
  unfold hasId at 1. now rewrite Hv, IH.
Qed.

Lemma update_callback (updatedItem : json) (items : list json) :
  noNull items -> updatedItem <> JNull ->
  exists updated,
    mapM (fun item =>
            let? itemId := getProp item (str "id") in
            let? updatedId := getProp updatedItem (str "id") in
            Some (if strictEq itemId updatedId then updatedItem else item))
         items
    = Some updated
    /\ length updated = length items.
Proof.
  intros Hnn Hup.
  destruct (getProp_noNull (str "id") Hup) as [u Hu].
  exists (map (fun item =>
                 match getProp item (str "id") with
                 | Some itemId =>
                     if strictEq itemId u then updatedItem else item
                 | None => item
                 end) items).
  split; [|apply length_map].
  apply mapM_map. intros x Hx.
  unfold noNull in Hnn. rewrite Forall_forall in Hnn.
  destruct (getProp_noNull (str "id") (Hnn x Hx)) as [v Hv].
  now rewrite Hv, Hu.
Qed.

(** A handler that filters or maps the history leaves the store with the
    array that it leaves on the screen, as it is written. *)
Lemma same_update (st : state) (entry : option text) (items result : list json)
    (f : list json -> option (list json)) :
  unlimited E ->
  store st = Available entry ->
  inSync st ->
  history st = JArray items ->
  f items = Some result ->
  exists st',
    (let ls' := match (let? current := asArray (getHistory (store st)) in
                       let? newHistory := f current in
                       setItem E (store st) (JArray newHistory))
                with
                | Some ls' => ls'
                | None => store st
                end in
     let? prev := asArray (history st) in
     let? next := f prev in
     Some {| store := ls'; history := JArray next |}) = Some st'
    /\ storedAsWritten st'
    /\ history st' = JArray result.
Proof.
  intros Hfits Hs Hsync Hh Hf. unfold inSync in Hsync.
  rewrite Hsync, Hh. cbn [asArray]. rewrite Hf, Hs.
  cbn [setItem]. rewrite Hfits.
  eexists. split; [reflexivity|]. split; reflexivity.
Qed.

End ViewAndStore.

(** The history on the screen and the store go together: when the screen
    shows the stored array, the storage takes the write and no item is
    [null], deleting an item, deleting several items and updating an item
    each leave in the store what they leave on the screen, as
    [JSON.stringify] writes it; so the screen shows what the store holds
    whenever its history is one that is written as it is. *)
Theorem view_follows_store (E : environment) (st : state) (items : list json)
    (id : jsstring) (ids : list jsstring) (updatedItem : json) :
  unlimited E ->
  store st <> Unavailable ->
  inSync st ->
  history st = JArray items ->
  noNull items ->
  updatedItem <> JNull ->
  (exists st', handleDeleteHistoryItem E id st = Some st'
               /\ storedAsWritten st'
               /\ (writtenAsIs (history st') -> inSync st')
               /\ history st'
                  = JArray (filter (fun item => negb (hasId id item)) items))
  /\ (exists st', handleDeleteMultipleHistoryItems E ids st = Some st'
                  /\ storedAsWritten st'
                  /\ (writtenAsIs (history st') -> inSync st')
                  /\ history st'
                     = JArray (filter (fun item =>
                                         negb (existsb (fun id => hasId id item)
                                                       ids)) items))
  /\ (exists st' updated, handleUpdateHistoryItem E updatedItem st = Some st'
                          /\ storedAsWritten st'
                          /\ (writtenAsIs (history st') -> inSync st')
                          /\ history st' = JArray updated
                          /\ length updated = length items).
Proof.
  intros Hfits Hav Hsync Hh Hnn Hup.
  destruct (store st) as [|entry] eqn:Hs; [congruence|]. clear Hav.
  assert (Hsame : forall st', storedAsWritten st' ->
                    writtenAsIs (history st') -> inSync st').
  { intros st' Hw Has. unfold inSync. rewrite Hw. exact Has. }
  split; [|split].
  - destruct (@same_update E st entry items _ _ Hfits Hs Hsync Hh
                (@delete_callback id items Hnn)) as (st' & H1 & H2 & H3).
    exists st'. auto.
  - destruct (@same_update E st entry items _ _ Hfits Hs Hsync Hh
                (@delete_multiple_callback ids items Hnn))
      as (st' & H1 & H2 & H3).
    exists st'. auto.
  - destruct (@update_callback updatedItem items Hnn Hup) as (updated & Hm & Hl).
    destruct (@same_update E st entry items _ _ Hfits Hs Hsync Hh Hm)
      as (st' & H1 & H2 & H3).
    exists st', updated. auto.
Qed.

Lemma view_follows_store_witness :
  (exists st', handleDeleteHistoryItem browser (idOf 1) (initial twoStore)
               = Some st'
               /\ storedAsWritten st'
               /\ (writtenAsIs (history st') -> inSync st')
               /\ history st' = JArray [numbered 2]).
Proof.
  assert (Hfits : unlimited browser) by (intros v; reflexivity).
  assert (Hnn : noNull twoItems)
    by (repeat constructor; discriminate).
  exact (proj1 (@view_follows_store browser (initial twoStore) twoItems
                  (idOf 1) [] revised Hfits ltac:(discriminate) eq_refl
                  eq_refl Hnn ltac:(discriminate))).
Defined.

(** After an import the store holds the history that the screen shows, as
    [JSON.stringify] writes it when the merge was written, and as it is
    when the merge was given up; this whatever the screen and the store
    held before and whatever was imported. So the screen shows what the
    store holds whenever the history it shows is written as it is. *)
Theorem import_resynchronises (E : environment) (importedData : json)
    (st : state) :
  exists st',
    handleImportHistory E importedData st = Some st'
    /\ (inSync st' \/ storedAsWritten st')
    /\ (writtenAsIs (history st') -> inSync st').
Proof.
  unfold handleImportHistory.
  destruct (mergeAndSaveHistory E importedData (store st)) as [ls' merged] eqn:Em.
  eexists. split; [reflexivity|].
  assert (H : inSync {| store := ls'; history := merged |}
              \/ storedAsWritten {| store := ls'; history := merged |}).
  { unfold inSync, storedAsWritten. cbn [store history].
    unfold mergeAndSaveHistory in Em.
    destruct importedData as [| | | |imported|];
      try (inversion Em; subst; left; reflexivity).
    destruct (mergeTry E imported (store st)) as [[ls'' result]|] eqn:Et.
    - inversion Em; subst.
      apply mergeTry_stages in Et as (_ & _ & _ & _ & _ & -> & _).
      right. reflexivity.
    - inversion Em; subst. left. reflexivity. }
  split; [exact H|].
  intros Hw. destruct H as [H|H]; [exact H|].
  unfold inSync. rewrite H. exact Hw.
Qed.

Lemma import_resynchronises_witness :
  exists st',
    handleImportHistory browser (JArray [numbered 1]) (initial oldStore)
    = Some st'
    /\ writtenAsIs (history st')
    /\ inSync st'.
Proof.
  destruct (import_resynchronises browser (JArray [numbered 1])
              (initial oldStore)) as (st' & Hst & _ & Hsync).
  exists st'. split; [exact Hst|].
  assert (Hw : writtenAsIs (history st')).
  { vm_compute in Hst. inversion Hst. reflexivity. }
  split; [exact Hw|exact (Hsync Hw)].
Defined.



(* ================================================================= *)
(** ** Submitting a sentence *)

Section Submit.

Lemma takeWhile_dropWhile (p : code_unit -> bool) (s : jsstring) :
  takeWhile p s ++ dropWhile p s = s.
Proof.
  induction s as [|c s IH]; simpl; [reflexivity|].
  destruct (p c); simpl; [now rewrite IH|reflexivity].
Qed.

Lemma takeWhile_holds (p : code_unit -> bool) (s : jsstring) :
  forallb p (takeWhile p s) = true.
Proof.
  induction s as [|c s IH]; simpl; [reflexivity|].
  destruct (p c) eqn:Ep; simpl; [now rewrite Ep|reflexivity].
Qed.

Lemma dropWhile_all (p : code_unit -> bool) (s : jsstring) :
  dropWhile p s = [] <-> forallb p s = true.
Proof.
  induction s as [|c s IH]; simpl; [tauto|].
  destruct (p c); simpl; [exact IH|]. split; discriminate.
Qed.

Lemma dropWhile_stays (p : code_unit -> bool) (c : code_unit) (s r : jsstring) :
  dropWhile p s = c :: r -> dropWhile p (c :: r) = c :: r.
Proof. intros H. rewrite <- H. apply dropWhile_idempotent. Qed.

Lemma forallb_rev (p : code_unit -> bool) (s : jsstring) :
  forallb p (rev s) = forallb p s.
Proof.
  induction s as [|c s IH]; [reflexivity|].
  simpl. rewrite forallb_app, IH. simpl. rewrite andb_true_r. apply andb_comm.
Qed.

(** What [trim] takes away and what it leaves. *)
Lemma trim_parts (sentence : jsstring) :
  exists before after,
    sentence = before ++ trim sentence ++ after
    /\ forallb isSpace before = true
    /\ forallb isSpace after = true
    /\ trim (trim sentence) = trim sentence.
Proof.
  unfold trim, trimEnd, trimStart.
  set (t := dropWhile isSpace sentence).
  exists (takeWhile isSpace sentence), (rev (takeWhile isSpace (rev t))).
  split; [|split; [|split]].
  - rewrite <- rev_app_distr, takeWhile_dropWhile, rev_involutive.
    symmetry. apply takeWhile_dropWhile.
  - apply takeWhile_holds.
  - rewrite forallb_rev. apply takeWhile_holds.
  - set (d := dropWhile isSpace (rev t)).
    assert (Hstart : dropWhile isSpace (rev d) = rev d).
    { assert (Ht : t = rev d ++ rev (takeWhile isSpace (rev t))).
      { rewrite <- rev_app_distr. unfold d.
        now rewrite takeWhile_dropWhile, rev_involutive. }
      destruct (rev d) as [|c r] eqn:Er; [reflexivity|].
      destruct t as [|c' t'] eqn:Et; [discriminate Ht|].
      simpl in Ht. inversion Ht; subst c'.
      assert (Hc : dropWhile isSpace (c :: t') = c :: t')
        by (apply (@dropWhile_stays isSpace c sentence t'); exact Et).
      simpl in Hc. simpl. destruct (isSpace c); [|reflexivity].
      exfalso. assert (Hl : length (dropWhile isSpace t') <= length t').
      { clear. induction t' as [|x xs IH]; simpl; [lia|].
        destruct (isSpace x); simpl; lia. }
      rewrite Hc in Hl. simpl in Hl. lia. }
    rewrite Hstart, rev_involutive. unfold d.
    now rewrite dropWhile_idempotent.
Qed.

End Submit.

(** Submitting a sentence: a sentence of white space only, or an empty
    one, is not passed on at all; any other sentence is passed on once,
    without the white space before and after it, so that what is passed
    on is not empty and trimming it again changes nothing. *)
Theorem submitted_sentence_is_trimmed (sentence : jsstring) :
  (forallb isSpace sentence = true /\ handleSubmit sentence = [])
  \/ (exists before submitted after,
        handleSubmit sentence = [submitted]
        /\ sentence = before ++ submitted ++ after
        /\ forallb isSpace before = true
        /\ forallb isSpace after = true
        /\ submitted <> []
        /\ trim submitted = submitted).
Proof.
  destruct (trim_parts sentence) as (before & after & Hs & Hb & Ha & Hi).
  unfold handleSubmit.
  destruct (trim sentence) as [|c r] eqn:Et.
  - left. split; [|reflexivity].
    rewrite Hs. simpl. now rewrite forallb_app, Hb, Ha.
  - right. exists before, (c :: r), after.
    repeat split; try assumption. discriminate.
Qed.

(* ================================================================= *)
(** ** The feedback screen: one completion for every stream *)

Import FeedbackDisplay.

Section Completion.

Variable generateSpeech : jsstring -> option (option jsstring).

(** The calls of a run: at most one structured call, then explanation
    chunks, then the end of the stream. *)
Lemma calls_shape (s : stream) :
  exists ds es,
    calls_of s
    = map OnStructuredData ds ++ map OnExplanationChunk es ++ [OnStreamEnd]
    /\ length ds <= 1.
Proof.
  destruct s as [cs fin]. unfold calls_of.
  destruct (indexOf separator (textOf cs)) as [i|] eqn:Hi.
  - destruct (@run_delimited cs fin i Hi) as (es & -> & _ & _).
    cbn [fst]. destruct fin; cbn [closingCalls].
    + exists [parseFields (substring (textOf cs) 0 i)], es.
      split; [reflexivity|simpl; lia].
    + exists [parseFields (substring (textOf cs) 0 i)], (es ++ [errorMessage]).
      split; [|simpl; lia].
      rewrite map_app. cbn [map app]. now rewrite <- app_assoc.
  - rewrite (@run_undelimited cs fin Hi). cbn [fst].
    destruct fin; cbn [closingCalls].
    + unfold fallbackCalls. destruct (truthy (textOf cs)).
      * destruct (truthy (fallbackExplanation (textOf cs))).
        -- exists [parseFields (textOf cs)], [fallbackExplanation (textOf cs)].
           split; [reflexivity|simpl; lia].
        -- exists [parseFields (textOf cs)], [].
           split; [reflexivity|simpl; lia].
      * exists [], []. split; [reflexivity|simpl; lia].
    + exists [], [errorMessage]. split; [reflexivity|simpl; lia].
Qed.

Lemma deliver_chunks (es : list jsstring) : forall (rest : list event)
    (shown : jsstring) (sc : option number) (ev co : option jsstring)
    (completed : list completion),
  deliver generateSpeech (map OnExplanationChunk es ++ rest)
    {| refExplanation := Some shown; refScore := sc;
       refEvaluation := ev; refCorrectedSentence := co |} completed
  = deliver generateSpeech rest
      {| refExplanation := Some (shown ++ concat es); refScore := sc;
         refEvaluation := ev; refCorrectedSentence := co |} completed.
Proof.
  induction es as [|e es IH]; intros rest shown sc ev co completed.
  - simpl. now rewrite app_nil_r.
  - cbn [map app deliver refExplanation refScore refEvaluation
         refCorrectedSentence orEmpty concat].
    rewrite IH. now rewrite <- app_assoc.
Qed.

Lemma structuredCalls_data (ds : list fields) :
  structuredCalls (map OnStructuredData ds) = ds.
Proof. induction ds; simpl; congruence. Qed.

Lemma explanationChunks_data (ds : list fields) :
  explanationChunks (map OnStructuredData ds) = [].
Proof. induction ds; simpl; auto. Qed.

End Completion.

(** Every run of the evaluation reports its completion once, whatever
    the stream delivers and whether or not the speech service answers.
    The feedback holds the fields of the structured call, or no score but
    0 and no correction but the default one when there was none, and as
    explanation all the explanation chunks in their order; only with a
    correction that is not empty is the speech service asked, and when it
    fails the error feedback is reported instead. *)
Theorem completion_is_reported_once
    (generateSpeech : jsstring -> option (option jsstring)) (s : stream) :
  exists feedback audio,
    streamEvaluation generateSpeech s = [(feedback, audio)]
    /\ match structuredCalls (calls_of s) with
       | [] =>
           feedback = {| score := Finite 0;
                         evaluation := [];
                         correctedSentence := defaultCorrectedSentence;
                         explanation := explanationText (calls_of s) |}
           /\ audio = None
       | [data] =>
           let shown := {| score := Stream.score data;
                           evaluation := Stream.evaluation data;
                           correctedSentence := Stream.correctedSentence data;
                           explanation := explanationText (calls_of s) |} in
           if truthy (Stream.correctedSentence data) then
             match generateSpeech (Stream.correctedSentence data) with
             | Some spoken => feedback = shown /\ audio = spoken
             | None => feedback = errorFeedback /\ audio = None
             end
           else feedback = shown /\ audio = None
       | _ => False
       end.
Proof.
  destruct (calls_shape s) as (ds & es & Hlog & Hlen).
  unfold streamEvaluation. rewrite Hlog.
  rewrite !structuredCalls_app, structuredCalls_data, structuredCalls_chunks.
  rewrite !explanationText_app. unfold explanationText.
  rewrite explanationChunks_data, explanationChunks_chunks.
  cbn [structuredCalls explanationChunks flat_map concat app].
  rewrite !app_nil_r.
  destruct ds as [|data [|]]; [| |simpl in Hlen; lia]; cbn [map app].
  - unfold initialRef. rewrite deliver_chunks.
    cbn [deliver app]. unfold streamEnd.
    cbn [refCorrectedSentence refScore refEvaluation refExplanation].
    eexists _, _. split; [reflexivity|]. split; reflexivity.
  - unfold initialRef.
    cbn [deliver refCorrectedSentence refScore refEvaluation refExplanation].
    rewrite deliver_chunks.
    cbn [deliver app]. unfold streamEnd.
    cbn [refCorrectedSentence refScore refEvaluation refExplanation].
    destruct (truthy (Stream.correctedSentence data)).
    + destruct (generateSpeech (Stream.correctedSentence data)) as [spoken|].
      * eexists _, _. split; [reflexivity|]. split; reflexivity.
      * eexists _, _. split; [reflexivity|]. split; reflexivity.
    + eexists _, _. split; [reflexivity|]. split; reflexivity.
Qed.

(* ================================================================= *)
(** ** Importing a file *)

Import HistoryScreen.

(** The message of an import tells whether the file holds an array, not
    whether anything was merged: a file that is not the text of an array
    leaves the state as it was and is reported as failed; an array is
    reported as imported, also when one of its elements is [null], in
    which case the store is left as it was. After an import that is
    reported as done the store holds the history of the screen, as it is
    or as [JSON.stringify] writes it. *)
Theorem import_message_ignores_the_merge (E : environment) (fileText : text)
    (st : state) :
  match JSON_parse fileText with
  | Some (JArray imported) =>
      snd (handleFileImport E fileText st) = ImportComplete
      /\ (inSync (fst (handleFileImport E fileText st))
          \/ storedAsWritten (fst (handleFileImport E fileText st)))
      /\ (In JNull imported ->
            store (fst (handleFileImport E fileText st)) = store st)
  | _ => handleFileImport E fileText st = (st, FailedToImport)
  end.
Proof.
  unfold handleFileImport.
  destruct (JSON_parse fileText) as [[| | | |imported|]|]; try reflexivity.
  unfold handleImportHistory.
  destruct (mergeAndSaveHistory E (JArray imported) (store st))
    as [ls' merged] eqn:Em.
  cbn [fst snd]. split; [reflexivity|].
  unfold inSync, storedAsWritten. cbn [store history].
  unfold mergeAndSaveHistory in Em.
  destruct (mergeTry E imported (store st)) as [[ls'' result]|] eqn:Et.
  - inversion Em; subst ls'' result. split.
    + apply mergeTry_stages in Et as (_ & _ & _ & _ & _ & -> & _).
      right. reflexivity.
    + intros Hnull. exfalso. unfold mergeTry in Et.
      destruct (spread (getHistory (store st))) as [current|]; [|discriminate].
      rewrite (@mergeLoop_null E (current ++ imported) [])
        in Et by (apply in_or_app; now right).
      discriminate.
  - inversion Em; subst. split; [left; reflexivity|]. intros _. reflexivity.
Qed.

Lemma import_message_ignores_the_merge_witness :
  snd (handleFileImport browser (JSONText (JArray [third; JNull]))
         (initial twoStore)) = ImportComplete
  /\ store (fst (handleFileImport browser (JSONText (JArray [third; JNull]))
                   (initial twoStore))) = twoStore.
Proof.
  pose proof (@import_message_ignores_the_merge browser
                (JSONText (JArray [third; JNull])) (initial twoStore)) as H.
  cbn [JSON_parse] in H. destruct H as (Hm & _ & Hs).
  split; [exact Hm|]. apply Hs. right. now left.
Defined.
